(** * Exit Vector: maze generation and ball physics

    A shallow embedding of [js/config.js], [js/maze.js], [js/physics.js]
    and the state logic of [js/game.js].

    Number model.  A JavaScript number that the code uses as an index, a
    count, a seed or a cell tag is a [Z]; the canvas size handed to
    [MazeGenerator.init] is a [Q] (it is floored before it is used as a
    count); every pixel-space quantity of the physics (positions,
    velocities, radii, zone bounds, scores) is a real number [R], that is,
    the arithmetic of the simulation is taken exact.  The one place where
    the rounding of a double changes an integer result, the product
    [seed * 1103515245] of the generator (it exceeds 2^53), is modelled
    with its rounding written out ([round53]).

    Methods that mutate [this] are functions from the old object to the
    new one; a method that can throw returns a [result]. *)

From Stdlib Require Import String ZArith Zquot List Bool Lia QArith Qround Qminmax.
From Stdlib Require Import Reals Lra Permutation Relations.
Import ListNotations.

#[local] Open Scope Z_scope.

(** ** Outcome of a method call *)

(** [TypeError]: the call threw (a property of [undefined] was read).
    [OutOfFuel]: the recursion bound of the embedding was reached; the
    theorems show that this never happens with the bound used by
    [_generateMaze]. *)
Inductive result (A : Type) : Type :=
| Ok (a : A)
| TypeError
| OutOfFuel.
Arguments Ok {A} a.
Arguments TypeError {A}.
Arguments OutOfFuel {A}.

Definition bind {A B : Type} (r : result A) (k : A -> result B) : result B :=
  match r with
  | Ok a => k a
  | TypeError => TypeError
  | OutOfFuel => OutOfFuel
  end.

Definition result_map {A B : Type} (f : A -> B) (r : result A) : result B :=
  match r with
  | Ok a => Ok (f a)
  | TypeError => TypeError
  | OutOfFuel => OutOfFuel
  end.

(** ** JavaScript arrays holding possibly-[undefined] entries *)

Module JsArray.
Section Ops.
Context {A : Type}.

(** [a[i]]: [None] stands for [undefined]. *)
Definition get (a : list (option A)) (i : Z) : option A :=
  if i <? 0 then None
  else match nth_error a (Z.to_nat i) with
       | Some v => v
       | None => None
       end.

(** [a[i] = v] for [0 <= i]: an index past the end extends the array,
    the gap being filled with [undefined]. *)
Definition set (a : list (option A)) (i : Z) (v : option A) : list (option A) :=
  let n := Z.to_nat i in
  firstn n a ++ repeat None (n - length a) ++ v :: skipn (S n) a.

(** [[a[i], a[j]] = [a[j], a[i]]]: both reads happen before both
    writes. *)
Definition swap (a : list (option A)) (i j : Z) : list (option A) :=
  let vj := get a j in
  let vi := get a i in
  set (set a i vj) j vi.
End Ops.
End JsArray.

(** ** config.js *)

Module PHYSICS_CONFIG.
#[local] Open Scope R_scope.
Definition gravityMultiplier : R := 8 / 10.
Definition friction : R := 97 / 100.
Definition ballRadius : R := 10.
Definition maxVelocity : R := 12.
Definition bounceFactor : R := 3 / 10.
Definition velocityThreshold : R := 1 / 100.
End PHYSICS_CONFIG.

Module EXIT_CONFIG.
Definition zoneHeight : Z := 45.
Definition zoneCount : Z := 5.
End EXIT_CONFIG.

Module VISUAL_CONFIG.
Definition ballColors : list string :=
  [ "#e74c3c"; "#3498db"; "#2ecc71"; "#f39c12"; "#9b59b6"; "#1abc9c"; "#e91e63" ]%string.
Definition trailLength : nat := 6.
End VISUAL_CONFIG.

Module LEVEL_CONFIG.
(** [maxLevel: Infinity]: [None] is [Infinity]. *)
Definition maxLevel : option Z := None.
Definition ballCounts_low : nat := 1.
Definition ballCounts_high : nat := 1.
Definition ballCountThreshold : Z := 5.
Definition targetScore : R := 1000%R.
End LEVEL_CONFIG.

(** [getBallCount(level)] *)
Definition getBallCount (level : Z) : nat :=
  if level <=? LEVEL_CONFIG.ballCountThreshold
  then LEVEL_CONFIG.ballCounts_low
  else LEVEL_CONFIG.ballCounts_high.

(** [getTargetScore(level)] *)
Definition getTargetScore (level : Z) : R := LEVEL_CONFIG.targetScore.

Inductive GAME_STATE : Type :=
| MENU | PLAYING | PAUSED | LEVEL_COMPLETE | LEVEL_FAILED | GAME_COMPLETE.

(** ** maze.js: cell tags and directions *)

Inductive CellType : Type := WALL | PATH | ENTRY | EXIT.

Definition CellType_eqb (a b : CellType) : bool :=
  match a, b with
  | WALL, WALL | PATH, PATH | ENTRY, ENTRY | EXIT, EXIT => true
  | _, _ => false
  end.

Record Direction : Type := mkDirection { dx : Z; dy : Z; name : string }.

Definition DIRECTIONS : list Direction :=
  [ mkDirection 0 (-1) "up";
    mkDirection 1 0 "right";
    mkDirection 0 1 "down";
    mkDirection (-1) 0 "left" ].

(** ** maze.js: SeededRandom *)

Module SeededRandom.

(** Rounding of an integer to the nearest double (53 significant bits,
    ties to even).  The operands of [seed * 1103515245 + 12345] are
    integers, so the exact product and the exact sum are integers and
    each is rounded once. *)
Definition round53 (v : Z) : Z :=
  let a := Z.abs v in
  let e := Z.log2 a - 52 in
  if e <=? 0 then v
  else
    let q := Z.shiftr a e in
    let r := a - Z.shiftl q e in
    let half := Z.shiftl 1 (e - 1) in
    let q' := if r <? half then q
              else if half <? r then q + 1
              else if Z.even q then q else q + 1 in
    Z.sgn v * Z.shiftl q' e.

(** The new value of [this.seed] in [next()]:
    [(this.seed * 1103515245 + 12345) & 0x7fffffff].  The operator [&]
    takes its left operand modulo 2^32; masked with 2^31 - 1 that is the
    operand modulo 2^31, which is what [Z.land] gives on [Z]. *)
Definition next_seed (seed : Z) : Z :=
  Z.land (round53 (round53 (seed * 1103515245) + 12345)) 0x7fffffff.

(** [next()]: the returned number [this.seed / 0x7fffffff] and the new
    seed. *)
Definition next (seed : Z) : Q * Z :=
  let seed' := next_seed seed in
  ((inject_Z seed' / inject_Z 0x7fffffff)%Q, seed').

(** [nextInt(min, max)] *)
Definition nextInt (min max : Z) (seed : Z) : Z * Z :=
  let '(u, seed') := next seed in
  (Qfloor (u * inject_Z (max - min))%Q + min, seed').

Section Shuffle.
Context {A : Type}.

(** The loop of [shuffle], entered with [i = S k] down to [i = 1]. *)
Fixpoint shuffle_loop (i : nat) (result : list (option A)) (seed : Z)
  : list (option A) * Z :=
  match i with
  | O => (result, seed)
  | S i' =>
      let '(j, seed') := nextInt 0 (Z.of_nat i + 1) seed in
      shuffle_loop i' (JsArray.swap result (Z.of_nat i) j) seed'
  end.

(** [shuffle(array)] *)
Definition shuffle (array : list A) (seed : Z) : list (option A) * Z :=
  let result := map Some array in
  shuffle_loop (length result - 1) result seed.
End Shuffle.

End SeededRandom.


(** ** Loop helpers *)

(** The values taken by [i] in [for (let i = lo; i < hi; i++)]. *)
Definition range (lo hi : Z) : list Z :=
  map (fun k => lo + Z.of_nat k) (seq 0 (Z.to_nat (hi - lo))).

(** ** maze.js: the grid *)

(** [grid[y][x]], a list of rows.  Every write of the generator is to a
    cell inside the grid once [rows >= 3] and [cols >= 3] (lemmas
    [carve_step_interior] and [createEntryAndExits_*] below), so [set]
    leaves the grid alone elsewhere instead of spelling out what a
    JavaScript array does for an index past its end. *)
Module Grid.
Definition t : Type := list (list CellType).

Definition get (g : t) (x y : Z) : option CellType :=
  if (x <? 0) || (y <? 0) then None
  else match nth_error g (Z.to_nat y) with
       | Some row => nth_error row (Z.to_nat x)
       | None => None
       end.

Fixpoint set_nth {A : Type} (l : list A) (n : nat) (v : A) : list A :=
  match l, n with
  | [], _ => []
  | _ :: l', O => v :: l'
  | a :: l', S n' => a :: set_nth l' n' v
  end.

Definition set (g : t) (x y : Z) (v : CellType) : t :=
  if (x <? 0) || (y <? 0) then g
  else match nth_error g (Z.to_nat y) with
       | Some row => set_nth g (Z.to_nat y) (set_nth row (Z.to_nat x) v)
       | None => g
       end.

(** [grid[y][x] === v] *)
Definition cell_is (g : t) (x y : Z) (v : CellType) : bool :=
  match get g x y with
  | Some c => CellType_eqb c v
  | None => false
  end.
End Grid.

(** ** Geometry handed to the physics engine *)

Module Rect.
Record t : Type := mk
  { x : R; y : R; width : R; height : R; isWall : bool }.
End Rect.

Module ExitZone.
Record t : Type := mk
  { x : R; y : R; width : R; height : R;
    score : R; color : string; label : string; column : Z }.
End ExitZone.

(** ** maze.js: MazeGenerator *)

Module MazeGenerator.

Record t : Type := mk
  { grid : Grid.t;
    cols : Z;
    rows : Z;
    cellSize : Z;
    wallThickness : Z;
    level : Z;
    rng : Z;                       (* [this.rng.seed] *)
    exitZones : list ExitZone.t;
    wallRects : list Rect.t;
    entryX : R;
    entryY : R;
    width : Z;
    height : Z;
    exitColumns : list Z;
    marginLeft : option Z;         (* [undefined] until [init] *)
    marginTop : option Z }.

Definition set_grid (v : Grid.t) (m : t) : t :=
  mk v (cols m) (rows m) (cellSize m) (wallThickness m) (level m) (rng m)
     (exitZones m) (wallRects m) (entryX m) (entryY m) (width m) (height m)
     (exitColumns m) (marginLeft m) (marginTop m).
Definition set_rng (v : Z) (m : t) : t :=
  mk (grid m) (cols m) (rows m) (cellSize m) (wallThickness m) (level m) v
     (exitZones m) (wallRects m) (entryX m) (entryY m) (width m) (height m)
     (exitColumns m) (marginLeft m) (marginTop m).
Definition set_exitZones (v : list ExitZone.t) (m : t) : t :=
  mk (grid m) (cols m) (rows m) (cellSize m) (wallThickness m) (level m) (rng m)
     v (wallRects m) (entryX m) (entryY m) (width m) (height m)
     (exitColumns m) (marginLeft m) (marginTop m).
Definition set_wallRects (v : list Rect.t) (m : t) : t :=
  mk (grid m) (cols m) (rows m) (cellSize m) (wallThickness m) (level m) (rng m)
     (exitZones m) v (entryX m) (entryY m) (width m) (height m)
     (exitColumns m) (marginLeft m) (marginTop m).
Definition set_exitColumns (v : list Z) (m : t) : t :=
  mk (grid m) (cols m) (rows m) (cellSize m) (wallThickness m) (level m) (rng m)
     (exitZones m) (wallRects m) (entryX m) (entryY m) (width m) (height m)
     v (marginLeft m) (marginTop m).
Definition set_entry (ex ey : R) (m : t) : t :=
  mk (grid m) (cols m) (rows m) (cellSize m) (wallThickness m) (level m) (rng m)
     (exitZones m) (wallRects m) ex ey (width m) (height m)
     (exitColumns m) (marginLeft m) (marginTop m).

(** [new MazeGenerator()]; [now] is the value of [Date.now()] that seeds
    the generator. *)
Definition constructor (now : Z) : t :=
  mk [] 15 15 30 4 1 now [] [] 0%R 0%R 0 0 [] None None.

(** *** _carve *)

(** The body of [for (const dir of directions)] in [_carve(x, y)];
    [carve] is [_carve] for the recursive call. *)
Fixpoint carve_loop (carve : Z -> Z -> t -> result t) (x y : Z)
    (directions : list (option Direction)) (m : t) : result t :=
  match directions with
  | [] => Ok m
  | None :: _ => TypeError        (* [dir.dx] with [dir] undefined *)
  | Some dir :: rest =>
      let nx := x + dx dir * 2 in
      let ny := y + dy dir * 2 in
      if (0 <? nx) && (nx <? cols m - 1) &&
         (0 <? ny) && (ny <? rows m - 1) &&
         Grid.cell_is (grid m) nx ny WALL
      then
        let m := set_grid (Grid.set (grid m) (x + dx dir) (y + dy dir) PATH) m in
        match carve nx ny m with
        | Ok m => carve_loop carve x y rest m
        | err => err
        end
      else carve_loop carve x y rest m
  end.

(** [_carve(x, y)], with a bound [fuel] on the depth of the recursion. *)
Fixpoint _carve (fuel : nat) (x y : Z) (m : t) : result t :=
  match fuel with
  | O => OutOfFuel
  | S fuel' =>
      let m := set_grid (Grid.set (grid m) x y PATH) m in
      let '(directions, seed) := SeededRandom.shuffle DIRECTIONS (rng m) in
      let m := set_rng seed m in
      carve_loop (_carve fuel') x y directions m
  end.

(** *** _generateMaze *)

(** Depth bound given to [_carve]: one more than the number of cells. *)
Definition carve_fuel (m : t) : nat := S (Z.to_nat (rows m) * Z.to_nat (cols m)).

Definition _generateMaze (m : t) : result t :=
  let m := set_grid (repeat (repeat WALL (Z.to_nat (cols m))) (Z.to_nat (rows m))) m in
  let startX := cols m / 2 in
  let startY := 1 in
  let actualStartX := if Z.rem startX 2 =? 0 then startX + 1 else startX in
  _carve (carve_fuel m) actualStartX startY m.

(** *** _createEntryAndExits *)

(** The scan [for (let x = 1; x < this.cols - 1; x++)] for the Path cell
    of row [rows - 2] nearest to [targetCol]; [minDist = None] is
    [Infinity]. *)
Definition nearest_step (g : Grid.t) (row targetCol : Z)
    (acc : Z * option Z) (x : Z) : Z * option Z :=
  let '(bestCol, minDist) := acc in
  if Grid.cell_is g x row PATH then
    let dist := Z.abs (x - targetCol) in
    match minDist with
    | Some d => if dist <? d then (x, Some dist) else acc
    | None => (x, Some dist)
    end
  else acc.

Definition nearest_path (g : Grid.t) (cols rows targetCol : Z) : Z :=
  fst (fold_left (nearest_step g (rows - 2) targetCol)
                 (range 1 (cols - 1)) (targetCol, None)).

(** [exitPositions], as exact fractions. *)
Definition exitPositions : list Q := [1 # 10; 3 # 10; 5 # 10; 7 # 10; 9 # 10]%Q.

(** One iteration of [for (const pos of exitPositions)].  For an odd
    [cols] the product [pos * cols] is at least 1/10 away from an
    integer, so its floor is that of the exact product. *)
Definition open_exit (m : t) (pos : Q) : t :=
  let targetCol := Qfloor (pos * inject_Z (cols m))%Q in
  let bestCol := nearest_path (grid m) (cols m) (rows m) targetCol in
  let m := set_grid (Grid.set (grid m) bestCol (rows m - 1) EXIT) m in
  set_exitColumns (exitColumns m ++ [bestCol]) m.

(** [for (let y = this.rows - 2; y >= 0; y--)] with its [break]; [k]
    bounds the iterations left. *)
Fixpoint carve_up (k : nat) (y col : Z) (g : Grid.t) : Grid.t :=
  match k with
  | O => g
  | S k' =>
      if y <? 0 then g
      else if Grid.cell_is g col y PATH then g
      else carve_up k' (y - 1) col (Grid.set g col y PATH)
  end.

(** One iteration of [for (const col of this.exitColumns)]. *)
Definition connect_exit (rows : Z) (g : Grid.t) (col : Z) : Grid.t :=
  if Grid.cell_is g col (rows - 2) WALL
  then carve_up (Z.to_nat (rows - 1)) (rows - 2) col g
  else g.

Definition _createEntryAndExits (m : t) : t :=
  let centerX := cols m / 2 in
  let m := set_grid (Grid.set (grid m) centerX 0 ENTRY) m in
  let m := set_grid (Grid.set (grid m) centerX 1 PATH) m in
  let m := set_exitColumns [] m in
  let m := fold_left open_exit exitPositions m in
  set_grid (fold_left (connect_exit (rows m)) (exitColumns m) (grid m)) m.

(** *** _buildExitZones *)

Record ExitScore : Type := mkExitScore
  { es_score : R; es_color : string; es_label : string }.

Definition exitScores : list ExitScore :=
  [ mkExitScore 500 "#4ade80" "500";
    mkExitScore 100 "#60a5fa" "100";
    mkExitScore 1000 "#facc15" "1000";
    mkExitScore 0 "#94a3b8" "0";
    mkExitScore 250 "#f472b6" "250" ].

(** [this.exitColumns[i] || Math.floor((i + 0.5) * this.cols / 5)]:
    a missing entry and the column 0 are falsy. *)
Definition zone_column (m : t) (i : nat) : Z :=
  let fallback :=
    Qfloor ((inject_Z (Z.of_nat i) + (1 # 2)) * inject_Z (cols m) / 5)%Q in
  match nth_error (exitColumns m) i with
  | Some c => if c =? 0 then fallback else c
  | None => fallback
  end.

(** The object pushed in iteration [i] of the loop of [_buildExitZones]. *)
Definition exit_zone (m : t) (i : nat) : ExitZone.t :=
  let zoneWidth := (IZR (width m) / 5)%R in
  let zoneX := (INR i * zoneWidth)%R in
  let s := nth i exitScores (mkExitScore 0 "" "") in
  ExitZone.mk zoneX (IZR (height m)) zoneWidth (IZR EXIT_CONFIG.zoneHeight)
              (es_score s) (es_color s) (es_label s) (zone_column m i).

Definition _buildExitZones (m : t) : t :=
  let m := set_exitZones [] m in
  fold_left (fun m i => set_exitZones (exitZones m ++ [exit_zone m i]) m)
            (seq 0 5) m.

(** *** _buildWallRects *)

Definition wall_rect (m : t) (x y : Z) : Rect.t :=
  Rect.mk (IZR (x * cellSize m)) (IZR (y * cellSize m))
          (IZR (cellSize m)) (IZR (cellSize m)) true.

Definition _buildWallRects (m : t) : t :=
  let m := set_wallRects [] m in
  fold_left
    (fun m y =>
       fold_left
         (fun m x =>
            if Grid.cell_is (grid m) x y WALL
            then set_wallRects (wallRects m ++ [wall_rect m x y]) m
            else m)
         (range 0 (cols m)) m)
    (range 0 (rows m)) m.

(** *** init *)

(** The sizes chosen by [init] before the maze is generated. *)
Record Layout : Type := mkLayout
  { l_marginLeft : Z; l_marginTop : Z;
    l_availableWidth : Q; l_availableHeight : Q;
    l_cols : Z; l_rows : Z; l_cellSize : Z }.

Definition minCellSize : Z := 16.

(** "Scale maze complexity based on level" down to "reduce grid size to
    fit": columns, rows and cell size for the available space. *)
Definition choose_size (level : Z) (availableWidth availableHeight : Q)
  : Z * Z * Z :=
  let targetCols := Z.min 21 (11 + level / 3 * 2) in
  let targetRows := Z.min 25 (13 + level / 4 * 2) in
  let targetCols := if Z.rem targetCols 2 =? 0 then targetCols + 1 else targetCols in
  let targetRows := if Z.rem targetRows 2 =? 0 then targetRows + 1 else targetRows in
  let cellSize :=
    Qfloor (Qmin (availableWidth / inject_Z targetCols)
                 (availableHeight / inject_Z targetRows))%Q in
  if cellSize <? minCellSize then
    let cellSize := minCellSize in
    let targetCols := Qfloor (availableWidth / inject_Z cellSize)%Q in
    let targetRows := Qfloor (availableHeight / inject_Z cellSize)%Q in
    let targetCols := if Z.rem targetCols 2 =? 0 then targetCols - 1 else targetCols in
    let targetRows := if Z.rem targetRows 2 =? 0 then targetRows - 1 else targetRows in
    let targetCols := Z.max 9 targetCols in
    let targetRows := Z.max 9 targetRows in
    (targetCols, targetRows, cellSize)
  else (targetCols, targetRows, cellSize).

(** Margins by orientation, available space and sizes. *)
Definition layout (level : Z) (canvasWidth canvasHeight : Q) : Layout :=
  let isLandscape := negb (Qle_bool canvasWidth canvasHeight) in
  let exitZoneHeight := EXIT_CONFIG.zoneHeight in
  let '(marginLeft, marginRight, marginTop, marginBottom) :=
    if isLandscape then (120, 20, 20, 100) else (20, 20, 100, 100) in
  let availableWidth :=
    (canvasWidth - inject_Z marginLeft - inject_Z marginRight)%Q in
  let availableHeight :=
    (canvasHeight - inject_Z marginTop - inject_Z marginBottom
     - inject_Z exitZoneHeight)%Q in
  let '(cols, rows, cellSize) := choose_size level availableWidth availableHeight in
  mkLayout marginLeft marginTop availableWidth availableHeight cols rows cellSize.

(** [init(level, canvasWidth, canvasHeight)]; [now] is the value that
    [Date.now()] returns inside the call. *)
Definition init (now : Z) (level : Z) (canvasWidth canvasHeight : Q) (m : t)
  : result t :=
  let l := layout level canvasWidth canvasHeight in
  let cols := l_cols l in
  let rows := l_rows l in
  let cellSize := l_cellSize l in
  let m := mk (grid m) cols rows cellSize (wallThickness m) level now
              (exitZones m) (wallRects m) (entryX m) (entryY m)
              (cols * cellSize) (rows * cellSize) (exitColumns m)
              (Some (l_marginLeft l)) (Some (l_marginTop l)) in
  match _generateMaze m with
  | Ok m =>
      let m := _createEntryAndExits m in
      let m := _buildExitZones m in
      let m := _buildWallRects m in
      Ok (set_entry (IZR (width m) / 2) (IZR (cellSize) * (15 / 10)) m)
  | TypeError => TypeError
  | OutOfFuel => OutOfFuel
  end.

(** *** getSpawnPositions *)

(** [getSpawnPositions(ballCount)]: the positions pushed for
    [i = 0 .. ballCount - 1]. *)
Definition getSpawnPositions (ballCount : nat) (m : t) : list (R * R) :=
  let spacing := (PHYSICS_CONFIG.ballRadius * (22 / 10))%R in
  let entryCol := cols m / 2 in
  let entryPixelX := ((IZR entryCol + 5 / 10) * IZR (cellSize m))%R in
  let entryPixelY := (IZR (cellSize m) * (15 / 10))%R in
  map (fun i =>
         let offset := ((INR i - (INR ballCount - 1) / 2) * spacing)%R in
         ((entryPixelX + offset * (3 / 10))%R,
          (entryPixelY + INR i * (PHYSICS_CONFIG.ballRadius * (5 / 10)))%R))
      (seq 0 ballCount).

(** *** getExitZoneForX *)

(** [getExitZoneForX(x)]: the first zone with
    [x >= zone.x && x <= zone.x + zone.width], or [null]. *)
Definition getExitZoneForX (x : R) (m : t) : option ExitZone.t :=
  find (fun zone =>
          if Rge_dec x (ExitZone.x zone) then
            if Rle_dec x (ExitZone.x zone + ExitZone.width zone) then true else false
          else false)
       (exitZones m).

(** *** Getters *)

Definition getWallRects (m : t) : list Rect.t := wallRects m.
Definition getExitZones (m : t) : list ExitZone.t := exitZones m.
Definition getGrid (m : t) : Grid.t := grid m.

(** *** getDimensions *)

(** [Math.floor(n * 0.35)] for an integer [n].  The double [0.35] is
    6305039478318694 / 2^54; the product of two doubles is the exact
    product rounded to 53 significant bits, and the rounding of
    [n * 6305039478318694 / 2^54] is that of the integer
    [n * 6305039478318694] divided by 2^54.  (The exact [n * 35 / 100]
    would give 63 for [n = 180], where the code gives 62.) *)
Definition floor_times_0_35 (n : Z) : Z :=
  Z.shiftr (SeededRandom.round53 (n * 6305039478318694)) 54.

(** [a || b] on an integer that may be missing: [undefined] and 0 are
    falsy. *)
Definition or_default_Z (a : option Z) (b : Z) : Z :=
  match a with
  | Some v => if v =? 0 then b else v
  | None => b
  end.

Record Dimensions : Type := mkDimensions
  { d_width : Z; d_height : Z; d_cellSize : Z; d_cols : Z; d_rows : Z;
    d_ballRadius : Z; d_marginLeft : Z; d_marginTop : Z }.

(** [getDimensions()] *)
Definition getDimensions (m : t) : Dimensions :=
  let ballRadius := Z.max 5 (floor_times_0_35 (cellSize m)) in
  mkDimensions (width m) (height m) (cellSize m) (cols m) (rows m) ballRadius
               (or_default_Z (marginLeft m) 20) (or_default_Z (marginTop m) 20).

(** *** isWall *)

(** [isWall(x, y)] for a non-zero [cellSize]; [Int_part] is
    [Math.floor].  Reading [this.grid[row][col]] throws when
    [this.grid[row]] is [undefined]; an [undefined] cell is not equal to
    [CELL_TYPES.WALL]. *)
Definition isWall (x y : R) (m : t) : result bool :=
  let col := Int_part (x / IZR (cellSize m)) in
  let row := Int_part (y / IZR (cellSize m)) in
  if (col <? 0) || (cols m <=? col) || (row <? 0) || (rows m <=? row) then Ok true
  else
    match nth_error (grid m) (Z.to_nat row) with
    | None => TypeError
    | Some r =>
        match nth_error r (Z.to_nat col) with
        | Some c => Ok (CellType_eqb c WALL)
        | None => Ok false
        end
    end.

End MazeGenerator.

(** ** physics.js: Ball *)

(** [a || b] on a number that may be missing: [null], [undefined] and
    [0] are falsy. *)
Definition or_default (a : option R) (b : R) : R :=
  match a with
  | Some r => if Req_dec_T r 0%R then b else r
  | None => b
  end.

Module Ball.
#[local] Open Scope R_scope.

Record t : Type := mk
  { x : R; y : R; vx : R; vy : R;
    radius : R;
    index : nat;
    active : bool;
    exited : bool;
    score : R;
    trail : list (R * R) }.

(** [new Ball(x, y, index, radius)] *)
Definition constructor (x y : R) (index : nat) (radius : option R) : t :=
  mk x y 0 0 (or_default radius PHYSICS_CONFIG.ballRadius) index true false 0 [].

Definition set_pos (x' y' : R) (b : t) : t :=
  mk x' y' (vx b) (vy b) (radius b) (index b) (active b) (exited b) (score b) (trail b).
Definition set_vel (vx' vy' : R) (b : t) : t :=
  mk (x b) (y b) vx' vy' (radius b) (index b) (active b) (exited b) (score b) (trail b).
Definition set_active (v : bool) (b : t) : t :=
  mk (x b) (y b) (vx b) (vy b) (radius b) (index b) v (exited b) (score b) (trail b).
Definition set_exit (s : R) (b : t) : t :=
  mk (x b) (y b) (vx b) (vy b) (radius b) (index b) (active b) true s (trail b).
Definition set_trail (v : list (R * R)) (b : t) : t :=
  mk (x b) (y b) (vx b) (vy b) (radius b) (index b) (active b) (exited b) (score b) v.

(** [getSpeed()] *)
Definition getSpeed (b : t) : R := sqrt (vx b * vx b + vy b * vy b).

(** [updateTrail()]: the new position goes to the front, the tail is
    popped while the trail is longer than [trailLength]. *)
Definition updateTrail (b : t) : t :=
  set_trail (firstn VISUAL_CONFIG.trailLength ((x b, y b) :: trail b)) b.

(** [reset(x, y)] *)
Definition reset (x' y' : R) (b : t) : t :=
  mk x' y' 0 0 (radius b) (index b) true false 0 [].

(** [getColor()]: [None] is [undefined]. *)
Definition getColor (b : t) : option string :=
  nth_error VISUAL_CONFIG.ballColors
            (index b mod length VISUAL_CONFIG.ballColors).
End Ball.

(** ** physics.js: PhysicsEngine *)

Module PhysicsEngine.
#[local] Open Scope R_scope.

Record t : Type := mk
  { balls : list Ball.t;
    gravity : R * R;
    paused : bool;
    score : R;
    walls : list Rect.t;
    exitZones : list ExitZone.t;
    mazeWidth : R;
    mazeHeight : R;
    ballRadius : option R;         (* [undefined] until [init] *)
    onBallExit : option nat;       (* the registered callback, if any *)
    onWallHit : option nat }.

(** [new PhysicsEngine()] *)
Definition constructor : t :=
  mk [] (0, 0) false 0 [] [] 0 0 None None None.

(** [init(spawnPositions, walls, exitZones, mazeWidth, mazeHeight, ballRadius)] *)
Definition init (spawnPositions : list (R * R)) (walls : list Rect.t)
    (exitZones : list ExitZone.t) (mazeWidth mazeHeight : R)
    (ballRadius : option R) (e : t) : t :=
  let r := or_default ballRadius PHYSICS_CONFIG.ballRadius in
  let balls :=
    map (fun '(index, (px, py)) => Ball.constructor px py index (Some r))
        (combine (seq 0 (length spawnPositions)) spawnPositions) in
  mk balls (gravity e) (paused e) 0 walls exitZones mazeWidth mazeHeight
     (Some r) (onBallExit e) (onWallHit e).

(** [setGravity(gravity)] *)
Definition setGravity (g : R * R) (e : t) : t :=
  mk (balls e) (fst g, snd g) (paused e) (score e) (walls e) (exitZones e)
     (mazeWidth e) (mazeHeight e) (ballRadius e) (onBallExit e) (onWallHit e).

(** [setPaused(paused)] *)
Definition setPaused (p : bool) (e : t) : t :=
  mk (balls e) (gravity e) p (score e) (walls e) (exitZones e)
     (mazeWidth e) (mazeHeight e) (ballRadius e) (onBallExit e) (onWallHit e).

Definition setOnBallExit (cb : option nat) (e : t) : t :=
  mk (balls e) (gravity e) (paused e) (score e) (walls e) (exitZones e)
     (mazeWidth e) (mazeHeight e) (ballRadius e) cb (onWallHit e).

Definition setOnWallHit (cb : option nat) (e : t) : t :=
  mk (balls e) (gravity e) (paused e) (score e) (walls e) (exitZones e)
     (mazeWidth e) (mazeHeight e) (ballRadius e) (onBallExit e) cb.

(** [getScore()] *)
Definition getScore (e : t) : R := score e.

(** [allBallsExited()] *)
Definition allBallsExited (e : t) : bool :=
  forallb (fun ball => negb (Ball.active ball)) (balls e).

(** [getActiveBallCount()] *)
Definition getActiveBallCount (e : t) : nat :=
  length (filter Ball.active (balls e)).

(** [getBalls()] *)
Definition getBalls (e : t) : list Ball.t := balls e.

(** [isPaused()] *)
Definition isPaused (e : t) : bool := paused e.

(** [reset()] *)
Definition reset (e : t) : t :=
  mk [] (gravity e) false 0 [] [] (mazeWidth e) (mazeHeight e)
     (ballRadius e) (onBallExit e) (onWallHit e).

(** *** _handleWallCollisions *)

(** The closest point of the rectangle [wall] to [(px, py)]. *)
Definition closestX (wall : Rect.t) (px : R) : R :=
  Rmax (Rect.x wall) (Rmin px (Rect.x wall + Rect.width wall)).
Definition closestY (wall : Rect.t) (py : R) : R :=
  Rmax (Rect.y wall) (Rmin py (Rect.y wall + Rect.height wall)).

(** Distance from the centre of [ball] to the closest point of [wall]. *)
Definition wall_distance (wall : Rect.t) (ball : Ball.t) : R :=
  let distX := Ball.x ball - closestX wall (Ball.x ball) in
  let distY := Ball.y ball - closestY wall (Ball.y ball) in
  sqrt (distX * distX + distY * distY).

(** The body of [for (const wall of this.walls)].  The wall-hit callback
    only reads the ball and is left out. *)
Definition collide (prevX prevY : R) (ball : Ball.t) (wall : Rect.t) : Ball.t :=
  let distX := Ball.x ball - closestX wall (Ball.x ball) in
  let distY := Ball.y ball - closestY wall (Ball.y ball) in
  let distance := sqrt (distX * distX + distY * distY) in
  if Rlt_dec distance (Ball.radius ball) then
    let overlap := Ball.radius ball - distance in
    if Rlt_dec 0 distance then
      let nx := distX / distance in
      let ny := distY / distance in
      let ball := Ball.set_pos (Ball.x ball + nx * overlap)
                               (Ball.y ball + ny * overlap) ball in
      let dot := Ball.vx ball * nx + Ball.vy ball * ny in
      let vx' := Ball.vx ball - 2 * dot * nx * (1 - PHYSICS_CONFIG.bounceFactor) in
      let vy' := Ball.vy ball - 2 * dot * ny * (1 - PHYSICS_CONFIG.bounceFactor) in
      Ball.set_vel vx' vy' ball
    else
      let ball := Ball.set_pos prevX prevY ball in
      Ball.set_vel (Ball.vx ball * - PHYSICS_CONFIG.bounceFactor)
                   (Ball.vy ball * - PHYSICS_CONFIG.bounceFactor) ball
  else ball.

Definition _handleWallCollisions (e : t) (ball : Ball.t) (prevX prevY : R) : Ball.t :=
  fold_left (collide prevX prevY) (walls e) ball.

(** *** _handleBoundaries *)

Definition _handleBoundaries (e : t) (ball : Ball.t) : Ball.t :=
  let ball :=
    if Rlt_dec (Ball.x ball - Ball.radius ball) 0
    then Ball.set_vel (Rabs (Ball.vx ball) * PHYSICS_CONFIG.bounceFactor) (Ball.vy ball)
           (Ball.set_pos (Ball.radius ball) (Ball.y ball) ball)
    else ball in
  let ball :=
    if Rlt_dec (mazeWidth e) (Ball.x ball + Ball.radius ball)
    then Ball.set_vel (- Rabs (Ball.vx ball) * PHYSICS_CONFIG.bounceFactor) (Ball.vy ball)
           (Ball.set_pos (mazeWidth e - Ball.radius ball) (Ball.y ball) ball)
    else ball in
  if Rlt_dec (Ball.y ball - Ball.radius ball) 0
  then Ball.set_vel (Ball.vx ball) (Rabs (Ball.vy ball) * PHYSICS_CONFIG.bounceFactor)
         (Ball.set_pos (Ball.x ball) (Ball.radius ball) ball)
  else ball.

(** *** _checkExitZones *)

(** [ball.x >= zone.x && ball.x <= zone.x + zone.width] *)
Definition in_zone (px : R) (zone : ExitZone.t) : bool :=
  if Rge_dec px (ExitZone.x zone) then
    if Rle_dec px (ExitZone.x zone + ExitZone.width zone) then true else false
  else false.

(** The search loop with its [break]: the first zone, in list order,
    that contains [px]; [None] is [exitZone = null]. *)
Definition find_zone (zones : list ExitZone.t) (px : R) : option ExitZone.t :=
  find (in_zone px) zones.

(** [_checkExitZones(ball)]: the ball and the new [this.score].  The
    [setTimeout] callback that deactivates the ball 300 ms later is the
    separate transition [exit_timer] below. *)
Definition _checkExitZones (e : t) (sc : R) (ball : Ball.t) : Ball.t * R :=
  if Ball.exited ball then (ball, sc)
  else if Rlt_dec (mazeHeight e) (Ball.y ball) then
    match find_zone (exitZones e) (Ball.x ball) with
    | Some exitZone =>
        (Ball.set_exit (ExitZone.score exitZone) ball, sc + ExitZone.score exitZone)
    | None =>
        (Ball.set_exit 50 ball, sc + 50)
    end
  else (ball, sc).

(** *** update *)

Definition baseGravityY : R := 12 / 100.

(** "Clamp velocity" *)
Definition clamp_velocity (ball : Ball.t) : Ball.t :=
  let speed := Ball.getSpeed ball in
  if Rlt_dec PHYSICS_CONFIG.maxVelocity speed then
    let scale := PHYSICS_CONFIG.maxVelocity / speed in
    Ball.set_vel (Ball.vx ball * scale) (Ball.vy ball * scale) ball
  else ball.

(** "Apply velocity threshold" *)
Definition apply_threshold (ball : Ball.t) : Ball.t :=
  let ball :=
    if Rlt_dec (Rabs (Ball.vx ball)) PHYSICS_CONFIG.velocityThreshold
    then Ball.set_vel 0 (Ball.vy ball) ball else ball in
  if Rlt_dec (Rabs (Ball.vy ball)) PHYSICS_CONFIG.velocityThreshold
  then Ball.set_vel (Ball.vx ball) 0 ball else ball.

(** Velocity part of the loop body of [update]: gravity, controls,
    friction, clamp and threshold. *)
Definition accelerate (e : t) (ball : Ball.t) : Ball.t :=
  let vy1 := Ball.vy ball + baseGravityY in
  let vx2 := Ball.vx ball + fst (gravity e) * PHYSICS_CONFIG.gravityMultiplier in
  let vy2 := vy1 + snd (gravity e) * PHYSICS_CONFIG.gravityMultiplier in
  let ball := Ball.set_vel (vx2 * PHYSICS_CONFIG.friction)
                           (vy2 * PHYSICS_CONFIG.friction) ball in
  let ball := clamp_velocity ball in
  apply_threshold ball.

(** Motion part of the loop body: position update, wall collisions and
    boundaries. *)
Definition move (e : t) (ball : Ball.t) : Ball.t :=
  let prevX := Ball.x ball in
  let prevY := Ball.y ball in
  let ball := accelerate e ball in
  let ball := Ball.set_pos (Ball.x ball + Ball.vx ball)
                           (Ball.y ball + Ball.vy ball) ball in
  let ball := _handleWallCollisions e ball prevX prevY in
  _handleBoundaries e ball.

(** The loop body of [update] for one ball; [sc] is [this.score]. *)
Definition update_ball (e : t) (sc : R) (ball : Ball.t) : Ball.t * R :=
  if negb (Ball.active ball) then (ball, sc)
  else
    let ball := move e ball in
    let '(ball, sc) := _checkExitZones e sc ball in
    (Ball.updateTrail ball, sc).

(** [for (const ball of this.balls)] *)
Fixpoint update_balls (e : t) (sc : R) (bs : list Ball.t) : list Ball.t * R :=
  match bs with
  | [] => ([], sc)
  | ball :: rest =>
      let '(ball', sc') := update_ball e sc ball in
      let '(rest', sc'') := update_balls e sc' rest in
      (ball' :: rest', sc'')
  end.

(** [update()] *)
Definition update (e : t) : t :=
  if paused e then e
  else
    let '(bs, sc) := update_balls e (score e) (balls e) in
    mk bs (gravity e) (paused e) sc (walls e) (exitZones e)
       (mazeWidth e) (mazeHeight e) (ballRadius e) (onBallExit e) (onWallHit e).

(** The [setTimeout] callback of [_checkExitZones] for the ball at
    position [i]: it can only have been scheduled for a ball that has
    exited. *)
Definition exit_timer (i : nat) (e : t) : t :=
  let bs :=
    map (fun '(k, b) =>
           if (Nat.eqb k i) && Ball.exited b then Ball.set_active false b else b)
        (combine (seq 0 (length (balls e))) (balls e)) in
  mk bs (gravity e) (paused e) (score e) (walls e) (exitZones e)
     (mazeWidth e) (mazeHeight e) (ballRadius e) (onBallExit e) (onWallHit e).

(** The calls a client makes between [init] and the next [init]. *)
Inductive call : Type :=
| Update
| SetGravity (g : R * R)
| SetPaused (p : bool)
| ExitTimer (i : nat).

Definition exec (e : t) (c : call) : t :=
  match c with
  | Update => update e
  | SetGravity g => setGravity g e
  | SetPaused p => setPaused p e
  | ExitTimer i => exit_timer i e
  end.

Definition run (cs : list call) (e : t) : t := fold_left exec cs e.

(** Sum of [ball.score] over the balls with [exited == true]. *)
Definition exited_score (bs : list Ball.t) : R :=
  fold_right (fun b s => (if Ball.exited b then Ball.score b else 0) + s) 0 bs.

End PhysicsEngine.

(** ** game.js: Game *)

(** The game controller with the two singletons it drives,
    [window.MazeGenerator] and [window.PhysicsEngine].  The fields that
    only serve the display (frame times, FPS counter, score popups) and
    the calls to the DOM, the renderer and the controls are left out:
    none of them is read by the code below. *)
Module Game.
#[local] Open Scope R_scope.

(** [animationId] is [null] until the first frame of the game loop and
    then the handle of the frame requested last.  The code only tests it
    for truthiness and [requestAnimationFrame] returns positive handles,
    so the field is kept as a flag: [false] is [null]. *)
Record t : Type := mk
  { state : GAME_STATE;
    level : Z;
    score : R;
    totalScore : R;
    targetScore : R;
    animationId : bool;
    maze : MazeGenerator.t;
    physics : PhysicsEngine.t }.

Definition set_state (v : GAME_STATE) (g : t) : t :=
  mk v (level g) (score g) (totalScore g) (targetScore g) (animationId g)
     (maze g) (physics g).
Definition set_level (v : Z) (g : t) : t :=
  mk (state g) v (score g) (totalScore g) (targetScore g) (animationId g)
     (maze g) (physics g).
Definition set_score (v : R) (g : t) : t :=
  mk (state g) (level g) v (totalScore g) (targetScore g) (animationId g)
     (maze g) (physics g).
Definition set_totalScore (v : R) (g : t) : t :=
  mk (state g) (level g) (score g) v (targetScore g) (animationId g)
     (maze g) (physics g).
Definition set_targetScore (v : R) (g : t) : t :=
  mk (state g) (level g) (score g) (totalScore g) v (animationId g)
     (maze g) (physics g).
Definition set_animationId (v : bool) (g : t) : t :=
  mk (state g) (level g) (score g) (totalScore g) (targetScore g) v
     (maze g) (physics g).
Definition set_maze (v : MazeGenerator.t) (g : t) : t :=
  mk (state g) (level g) (score g) (totalScore g) (targetScore g) (animationId g)
     v (physics g).
Definition set_physics (v : PhysicsEngine.t) (g : t) : t :=
  mk (state g) (level g) (score g) (totalScore g) (targetScore g) (animationId g)
     (maze g) v.

(** [new Game()], beside a new generator seeded at time [now] and a new
    engine. *)
Definition constructor (now : Z) : t :=
  mk MENU 1 0 0 0 false (MazeGenerator.constructor now) PhysicsEngine.constructor.

(** The callback [(ball) => this._onBallExit(ball)] as registered with
    the engine. *)
Definition ballExitCallback : nat := 0%nat.

(** [_onLevelComplete()] *)
Definition _onLevelComplete (g : t) : t :=
  let g := set_score (PhysicsEngine.getScore (physics g)) g in
  let g := set_totalScore (totalScore g + score g) g in
  if Rge_dec (score g) (targetScore g) then
    match LEVEL_CONFIG.maxLevel with
    | Some maxLevel =>
        if maxLevel <=? level g then set_state GAME_COMPLETE g
        else set_state LEVEL_COMPLETE g
    | None => set_state LEVEL_COMPLETE g
    end
  else set_state LEVEL_FAILED g.

(** [_gameLoop()]: one frame; [gravity] is what
    [ControlsManager.getGravity()] returns.  The frame first requests
    the next one. *)
Definition _gameLoop (gravity : R * R) (g : t) : t :=
  let g := set_animationId true g in
  match state g with
  | PLAYING =>
      let p := PhysicsEngine.setGravity gravity (physics g) in
      let p := PhysicsEngine.update p in
      let g := set_physics p g in
      if PhysicsEngine.allBallsExited p then _onLevelComplete g else g
  | _ => g
  end.

(** [startLevel()]: [now] is what [Date.now()] returns inside
    [MazeGenerator.init], [canvasWidth] and [canvasHeight] what
    [Renderer.getDimensions()] returns.  When no frame has been
    requested yet the call runs the first frame of the game loop itself,
    with [gravity] what the controls return in that frame. *)
Definition startLevel (now : Z) (gravity : R * R) (canvasWidth canvasHeight : Q)
    (g : t) : result t :=
  let g := set_targetScore (getTargetScore (level g)) g in
  let g := set_score 0 g in
  let ballCount := getBallCount (level g) in
  match MazeGenerator.init now (level g) canvasWidth canvasHeight (maze g) with
  | Ok m =>
      let g := set_maze m g in
      let mazeDimensions := MazeGenerator.getDimensions m in
      let spawnPositions := MazeGenerator.getSpawnPositions ballCount m in
      let p :=
        PhysicsEngine.init spawnPositions
          (MazeGenerator.getWallRects m) (MazeGenerator.getExitZones m)
          (IZR (MazeGenerator.d_width mazeDimensions))
          (IZR (MazeGenerator.d_height mazeDimensions))
          (Some (IZR (MazeGenerator.d_ballRadius mazeDimensions)))
          (physics g) in
      let p := PhysicsEngine.setOnBallExit (Some ballExitCallback) p in
      let g := set_physics p g in
      let g := set_state PLAYING g in
      if animationId g then Ok g else Ok (_gameLoop gravity g)
  | TypeError => TypeError
  | OutOfFuel => OutOfFuel
  end.

(** [startGame()] *)
Definition startGame (now : Z) (gravity : R * R) (canvasWidth canvasHeight : Q)
    (g : t) : result t :=
  let g := set_level 1 g in
  let g := set_totalScore 0 g in
  startLevel now gravity canvasWidth canvasHeight g.

(** [_onBallExit(ball)] *)
Definition _onBallExit (g : t) : t :=
  set_score (PhysicsEngine.getScore (physics g)) g.

(** The timer that [_checkExitZones] sets for the ball at position [i]
    fires: the ball is deactivated and the registered callback runs. *)
Definition ballExitTimer (i : nat) (g : t) : t :=
  match nth_error (PhysicsEngine.balls (physics g)) i with
  | Some ball =>
      if Ball.exited ball then
        let g := set_physics (PhysicsEngine.exit_timer i (physics g)) g in
        match PhysicsEngine.onBallExit (physics g) with
        | Some _ => _onBallExit g
        | None => g
        end
      else g
  | None => g
  end.

(** [pauseGame()] *)
Definition pauseGame (g : t) : t :=
  match state g with
  | PLAYING =>
      let g := set_state PAUSED g in
      set_physics (PhysicsEngine.setPaused true (physics g)) g
  | _ => g
  end.

(** [resumeGame()] *)
Definition resumeGame (g : t) : t :=
  match state g with
  | PAUSED =>
      let g := set_state PLAYING g in
      set_physics (PhysicsEngine.setPaused false (physics g)) g
  | _ => g
  end.

(** [togglePause()] *)
Definition togglePause (g : t) : t :=
  match state g with
  | PLAYING => pauseGame g
  | PAUSED => resumeGame g
  | _ => g
  end.

(** [restartLevel()] *)
Definition restartLevel (now : Z) (gravity : R * R) (canvasWidth canvasHeight : Q)
    (g : t) : result t :=
  startLevel now gravity canvasWidth canvasHeight g.

(** [nextLevel()] *)
Definition nextLevel (now : Z) (gravity : R * R) (canvasWidth canvasHeight : Q)
    (g : t) : result t :=
  let g := set_level (level g + 1) g in
  startLevel now gravity canvasWidth canvasHeight g.

(** [restartGame()] *)
Definition restartGame (now : Z) (gravity : R * R) (canvasWidth canvasHeight : Q)
    (g : t) : result t :=
  startGame now gravity canvasWidth canvasHeight g.

End Game.

(** * Vocabulary of the properties *)

Module PhysicsSpec.
Import PhysicsEngine.
#[local] Open Scope R_scope.

(** [same_tags b b']: [b'] differs from [b] in position and velocity
    only. *)
Definition same_tags (b b' : Ball.t) : Prop :=
  Ball.radius b' = Ball.radius b /\ Ball.index b' = Ball.index b /\
  Ball.active b' = Ball.active b /\ Ball.exited b' = Ball.exited b /\
  Ball.score b' = Ball.score b /\ Ball.trail b' = Ball.trail b.

(** The horizontal span of [zone] contains [px], both ends included. *)
Definition contains (zone : ExitZone.t) (px : R) : Prop :=
  ExitZone.x zone <= px /\ px <= ExitZone.x zone + ExitZone.width zone.

(** [awarded zones px s]: [s] is the score of the first zone of the list
    whose span contains [px], or 50 when no zone does. *)
Inductive awarded (zones : list ExitZone.t) (px : R) : R -> Prop :=
| awarded_zone before zone after :
    zones = before ++ zone :: after ->
    Forall (fun z => ~ contains z px) before ->
    contains zone px ->
    awarded zones px (ExitZone.score zone)
| awarded_minimum :
    Forall (fun z => ~ contains z px) zones ->
    awarded zones px 50.

(** What one call of [update] may do to the exit state of a ball: [b] is
    the ball before the call, [b'] after it. *)
Definition exit_rule (e : t) (b b' : Ball.t) : Prop :=
  (Ball.active b = false -> b' = b) /\
  (Ball.active b = true -> Ball.exited b = true ->
   Ball.exited b' = true /\ Ball.score b' = Ball.score b) /\
  (Ball.active b = true -> Ball.exited b = false ->
   mazeHeight e < Ball.y (move e b) ->
   Ball.exited b' = true /\
   awarded (exitZones e) (Ball.x (move e b)) (Ball.score b')) /\
  (Ball.active b = true -> Ball.exited b = false ->
   ~ mazeHeight e < Ball.y (move e b) ->
   Ball.exited b' = false /\ Ball.score b' = Ball.score b).

(** Sum of the scores of the balls that are exited in [bs'] and were not
    in [bs]. *)
Fixpoint gained (bs bs' : list Ball.t) : R :=
  match bs, bs' with
  | b :: bs, b' :: bs' =>
      (if negb (Ball.exited b) && Ball.exited b' then Ball.score b' else 0)
      + gained bs bs'
  | _, _ => 0
  end.

(** The ball that [init] creates for the spawn position [(px, py)] with
    index [i]. *)
Definition fresh_ball (radius : R) (i : nat) (p : R * R) : Ball.t :=
  Ball.mk (fst p) (snd p) 0 0 radius i true false 0 [].

(** The ball was exited by the call and scored from one of the zones. *)
Definition scored_from (zones : list ExitZone.t) (b b' : Ball.t) : Prop :=
  Ball.exited b = false -> Ball.exited b' = true ->
  exists zone, In zone zones /\ Ball.score b' = ExitZone.score zone.

(** The square of the speed. *)
Definition speed2 (b : Ball.t) : R := Ball.vx b * Ball.vx b + Ball.vy b * Ball.vy b.

(** [sqrt(vx^2 + vy^2) <= maxVelocity] *)
Definition within_speed_limit (b : Ball.t) : Prop :=
  Ball.getSpeed b <= PHYSICS_CONFIG.maxVelocity.

(** A small level used to instantiate the theorems: two zones side by
    side under a 100 x 100 maze without walls, one ball of radius 5. *)
Definition sample_zones : list ExitZone.t :=
  [ ExitZone.mk 0 100 50 45 500 "#4ade80" "500" 1;
    ExitZone.mk 50 100 50 45 100 "#60a5fa" "100" 3 ].

Definition sample_engine : t :=
  init [(50, 98)] [] sample_zones 100 100 (Some 5) constructor.

(** A level with two walls 7.8 apart: [wall_A] lies below and to the
    left of the ball, its top right corner at (10, 20); [wall_B] is to the
    right, its left face at x = 17.8.  The ball of radius 5 starts at
    (12.7, 15.43), clear of both, and the controls pull down. *)
Definition wall_A : Rect.t := Rect.mk 0 20 10 20 true.
Definition wall_B : Rect.t := Rect.mk (178 / 10) 0 10 40 true.

Definition squeeze_engine : t :=
  setGravity (0, 11 / 10)
    (init [(127 / 10, 1543 / 100)] [wall_A; wall_B] [] 100 100 (Some 5) constructor).

(** The ball is at [(px, py)], with radius 5, active and not exited. *)
Definition placed (ball : Ball.t) (px py : R) : Prop :=
  Ball.x ball = px /\ Ball.y ball = py /\ Ball.radius ball = 5 /\
  Ball.active ball = true /\ Ball.exited ball = false.

(** The ball overlaps the wall: the distance from its centre to the
    closest point of the rectangle is less than its radius. *)
Definition overlaps (ball : Ball.t) (wall : Rect.t) : Prop :=
  wall_distance wall ball < Ball.radius ball.


(** Index and radius of a ball: what tells the balls of a level apart. *)
Definition identity (b : Ball.t) : nat * R := (Ball.index b, Ball.radius b).

(** The ball [b], at rest before, after one [update] in free fall
    without pull from the controls: 0.1164 lower, falling at that speed,
    its new position at the head of its trail. *)
Definition dropped (b : Ball.t) : Ball.t :=
  Ball.updateTrail
    (Ball.set_pos (Ball.x b) (Ball.y b + 1164 / 10000)
                  (Ball.set_vel 0 (1164 / 10000) b)).

(** The level of [sample_engine] with the ball just above the lower
    edge, on the line between the two zones: the next [update] takes it
    out of the maze. *)
Definition exit_engine : t :=
  init [(50, 9995 / 100)] [] sample_zones 100 100 (Some 5) constructor.

(** The ball of [exit_engine] after that [update]: 0.1164 lower, below
    the maze, exited with the 500 of the left zone and still active. *)
Definition left_ball : Ball.t :=
  Ball.mk 50 (1000664 / 10000) 0 (1164 / 10000) 5 0 true true 500
          [(50, 1000664 / 10000)].

End PhysicsSpec.

Module MazeSpec.
#[local] Open Scope Z_scope.

(** The grid has [rows] rows of [cols] cells. *)
Definition dims (g : Grid.t) (cols rows : Z) : Prop :=
  length g = Z.to_nat rows /\ Forall (fun row => length row = Z.to_nat cols) g.

(** The cell [(x, y)] exists and is not a Wall. *)
Definition opened (g : Grid.t) (x y : Z) : bool :=
  match Grid.get g x y with
  | Some c => negb (CellType_eqb c WALL)
  | None => false
  end.

(** [(x', y')] is one step up, right, down or left of [(x, y)]. *)
Definition adjacent (x y x' y' : Z) : Prop :=
  (x' = x /\ (y' = y - 1 \/ y' = y + 1)) \/ (y' = y /\ (x' = x - 1 \/ x' = x + 1)).

(** [connected g x y x' y']: a walk from [(x, y)] to [(x', y')] through
    orthogonally adjacent cells that are not Walls. *)
Inductive connected (g : Grid.t) (x y : Z) : Z -> Z -> Prop :=
| connected_here : opened g x y = true -> connected g x y x y
| connected_step x1 y1 x2 y2 :
    connected g x y x1 y1 -> adjacent x1 y1 x2 y2 -> opened g x2 y2 = true ->
    connected g x y x2 y2.

(** Every cell that is not a Wall can be reached from [(x, y)]. *)
Definition all_reachable_from (g : Grid.t) (x y : Z) : Prop :=
  forall x' y', opened g x' y' = true -> connected g x y x' y'.

(** [f 0 + ... + f (n - 1)] *)
Fixpoint sum_range (n : nat) (f : Z -> Z) : Z :=
  match n with
  | O => 0
  | S n' => sum_range n' f + f (Z.of_nat n')
  end.

(** Sum of [f x y] over the cells of a [cols] x [rows] grid. *)
Definition tally (cols rows : Z) (f : Z -> Z -> Z) : Z :=
  sum_range (Z.to_nat rows) (fun y => sum_range (Z.to_nat cols) (fun x => f x y)).

(** Number of cells that are not Walls. *)
Definition count_open (g : Grid.t) (cols rows : Z) : Z :=
  tally cols rows (fun x y => Z.b2z (opened g x y)).

(** Number of pairs of orthogonally adjacent cells that are both not
    Walls: each pair is counted at its left or upper cell. *)
Definition count_adjacent (g : Grid.t) (cols rows : Z) : Z :=
  tally cols rows
        (fun x y => Z.b2z (opened g x y && opened g (x + 1) y)
                    + Z.b2z (opened g x y && opened g x (y + 1))).

(** The non-Wall cells form a tree in the adjacency graph once they are
    connected: one adjacency less than cells. *)
Definition tree_count (g : Grid.t) (cols rows : Z) : Prop :=
  count_adjacent g cols rows + 1 = count_open g cols rows.

(** Inside the border of the grid. *)
Definition interior (cols rows x y : Z) : Prop :=
  0 < x < cols - 1 /\ 0 < y < rows - 1.

(** One carving: from the Path cell [(x, y)] at odd coordinates, in the
    direction [d], the cell two steps away is inside the border and still
    a Wall; the cell in between and that cell become Path. *)
Inductive carve_step (cols rows : Z) (g : Grid.t) : Grid.t -> Prop :=
| carve_step_intro x y d :
    Z.odd x = true -> Z.odd y = true -> In d DIRECTIONS ->
    Grid.get g x y = Some PATH ->
    interior cols rows (x + dx d * 2) (y + dy d * 2) ->
    Grid.get g (x + dx d * 2) (y + dy d * 2) = Some WALL ->
    carve_step cols rows g
      (Grid.set (Grid.set g (x + dx d) (y + dy d) PATH)
                (x + dx d * 2) (y + dy d * 2) PATH).

(** What every grid reached by carving from the cell [(rx, ry)] satisfies. *)
Record carved (cols rows rx ry : Z) (g : Grid.t) : Prop := mk_carved
  { carved_dims : dims g cols rows;
    carved_cells : forall x y c, Grid.get g x y = Some c -> c = WALL \/ c = PATH;
    carved_interior : forall x y, opened g x y = true -> interior cols rows x y;
    carved_parity : forall x y, opened g x y = true -> Z.odd x = true \/ Z.odd y = true;
    carved_passage_h :
      forall x y, opened g x y = true -> Z.even x = true ->
                  opened g (x - 1) y = true /\ opened g (x + 1) y = true;
    carved_passage_v :
      forall x y, opened g x y = true -> Z.even y = true ->
                  opened g x (y - 1) = true /\ opened g x (y + 1) = true;
    carved_root : opened g rx ry = true;
    carved_connected : all_reachable_from g rx ry;
    carved_tree : tree_count g cols rows }.

(** Every cell two steps from [(x, y)] and inside the border is open. *)
Definition closed_node (cols rows : Z) (g : Grid.t) (x y : Z) : Prop :=
  forall d, In d DIRECTIONS ->
            interior cols rows (x + dx d * 2) (y + dy d * 2) ->
            opened g (x + dx d * 2) (y + dy d * 2) = true.

(** The column where [_generateMaze] starts carving ([actualStartX]). *)
Definition start_column (cols : Z) : Z :=
  if Z.rem (cols / 2) 2 =? 0 then cols / 2 + 1 else cols / 2.

(** What [_carve(x, y)] needs from the generator [m]: a non-negative
    seed, odd coordinates inside the border of a Wall cell whose carving
    gives a grid reached by carving from [(rx, ry)], and a depth bound of
    at least the number of cells that are still Walls. *)
Definition carve_pre (cols rows rx ry : Z) (fuel : nat)
    (m : MazeGenerator.t) (x y : Z) : Prop :=
  MazeGenerator.cols m = cols /\ MazeGenerator.rows m = rows /\
  0 <= MazeGenerator.rng m /\
  Z.odd x = true /\ Z.odd y = true /\ interior cols rows x y /\
  opened (MazeGenerator.grid m) x y = false /\
  dims (MazeGenerator.grid m) cols rows /\
  carved cols rows rx ry (Grid.set (MazeGenerator.grid m) x y PATH) /\
  cols * rows - count_open (MazeGenerator.grid m) cols rows <= Z.of_nat fuel.

(** What it gives: the grid is reached by carvings from the grid with
    [(x, y)] made Path, and every cell at odd coordinates that the call
    opened has all its neighbours two steps away open. *)
Definition carve_post (cols rows : Z) (m : MazeGenerator.t) (x y : Z)
    (m' : MazeGenerator.t) : Prop :=
  MazeGenerator.cols m' = cols /\ MazeGenerator.rows m' = rows /\
  0 <= MazeGenerator.rng m' /\
  clos_refl_trans _ (carve_step cols rows)
                  (Grid.set (MazeGenerator.grid m) x y PATH) (MazeGenerator.grid m') /\
  (forall a b, Z.odd a = true -> Z.odd b = true ->
               opened (MazeGenerator.grid m) a b = false ->
               opened (MazeGenerator.grid m') a b = true ->
               closed_node cols rows (MazeGenerator.grid m') a b).

(** What holds of the generator while [_createEntryAndExits] opens the
    exits: [g0] is the carved grid, [rx] the column where carving started. *)
Definition exits_inv (cols rows : Z) (g0 : Grid.t) (rx : Z) (m : MazeGenerator.t)
  : Prop :=
  MazeGenerator.cols m = cols /\ MazeGenerator.rows m = rows /\
  dims (MazeGenerator.grid m) cols rows /\
  (forall a, Grid.get (MazeGenerator.grid m) a (rows - 2) = Grid.get g0 a (rows - 2)) /\
  all_reachable_from (MazeGenerator.grid m) rx 1 /\
  opened (MazeGenerator.grid m) rx 1 = true /\
  Grid.get (MazeGenerator.grid m) (cols / 2) 0 = Some ENTRY /\
  Forall (fun c => 1 <= c < cols - 1 /\
                   Grid.get g0 c (rows - 2) = Some PATH /\
                   Grid.get (MazeGenerator.grid m) c (rows - 1) = Some EXIT)
         (MazeGenerator.exitColumns m).

(** The fields that [_carve] reads and writes, and the others. *)
Definition core (m : MazeGenerator.t) : Grid.t * Z * Z * Z :=
  (MazeGenerator.grid m, MazeGenerator.cols m, MazeGenerator.rows m,
   MazeGenerator.rng m).

Definition frame (m : MazeGenerator.t) :=
  (MazeGenerator.cellSize m, MazeGenerator.wallThickness m, MazeGenerator.level m,
   MazeGenerator.exitZones m, MazeGenerator.wallRects m,
   MazeGenerator.entryX m, MazeGenerator.entryY m,
   MazeGenerator.width m, MazeGenerator.height m,
   MazeGenerator.exitColumns m,
   MazeGenerator.marginLeft m, MazeGenerator.marginTop m).

(** The fields two generators agree on after each step of [init],
    whatever they held before the call. *)
Definition view_a (m : MazeGenerator.t) :=
  (MazeGenerator.grid m, MazeGenerator.cols m, MazeGenerator.rows m,
   MazeGenerator.rng m, MazeGenerator.cellSize m, MazeGenerator.level m,
   MazeGenerator.width m, MazeGenerator.height m,
   MazeGenerator.marginLeft m, MazeGenerator.marginTop m).
Definition view_b (m : MazeGenerator.t) := (view_a m, MazeGenerator.exitColumns m).
Definition view_c (m : MazeGenerator.t) := (view_b m, MazeGenerator.exitZones m).
Definition view_d (m : MazeGenerator.t) := (view_c m, MazeGenerator.wallRects m).
Definition view_e (m : MazeGenerator.t) :=
  (view_d m, MazeGenerator.entryX m, MazeGenerator.entryY m).

(** The sizes of the maze. *)
Definition sizes (m : MazeGenerator.t) :=
  (MazeGenerator.cols m, MazeGenerator.rows m, MazeGenerator.cellSize m,
   MazeGenerator.width m, MazeGenerator.height m).

(** What a level is made of: the results of [init] that the renderer and
    the physics engine read. *)
Definition level_data (m : MazeGenerator.t) :=
  (MazeGenerator.grid m, MazeGenerator.exitColumns m,
   MazeGenerator.exitZones m, MazeGenerator.wallRects m,
   (MazeGenerator.cols m, MazeGenerator.rows m, MazeGenerator.cellSize m),
   (MazeGenerator.width m, MazeGenerator.height m),
   (MazeGenerator.entryX m, MazeGenerator.entryY m)).

(** Left edge, width and score of a zone. *)
Definition zone_geometry (z : ExitZone.t) : R * R * R :=
  (ExitZone.x z, ExitZone.width z, ExitZone.score z).

(** Five bands of width [w / 5] side by side from 0, with the scores
    500, 100, 1000, 0, 250 from left to right. *)
Definition five_bands (w : R) : list (R * R * R) :=
  [ (0 * (w / 5), w / 5, 500); (1 * (w / 5), w / 5, 100);
    (2 * (w / 5), w / 5, 1000); (3 * (w / 5), w / 5, 0);
    (4 * (w / 5), w / 5, 250) ]%R.

(** [zone.x <= p < zone.x + zone.width] *)
Definition covers (p : R) (band : R * R * R) : bool :=
  let '(zx, zw, _) := band in
  if Rle_dec zx p then (if Rlt_dec p (zx + zw) then true else false) else false.

(** The generator after [init] on a 360 x 380 canvas at level 1, if the
    call returns. *)
Definition small_canvas_level : result MazeGenerator.t :=
  MazeGenerator.init 42 1 (360 # 1) (380 # 1) (MazeGenerator.constructor 0).

(** A generator about to build a 9 x 9 maze from the seed 42. *)
Definition sample_generator : MazeGenerator.t :=
  MazeGenerator.mk [] 9 9 16 4 1 42 [] [] 0%R 0%R 144 144 [] None None.

(** Number of cells at odd coordinates that are not Walls: the cells
    that [_carve] visits. *)
Definition count_nodes (g : Grid.t) (cols rows : Z) : Z :=
  tally cols rows (fun x y => Z.b2z (Z.odd x && Z.odd y && opened g x y)).


(** The rectangles of the Wall cells of the grid, row by row. *)
Definition wall_cells (m : MazeGenerator.t) : list Rect.t :=
  flat_map
    (fun y =>
       flat_map
         (fun x =>
            if Grid.cell_is (MazeGenerator.grid m) x y WALL
            then [MazeGenerator.wall_rect m x y] else [])
         (range 0 (MazeGenerator.cols m)))
    (range 0 (MazeGenerator.rows m)).

(** The point [(px, py)] lies in the rectangle, its left and upper edges
    included, its right and lower edges not. *)
Definition in_rect (px py : R) (r : Rect.t) : Prop :=
  (Rect.x r <= px < Rect.x r + Rect.width r /\
   Rect.y r <= py < Rect.y r + Rect.height r)%R.

(** The point lies outside the [width] x [height] area of the maze. *)
Definition outside_maze (m : MazeGenerator.t) (px py : R) : Prop :=
  (px < 0 \/ IZR (MazeGenerator.cols m * MazeGenerator.cellSize m) <= px \/
   py < 0 \/ IZR (MazeGenerator.rows m * MazeGenerator.cellSize m) <= py)%R.

(** A generator with a 3 x 3 grid whose centre is a Path. *)
Definition small_generator : MazeGenerator.t :=
  MazeGenerator.mk [[WALL; WALL; WALL]; [WALL; PATH; WALL]; [WALL; WALL; WALL]]
                   3 3 20 4 1 42 [] [] 0%R 0%R 60 60 [] None None.



(** The cell [(x, y)] is on the outer border of the grid. *)
Definition on_border (cols rows x y : Z) : Prop :=
  x = 0 \/ x = cols - 1 \/ y = 0 \/ y = rows - 1.

End MazeSpec.

Module GameSpec.
#[local] Open Scope R_scope.

(** The game after the frames of the game loop with the gravity vectors
    [gravities], in order. *)
Definition frames (gravities : list (R * R)) (g : Game.t) : Game.t :=
  fold_left (fun g gravity => Game._gameLoop gravity g) gravities g.

(** The scores a ball can end a level with: 0 until it has left, then
    the score of a zone or the minimum of 50. *)
Definition level_scores : list R := [0; 50; 100; 250; 500; 1000].

(** A ball that has left the maze carries one of the scores of a
    level. *)
Definition scored (b : Ball.t) : Prop :=
  Ball.exited b = true -> In (Ball.score b) level_scores.

(** The game as [startLevel] leaves it when it sets the state: the
    level of the generator [m], built for the game [g], with its one
    ball. *)
Definition built_level (g : Game.t) (m : MazeGenerator.t) : Game.t :=
  Game.mk PLAYING (Game.level g) 0 (Game.totalScore g) 1000 (Game.animationId g) m
    (PhysicsEngine.setOnBallExit (Some Game.ballExitCallback)
       (PhysicsEngine.init (MazeGenerator.getSpawnPositions 1 m)
          (MazeGenerator.wallRects m) (MazeGenerator.exitZones m)
          (IZR (MazeGenerator.width m)) (IZR (MazeGenerator.height m))
          (Some (IZR (MazeGenerator.d_ballRadius (MazeGenerator.getDimensions m))))
          (Game.physics g))).

(** A game in play at level 1 whose loop runs, no points scored yet,
    with the level of [exit_engine] in its engine and the exit callback
    registered as [startLevel] does: the ball is about to leave. *)
Definition leaving_game : Game.t :=
  Game.mk PLAYING 1 0 0 1000 true (MazeGenerator.constructor 0)
          (PhysicsEngine.setOnBallExit (Some Game.ballExitCallback)
                                       PhysicsSpec.exit_engine).

(** [leaving_game] after the frame in which the ball leaves and after
    the exit timer of that ball. *)
Definition left_game : Game.t :=
  Game.ballExitTimer 0 (Game._gameLoop (0, 0) leaving_game).

End GameSpec.

(** * Properties of the physics engine *)

Module PhysicsProofs.
Import PhysicsEngine PhysicsSpec.
#[local] Open Scope R_scope.

(** ** What the motion step leaves alone *)

Lemma same_tags_refl b : same_tags b b.
Proof. repeat split. Qed.

Lemma same_tags_trans b1 b2 b3 :
  same_tags b1 b2 -> same_tags b2 b3 -> same_tags b1 b3.
Proof.
  unfold same_tags; intros H1 H2.
  decompose [and] H1; decompose [and] H2; repeat split; congruence.
Qed.

Lemma same_tags_set_pos b px py : same_tags b (Ball.set_pos px py b).
Proof. repeat split. Qed.

Lemma same_tags_set_vel b u v : same_tags b (Ball.set_vel u v b).
Proof. repeat split. Qed.

Ltac tags_step :=
  match goal with
  | |- same_tags ?b (if ?c then _ else _) => destruct c
  | |- same_tags ?b (Ball.set_vel _ _ ?b') =>
      apply same_tags_trans with b'; [ | apply same_tags_set_vel ]
  | |- same_tags ?b (Ball.set_pos _ _ ?b') =>
      apply same_tags_trans with b'; [ | apply same_tags_set_pos ]
  | |- same_tags ?b ?b => apply same_tags_refl
  end.

Lemma same_tags_accelerate e b : same_tags b (accelerate e b).
Proof.
  unfold accelerate, clamp_velocity, apply_threshold; cbv zeta; repeat tags_step.
Qed.

Lemma same_tags_collide px py b w : same_tags b (collide px py b w).
Proof. unfold collide; cbv zeta; repeat tags_step. Qed.

Lemma same_tags_fold_collide px py ws :
  forall b, same_tags b (fold_left (collide px py) ws b).
Proof.
  induction ws as [|w ws IH]; intros b; simpl.
  - apply same_tags_refl.
  - eapply same_tags_trans; [ apply same_tags_collide | apply IH ].
Qed.

Lemma same_tags_handleBoundaries e b : same_tags b (_handleBoundaries e b).
Proof. unfold _handleBoundaries; cbv zeta; repeat tags_step. Qed.

Lemma same_tags_move e b : same_tags b (move e b).
Proof.
  unfold move; cbv zeta.
  eapply same_tags_trans; [ | apply same_tags_handleBoundaries ].
  unfold _handleWallCollisions.
  eapply same_tags_trans; [ | apply same_tags_fold_collide ].
  eapply same_tags_trans; [ apply same_tags_accelerate | apply same_tags_set_pos ].
Qed.

(** ** The zone search *)

Lemma in_zone_true px z : in_zone px z = true <-> contains z px.
Proof.
  unfold in_zone, contains.
  destruct (Rge_dec px (ExitZone.x z)) as [H1|H1];
    [ destruct (Rle_dec px (ExitZone.x z + ExitZone.width z)) as [H2|H2] | ];
    split; intros H; try discriminate; try reflexivity; try lra.
Qed.

Lemma in_zone_false px z : in_zone px z = false <-> ~ contains z px.
Proof.
  rewrite <- in_zone_true. destruct (in_zone px z); split; congruence.
Qed.

Lemma find_zone_some zones px z :
  find_zone zones px = Some z ->
  exists before after,
    zones = before ++ z :: after /\
    Forall (fun z' => ~ contains z' px) before /\ contains z px.
Proof.
  unfold find_zone. induction zones as [|z0 zones IH]; simpl; [discriminate|].
  destruct (in_zone px z0) eqn:E.
  - intros [= <-]. exists [], zones. repeat split; [constructor | | ];
      apply in_zone_true in E; apply E.
  - intros H. destruct (IH H) as (before & after & -> & Hb & Hz).
    exists (z0 :: before), after. repeat split; try apply Hz.
    constructor; [ now apply in_zone_false | exact Hb ].
Qed.

Lemma find_zone_none zones px :
  find_zone zones px = None -> Forall (fun z => ~ contains z px) zones.
Proof.
  unfold find_zone. induction zones as [|z0 zones IH]; simpl; [constructor|].
  destruct (in_zone px z0) eqn:E; [discriminate|].
  intros H. constructor; [ now apply in_zone_false | now apply IH ].
Qed.

Lemma find_zone_first before z after px :
  Forall (fun z' => ~ contains z' px) before -> contains z px ->
  find_zone (before ++ z :: after) px = Some z.
Proof.
  unfold find_zone. induction 1 as [|z0 before H0 _ IH]; intros Hz; simpl.
  - apply in_zone_true in Hz. now rewrite Hz.
  - apply in_zone_false in H0. rewrite H0. now apply IH.
Qed.

(** ** Fresh balls *)

Lemma or_default_nonzero r d : r <> 0 -> or_default (Some r) d = r.
Proof.
  intros Hr. unfold or_default. destruct (Req_dec_T r 0); [ contradiction | reflexivity ].
Qed.

Lemma balls_init sp w z mw mh r e :
  balls (init sp w z mw mh r e)
  = map (fun '(i, p) => fresh_ball (or_default r PHYSICS_CONFIG.ballRadius) i p)
        (combine (seq 0 (length sp)) sp).
Proof.
  unfold init; simpl. apply map_ext. intros [i [px py]].
  unfold Ball.constructor, fresh_ball, or_default; simpl.
  destruct r as [r|].
  - destruct (Req_dec_T r 0) as [->|Hr].
    + destruct (Req_dec_T PHYSICS_CONFIG.ballRadius 0) as [H|H]; [ | reflexivity ].
      unfold PHYSICS_CONFIG.ballRadius in H. lra.
    + destruct (Req_dec_T r 0); [ contradiction | reflexivity ].
  - destruct (Req_dec_T PHYSICS_CONFIG.ballRadius 0) as [H|H]; [ | reflexivity ].
    unfold PHYSICS_CONFIG.ballRadius in H. lra.
Qed.

(** ** One ball *)

Lemma update_ball_rule e sc b b' sc' :
  update_ball e sc b = (b', sc') ->
  exit_rule e b b' /\
  sc' = sc + (if negb (Ball.exited b) && Ball.exited b' then Ball.score b' else 0).
Proof.
  unfold update_ball, exit_rule.
  destruct (Ball.active b) eqn:Ha; simpl.
  2:{ intros [= <- <-]. split.
      - repeat split; intros; congruence.
      - destruct (Ball.exited b); simpl; lra. }
  destruct (same_tags_move e b) as (_ & _ & _ & Hex & Hsc & _).
  unfold _checkExitZones. rewrite Hex.
  destruct (Ball.exited b) eqn:Hb.
  { intros [= <- <-]. simpl. rewrite Hex, Hsc. split; [ | lra ].
    repeat split; intros; congruence. }
  destruct (Rlt_dec (mazeHeight e) (Ball.y (move e b))) as [Hy|Hy].
  - destruct (find_zone (exitZones e) (Ball.x (move e b))) as [z|] eqn:Hz;
      intros [= <- <-]; simpl; (split; [ | lra ]);
      repeat split; intros; try congruence; try contradiction.
    + destruct (find_zone_some _ _ _ Hz) as (before & after & Heq & Hb' & Hc).
      econstructor; eassumption.
    + apply awarded_minimum. now apply find_zone_none.
  - intros [= <- <-]. simpl. rewrite Hex, Hsc. split; [ | lra ].
    repeat split; intros; try congruence; try contradiction.
Qed.

(** ** All balls *)

Lemma update_balls_rule e :
  forall bs sc bs' sc',
    update_balls e sc bs = (bs', sc') ->
    Forall2 (exit_rule e) bs bs' /\ sc' = sc + gained bs bs'.
Proof.
  induction bs as [|b bs IH]; intros sc bs' sc'; simpl.
  - intros [= <- <-]. split; [ constructor | lra ].
  - destruct (update_ball e sc b) as [b1 sc1] eqn:E1.
    destruct (update_balls e sc1 bs) as [bs1 sc2] eqn:E2.
    intros [= <- <-].
    apply update_ball_rule in E1. destruct E1 as [Hr ->].
    apply IH in E2. destruct E2 as [Hrs ->].
    split; [ constructor; assumption | simpl; lra ].
Qed.

Lemma update_unpaused e :
  paused e = false ->
  update_balls e (score e) (balls e) = (balls (update e), score (update e)).
Proof.
  intros Hp. unfold update. rewrite Hp.
  destruct (update_balls e (score e) (balls e)); reflexivity.
Qed.

(** ** A ball leaving the maze *)

Lemma exit_engine_eq :
  exit_engine
  = mk [fresh_ball 5 0 (50, 9995 / 100)] (0, 0) false 0 [] sample_zones 100 100
       (Some 5) None None.
Proof.
  unfold exit_engine, init. cbv zeta.
  cbn [length seq combine map]. unfold Ball.constructor.
  rewrite !(or_default_nonzero 5) by lra.
  reflexivity.
Qed.

(** Without pull from the controls a ball at rest gains the velocity
    0.12 * 0.97 = 0.1164 downwards. *)
Lemma rest_accelerate e b :
  gravity e = (0, 0) -> Ball.vx b = 0 -> Ball.vy b = 0 ->
  accelerate e b = Ball.set_vel 0 (1164 / 10000) b.
Proof.
  intros Hg Hvx Hvy. unfold accelerate. cbv zeta. rewrite Hg, Hvx, Hvy.
  cbn [fst snd].
  unfold baseGravityY, PHYSICS_CONFIG.gravityMultiplier, PHYSICS_CONFIG.friction.
  replace ((0 + 0 * (8 / 10)) * (97 / 100)) with 0 by lra.
  replace ((0 + 12 / 100 + 0 * (8 / 10)) * (97 / 100)) with (1164 / 10000) by lra.
  unfold clamp_velocity. cbv zeta.
  unfold Ball.getSpeed. cbn [Ball.vx Ball.vy Ball.set_vel].
  replace (0 * 0 + 1164 / 10000 * (1164 / 10000))
    with ((1164 / 10000) * (1164 / 10000)) by lra.
  rewrite sqrt_square by lra.
  unfold PHYSICS_CONFIG.maxVelocity.
  destruct (Rlt_dec 12 (1164 / 10000)); [ lra | ].
  unfold apply_threshold. cbv zeta. cbn [Ball.vx Ball.vy Ball.set_vel].
  unfold PHYSICS_CONFIG.velocityThreshold.
  rewrite Rabs_R0.
  destruct (Rlt_dec 0 (1 / 100)); [ | lra ].
  cbn [Ball.vx Ball.vy Ball.set_vel].
  rewrite (Rabs_pos_eq (1164 / 10000)) by lra.
  destruct (Rlt_dec (1164 / 10000) (1 / 100)); [ lra | ].
  reflexivity.
Qed.

(** The motion step of the ball of [exit_engine]. *)
Lemma exit_engine_move :
  move exit_engine (fresh_ball 5 0 (50, 9995 / 100))
  = Ball.mk 50 (1000664 / 10000) 0 (1164 / 10000) 5 0 true false 0 [].
Proof.
  unfold move. cbv zeta.
  rewrite rest_accelerate by (rewrite ?exit_engine_eq; reflexivity).
  rewrite exit_engine_eq at 1 2.
  unfold _handleWallCollisions. cbn [walls fold_left].
  unfold _handleBoundaries. cbv zeta. cbn [mazeWidth].
  repeat match goal with
         | |- context [Rlt_dec ?a ?c] => destruct (Rlt_dec a c)
         end;
    cbn [Ball.x Ball.y Ball.vx Ball.vy Ball.radius Ball.set_vel Ball.set_pos
         fresh_ball fst snd] in *;
    try (exfalso; lra).
  unfold Ball.set_pos, Ball.set_vel, fresh_ball.
  cbn [Ball.x Ball.y Ball.vx Ball.vy Ball.radius Ball.index Ball.active Ball.exited
       Ball.score Ball.trail fst snd].
  f_equal; lra.
Qed.

Lemma exit_engine_update_ball :
  update_ball exit_engine 0 (fresh_ball 5 0 (50, 9995 / 100)) = (left_ball, 500).
Proof.
  unfold update_ball. cbn [Ball.active fresh_ball negb].
  rewrite exit_engine_move.
  unfold _checkExitZones. cbn [Ball.exited Ball.x Ball.y].
  rewrite exit_engine_eq. cbn [mazeHeight exitZones].
  destruct (Rlt_dec 100 (1000664 / 10000)); [ | lra ].
  unfold find_zone, sample_zones. cbn [find].
  unfold in_zone at 1. cbn [ExitZone.x ExitZone.width].
  destruct (Rge_dec 50 0); [ | lra ].
  destruct (Rle_dec 50 (0 + 50)); [ | lra ].
  cbn [ExitZone.score]. unfold left_ball, Ball.updateTrail, Ball.set_exit.
  cbn [Ball.x Ball.y Ball.vx Ball.vy Ball.radius Ball.index Ball.active Ball.exited
       Ball.score Ball.trail Ball.set_trail firstn VISUAL_CONFIG.trailLength].
  f_equal. lra.
Qed.

(** One [update] takes the ball of [exit_engine] out of the maze through
    the left zone. *)
Lemma exit_engine_update :
  update exit_engine
  = mk [left_ball] (0, 0) false 500 [] sample_zones 100 100 (Some 5) None None.
Proof.
  unfold update. rewrite exit_engine_eq at 1. cbn [paused].
  rewrite exit_engine_eq at 2 3. cbn [score balls update_balls].
  rewrite exit_engine_update_ball.
  rewrite exit_engine_eq. reflexivity.
Qed.

(** What [exit_rule] leaves open is settled by the numbers of
    [exit_engine]: the zone on the left of the line [x = 50] wins. *)
Lemma exit_engine_rule bs' :
  Forall2 (exit_rule exit_engine) (balls exit_engine) bs' ->
  map Ball.exited bs' = [true] /\ map Ball.score bs' = [500] /\
  gained (balls exit_engine) bs' = 500.
Proof.
  rewrite exit_engine_eq at 2 3. cbn [balls].
  intros H. inversion H as [|b0 b' l l' Hr Hrest]; subst.
  inversion Hrest; subst.
  destruct Hr as (_ & _ & Hy & _).
  destruct (Hy eq_refl eq_refl) as [He Ha].
  { rewrite exit_engine_move, exit_engine_eq. cbn [mazeHeight Ball.y]. lra. }
  rewrite exit_engine_move, exit_engine_eq in Ha. cbn [exitZones Ball.x] in Ha.
  assert (Hs : Ball.score b' = 500).
  { inversion Ha as [before zone after Heq Hb Hc | Hnone].
    - destruct before as [|z0 before].
      + injection Heq as <- _. reflexivity.
      + injection Heq as <- _. inversion Hb as [|? ? Hn _]; subst.
        exfalso. apply Hn. unfold contains. cbn [ExitZone.x ExitZone.width]. lra.
    - inversion Hnone as [|? ? Hn _]; subst.
      exfalso. apply Hn. unfold contains. cbn [ExitZone.x ExitZone.width]. lra. }
  cbn [map gained fresh_ball Ball.exited negb andb]. rewrite He, Hs.
  repeat split. lra.
Qed.

(** ** C3 *)

(** C3.  In a call of [update] on an engine that is not paused, every
    active ball that was not yet exited and whose position after the
    motion step is below the maze ([y > mazeHeight]) becomes exited, with
    the score of the first exit zone, in list order, whose span
    [zone.x <= x <= zone.x + zone.width] contains its [x], or 50 when no
    zone does; every other ball keeps its exit flag and score, so an
    exited ball is not scored again; the scores awarded in the call are
    added to the total of the engine in the same call; and where two zones
    share a boundary the one that comes first in the list wins. *)
Theorem exit_scoring (e : t) :
  paused e = false ->
  Forall2 (exit_rule e) (balls e) (balls (update e)) /\
  score (update e) = score e + gained (balls e) (balls (update e)) /\
  (forall before left right after,
     exitZones e = before ++ left :: right :: after ->
     Forall (fun z => ~ contains z (ExitZone.x right)) before ->
     ExitZone.x left <= ExitZone.x right ->
     ExitZone.x left + ExitZone.width left = ExitZone.x right ->
     find_zone (exitZones e) (ExitZone.x right) = Some left).
Proof.
  intros Hp. pose proof (update_unpaused e Hp) as Hu.
  apply update_balls_rule in Hu. destruct Hu as [H1 H2].
  split; [ exact H1 | split; [ exact H2 | ] ].
  intros before zl zr after -> Hb Hle Heq.
  apply find_zone_first; [ exact Hb | ].
  unfold contains. lra.
Qed.

Lemma exit_scoring_witness :
  map Ball.exited (balls exit_engine) = [false] /\
  map Ball.exited (balls (update exit_engine)) = [true] /\
  map Ball.score (balls (update exit_engine)) = [500] /\
  score (update exit_engine) = score exit_engine + 500 /\
  find_zone (exitZones exit_engine) 50
  = Some (ExitZone.mk 0 100 50 45 500 "#4ade80" "500" 1).
Proof.
  destruct (exit_scoring exit_engine eq_refl) as (Hrule & Hscore & Hline).
  destruct (exit_engine_rule _ Hrule) as (He & Hs & Hg).
  split; [ reflexivity | ].
  split; [ exact He | ]. split; [ exact Hs | ].
  split; [ rewrite Hscore, Hg; reflexivity | ].
  apply (Hline [] (ExitZone.mk 0 100 50 45 500 "#4ade80" "500" 1)
               (ExitZone.mk 50 100 50 45 100 "#60a5fa" "100" 3) []).
  - reflexivity.
  - apply Forall_nil.
  - cbn [ExitZone.x]. lra.
  - cbn [ExitZone.x ExitZone.width]. lra.
Defined.

(** ** Reachable states *)

Lemma Forall_fresh (P : Ball.t -> Prop) radius :
  (forall i p, P (fresh_ball radius i p)) ->
  forall sp k,
    Forall P (map (fun '(i, p) => fresh_ball radius i p) (combine (seq k (length sp)) sp)).
Proof.
  intros HP. induction sp as [|p sp IH]; intros k; simpl; constructor.
  - apply HP.
  - apply IH.
Qed.

(** An invariant of the balls and the score that holds after [init] and
    is kept by every call holds in every reachable state. *)
Lemma run_invariant (I : t -> Prop) :
  (forall e c, I e -> I (exec e c)) ->
  forall cs e, I e -> I (run cs e).
Proof.
  intros Hstep. unfold run. induction cs as [|c cs IH]; intros e He; simpl.
  - exact He.
  - apply IH, Hstep, He.
Qed.

(** ** C4 *)

Lemma exited_score_fresh radius sp :
  forall k,
    exited_score (map (fun '(i, p) => fresh_ball radius i p)
                      (combine (seq k (length sp)) sp)) = 0.
Proof.
  induction sp as [|p sp IH]; intros k; simpl; [ reflexivity | ].
  rewrite IH. lra.
Qed.

Lemma exited_score_update e :
  forall bs sc bs' sc',
    update_balls e sc bs = (bs', sc') ->
    sc' - exited_score bs' = sc - exited_score bs.
Proof.
  induction bs as [|b bs IH]; intros sc bs' sc'; simpl.
  - intros [= <- <-]. reflexivity.
  - destruct (update_ball e sc b) as [b1 sc1] eqn:E1.
    destruct (update_balls e sc1 bs) as [bs1 sc2] eqn:E2.
    intros [= <- <-]. simpl.
    apply IH in E2.
    pose proof (update_ball_rule _ _ _ _ _ E1) as [(Hi & Hx & Hy & Hn) ->].
    destruct (Ball.active b) eqn:Ha.
    + destruct (Ball.exited b) eqn:Hb.
      * destruct (Hx eq_refl eq_refl) as [H1 H2].
        rewrite H1, H2 in *. simpl in *. lra.
      * destruct (Rlt_dec (mazeHeight e) (Ball.y (move e b))) as [H|H].
        -- destruct (Hy eq_refl eq_refl H) as [H1 _].
           rewrite H1 in *. simpl in *. lra.
        -- destruct (Hn eq_refl eq_refl H) as [H1 _].
           rewrite H1 in *. simpl in *. lra.
    + rewrite (Hi eq_refl) in *.
      destruct (Ball.exited b); simpl in *; lra.
Qed.

Lemma exited_score_timer i :
  forall bs k,
    exited_score
      (map (fun '(j, b) =>
              if (Nat.eqb j i) && Ball.exited b then Ball.set_active false b else b)
           (combine (seq k (length bs)) bs))
    = exited_score bs.
Proof.
  induction bs as [|b bs IH]; intros k; simpl; [ reflexivity | ].
  rewrite IH. destruct (Nat.eqb k i && Ball.exited b); reflexivity.
Qed.

Lemma score_invariant_step e c :
  score e = exited_score (balls e) ->
  score (exec e c) = exited_score (balls (exec e c)).
Proof.
  intros He. destruct c as [ | g | p | i ]; simpl; try exact He.
  - unfold update. destruct (paused e); [ exact He | ].
    destruct (update_balls e (score e) (balls e)) as [bs sc] eqn:E; simpl.
    apply exited_score_update in E. lra.
  - rewrite exited_score_timer. exact He.
Qed.

(** C4.  In every state reached from [init] by calls of [update],
    [setGravity] and [setPaused] (and by the deferred callbacks that
    deactivate exited balls), [getScore()] is the sum of [ball.score] over
    the balls with [exited == true]. *)
Theorem score_conservation sp w z mw mh r e0 cs :
  getScore (run cs (init sp w z mw mh r e0))
  = exited_score (balls (run cs (init sp w z mw mh r e0))).
Proof.
  unfold getScore.
  apply (run_invariant (fun e => score e = exited_score (balls e))).
  - intros e c. apply score_invariant_step.
  - rewrite balls_init, exited_score_fresh. reflexivity.
Qed.

(** ** C7 *)

(** C7, as the code has it.  [init] replaces the balls, the score, the
    walls, the exit zones, the maze size and the default radius, and
    leaves the gravity vector and the two callbacks as they were.  It
    creates one ball per spawn position, in order, at that position,
    with index its rank, radius [ballRadius || 10] (the given radius
    unless it is missing or 0), zero velocity, [active], not [exited],
    score 0 and an empty trail. *)
Theorem init_effect sp w z mw mh r e :
  let e' := init sp w z mw mh r e in
  let radius := or_default r PHYSICS_CONFIG.ballRadius in
  score e' = 0 /\ walls e' = w /\ exitZones e' = z /\
  mazeWidth e' = mw /\ mazeHeight e' = mh /\ ballRadius e' = Some radius /\
  gravity e' = gravity e /\
  onBallExit e' = onBallExit e /\ onWallHit e' = onWallHit e /\
  map (fun b => (Ball.x b, Ball.y b)) (balls e') = sp /\
  map Ball.index (balls e') = seq 0 (length sp) /\
  Forall (fun b => Ball.radius b = radius /\ Ball.vx b = 0 /\ Ball.vy b = 0 /\
                   Ball.active b = true /\ Ball.exited b = false /\
                   Ball.score b = 0 /\ Ball.trail b = [])
         (balls e').
Proof.
  cbv zeta. rewrite balls_init.
  repeat (split; [ reflexivity | ]).
  generalize 0%nat. generalize (or_default r PHYSICS_CONFIG.ballRadius) as rad.
  intros rad. induction sp as [|[px py] sp IH]; intros k; simpl.
  - repeat split; constructor.
  - destruct (IH (S k)) as (H1 & H2 & H3).
    rewrite H1, H2. repeat split. constructor; [ repeat split | exact H3 ].
Qed.

(** C7 fails as stated: an engine whose gravity was set and that has an
    exit callback registered keeps both through [init], so its state is
    not that of a freshly constructed engine holding the same level,
    whose gravity is [{0, 0}] and whose callbacks are [null]. *)
Lemma init_keeps_gravity_and_callbacks :
  let args e := init [(50, 98)] [] sample_zones 100 100 (Some 5) e in
  let used := setOnBallExit (Some 0%nat) (setGravity (1, 0) constructor) in
  gravity (args used) = (1, 0) /\ gravity (args constructor) = (0, 0) /\
  onBallExit (args used) = Some 0%nat /\ onBallExit (args constructor) = None /\
  args used <> args constructor.
Proof.
  cbv zeta. repeat (split; [ reflexivity | ]).
  intros H. apply (f_equal onBallExit) in H. discriminate H.
Qed.

(** ** C5 *)

Lemma speed2_nonneg b : 0 <= speed2 b.
Proof. unfold speed2. nra. Qed.

Lemma sqrt_le_iff s m : 0 <= s -> 0 <= m -> (sqrt s <= m <-> s <= m * m).
Proof.
  intros Hs Hm. split; intros H.
  - rewrite <- (sqrt_sqrt s Hs). pose proof (sqrt_pos s). nra.
  - rewrite <- (sqrt_square m Hm). apply sqrt_le_1_alt. exact H.
Qed.

Lemma within_speed_limit_iff b : within_speed_limit b <-> speed2 b <= 144.
Proof.
  unfold within_speed_limit, Ball.getSpeed, PHYSICS_CONFIG.maxVelocity.
  fold (speed2 b). rewrite sqrt_le_iff by (try apply speed2_nonneg; lra).
  split; lra.
Qed.

Lemma Rabs_square x : Rabs x * Rabs x = x * x.
Proof. unfold Rabs. destruct (Rcase_abs x); ring. Qed.

(** The clamp leaves a velocity of magnitude exactly [maxVelocity], in
    the direction it had. *)
Lemma clamp_speed2 u v :
  PHYSICS_CONFIG.maxVelocity < sqrt (u * u + v * v) ->
  0 < PHYSICS_CONFIG.maxVelocity / sqrt (u * u + v * v) /\
  (u * (PHYSICS_CONFIG.maxVelocity / sqrt (u * u + v * v)))
  * (u * (PHYSICS_CONFIG.maxVelocity / sqrt (u * u + v * v)))
  + (v * (PHYSICS_CONFIG.maxVelocity / sqrt (u * u + v * v)))
    * (v * (PHYSICS_CONFIG.maxVelocity / sqrt (u * u + v * v))) = 144.
Proof.
  unfold PHYSICS_CONFIG.maxVelocity.
  set (speed := sqrt (u * u + v * v)). intros Hs.
  assert (Hpos : 0 < speed) by lra.
  assert (Hsq : speed * speed = u * u + v * v) by (apply sqrt_sqrt; nra).
  split.
  - apply Rdiv_lt_0_compat; lra.
  - replace (u * (12 / speed) * (u * (12 / speed)) + v * (12 / speed) * (v * (12 / speed)))
      with (144 * (u * u + v * v) / (speed * speed)) by (field; lra).
    rewrite <- Hsq. field. lra.
Qed.

Lemma clamp_velocity_speed2 b : speed2 (clamp_velocity b) <= 144.
Proof.
  unfold clamp_velocity; cbv zeta.
  destruct (Rlt_dec PHYSICS_CONFIG.maxVelocity (Ball.getSpeed b)) as [Hs|Hs].
  - unfold speed2, Ball.getSpeed in *; simpl.
    destruct (clamp_speed2 _ _ Hs) as [_ Hc]. rewrite Hc. lra.
  - apply within_speed_limit_iff. unfold within_speed_limit. lra.
Qed.

Lemma apply_threshold_speed2 b : speed2 (apply_threshold b) <= speed2 b.
Proof.
  unfold apply_threshold, speed2; cbv zeta.
  destruct (Rlt_dec (Rabs (Ball.vx b)) _); simpl;
    destruct (Rlt_dec (Rabs _) _); simpl; nra.
Qed.

Lemma accelerate_speed2 e b : speed2 (accelerate e b) <= 144.
Proof.
  unfold accelerate; cbv zeta.
  eapply Rle_trans; [ apply apply_threshold_speed2 | apply clamp_velocity_speed2 ].
Qed.

Lemma collide_speed2 px py b w : speed2 (collide px py b w) <= speed2 b.
Proof.
  unfold collide; cbv zeta.
  set (dX := Ball.x b - closestX w (Ball.x b)).
  set (dY := Ball.y b - closestY w (Ball.y b)).
  set (d := sqrt (dX * dX + dY * dY)).
  destruct (Rlt_dec d (Ball.radius b)) as [Hr|Hr]; [ | lra ].
  destruct (Rlt_dec 0 d) as [Hd|Hd]; unfold speed2; simpl;
    unfold PHYSICS_CONFIG.bounceFactor.
  - assert (Hsq : d * d = dX * dX + dY * dY) by (apply sqrt_sqrt; nra).
    set (nx := dX / d). set (ny := dY / d).
    assert (Hn : nx * nx + ny * ny = 1).
    { unfold nx, ny.
      replace (dX / d * (dX / d) + dY / d * (dY / d))
        with ((dX * dX + dY * dY) / (d * d)) by (field; lra).
      rewrite <- Hsq. field. lra. }
    set (u := Ball.vx b). set (v := Ball.vy b).
    set (dot := u * nx + v * ny).
    replace ((u - 2 * dot * nx * (1 - 3 / 10)) * (u - 2 * dot * nx * (1 - 3 / 10))
             + (v - 2 * dot * ny * (1 - 3 / 10)) * (v - 2 * dot * ny * (1 - 3 / 10)))
      with (u * u + v * v - (14 / 5) * dot * (u * nx + v * ny)
            + (49 / 25) * dot * dot * (nx * nx + ny * ny)) by field.
    rewrite Hn. fold dot. nra.
  - nra.
Qed.

Lemma fold_collide_speed2 px py ws :
  forall b, speed2 (fold_left (collide px py) ws b) <= speed2 b.
Proof.
  induction ws as [|w ws IH]; intros b; simpl; [ lra | ].
  eapply Rle_trans; [ apply IH | apply collide_speed2 ].
Qed.

Lemma handleBoundaries_speed2 e b : speed2 (_handleBoundaries e b) <= speed2 b.
Proof.
  unfold _handleBoundaries, speed2, PHYSICS_CONFIG.bounceFactor; cbv zeta.
  pose proof (Rabs_square (Ball.vx b)) as Hx.
  pose proof (Rabs_square (Ball.vy b)) as Hy.
  destruct (Rlt_dec (Ball.x b - Ball.radius b) 0); simpl;
    destruct (Rlt_dec (mazeWidth e) _); simpl;
    destruct (Rlt_dec _ 0); simpl;
    repeat rewrite Rabs_mult; repeat rewrite Rabs_Rabsolu;
    rewrite ?(Rabs_pos_eq (3 / 10)) by lra; nra.
Qed.

Lemma move_speed2 e b : speed2 (move e b) <= 144.
Proof.
  unfold move; cbv zeta.
  eapply Rle_trans; [ apply handleBoundaries_speed2 | ].
  unfold _handleWallCollisions.
  eapply Rle_trans; [ apply fold_collide_speed2 | ].
  apply (accelerate_speed2 e b).
Qed.

Lemma update_ball_speed e sc b :
  (Ball.active b = true \/ within_speed_limit b) ->
  within_speed_limit (fst (update_ball e sc b)).
Proof.
  intros H. unfold update_ball.
  destruct (Ball.active b) eqn:Ha; simpl.
  - pose proof (move_speed2 e b) as Hm.
    unfold _checkExitZones.
    destruct (Ball.exited (move e b)); [ | destruct (Rlt_dec _ _);
      [ destruct (find_zone _ _) | ] ]; simpl;
      apply within_speed_limit_iff; exact Hm.
  - destruct H as [H|H]; [ discriminate | exact H ].
Qed.

Lemma update_balls_speed e :
  forall bs sc,
    Forall (fun b => Ball.active b = true \/ within_speed_limit b) bs ->
    Forall within_speed_limit (fst (update_balls e sc bs)).
Proof.
  induction bs as [|b bs IH]; intros sc Hbs; simpl; [ constructor | ].
  inversion Hbs as [|? ? Hb Hrest]; subst.
  pose proof (update_ball_speed e sc b Hb) as H1.
  destruct (update_ball e sc b) as [b1 sc1].
  specialize (IH sc1 Hrest).
  destruct (update_balls e sc1 bs) as [bs1 sc2]. simpl in *.
  constructor; assumption.
Qed.

Lemma speed_invariant_step e c :
  Forall within_speed_limit (balls e) ->
  Forall within_speed_limit (balls (exec e c)).
Proof.
  intros He. destruct c as [ | g | p | i ]; simpl; try exact He.
  - unfold update. destruct (paused e); [ exact He | ].
    pose proof (update_balls_speed e (balls e) (score e)) as H.
    destruct (update_balls e (score e) (balls e)) as [bs sc]; simpl in *.
    apply H. eapply Forall_impl; [ | exact He ]. intros b Hb. right. exact Hb.
  - generalize 0%nat. induction He as [|b bs Hb Hbs IH]; intros k; simpl;
      constructor.
    + destruct (Nat.eqb k i && Ball.exited b); exact Hb.
    + apply IH.
Qed.

(** C5.  Every ball of every state reached from [init] has
    [sqrt(vx^2 + vy^2) <= maxVelocity]; and one call of [update] on an
    engine that is not paused brings every active ball within the limit
    whatever its velocity was: the clamp leaves the magnitude at
    [maxVelocity] (both components scaled by the same positive factor),
    and the threshold, the wall collisions (bounce factor 0.3) and the
    boundary bounces do not increase it. *)
Theorem velocity_clamp :
  (forall sp w z mw mh r e0 cs,
     Forall within_speed_limit (balls (run cs (init sp w z mw mh r e0)))) /\
  (forall e,
     paused e = false ->
     Forall (fun b => Ball.active b = true -> within_speed_limit b)
            (balls (update e))).
Proof.
  split.
  - intros. apply (run_invariant (fun e => Forall within_speed_limit (balls e))).
    + intros e c. apply speed_invariant_step.
    + rewrite balls_init. apply Forall_fresh. intros i p.
      apply within_speed_limit_iff. unfold speed2; simpl. lra.
  - intros e Hp. unfold update. rewrite Hp.
    destruct (update_balls e (score e) (balls e)) as [bs sc] eqn:E; simpl.
    revert bs sc E. generalize (score e).
    induction (balls e) as [|b bs0 IH]; intros sc0 bs sc; simpl.
    + intros [= <- <-]. constructor.
    + destruct (update_ball e sc0 b) as [b1 sc1] eqn:E1.
      destruct (update_balls e sc1 bs0) as [bs1 sc2] eqn:E2.
      intros [= <- <-]. constructor; [ | eapply IH; exact E2 ].
      intros Ha. 
      assert (Hb : Ball.active b = true).
      { unfold update_ball in E1. destruct (Ball.active b) eqn:Hab; [ reflexivity | ].
        simpl in E1. injection E1 as <- <-. congruence. }
      pose proof (update_ball_speed e sc0 b (or_introl Hb)) as H.
      rewrite E1 in H. exact H.
Qed.

Lemma velocity_clamp_witness :
  Forall within_speed_limit (balls (run [Update] sample_engine)) /\
  Forall (fun b => Ball.active b = true -> within_speed_limit b)
         (balls (update sample_engine)).
Proof.
  split.
  - apply (proj1 velocity_clamp [(50, 98)] [] sample_zones 100 100 (Some 5)
                 constructor [Update]).
  - apply (proj2 velocity_clamp sample_engine). reflexivity.
Defined.

(** ** C6 *)

(** Moving a point away from its projection on an interval does not
    change the projection. *)
Lemma clamp_push lo hi p k :
  0 <= k ->
  let c := Rmax lo (Rmin p hi) in
  let p' := p + (p - c) * k in
  p' - Rmax lo (Rmin p' hi) = (p - c) * (1 + k).
Proof.
  intros Hk. cbv zeta.
  set (c := Rmax lo (Rmin p hi)).
  replace ((p - c) * (1 + k)) with ((p - c) + (p - c) * k) by ring.
  assert (Hq : (0 <= p - c -> 0 <= (p - c) * k) /\ (p - c <= 0 -> (p - c) * k <= 0))
    by (split; intros; nra).
  revert Hq. generalize ((p - c) * k) as q. intros q.
  unfold c, Rmax, Rmin.
  destruct (Rle_dec p hi); destruct (Rle_dec lo _);
    repeat match goal with
           | |- context [Rle_dec ?a ?b] => destruct (Rle_dec a b)
           end;
    repeat match goal with
           | H : context [Rle_dec ?a ?b] |- _ => destruct (Rle_dec a b)
           end; lra.
Qed.

Lemma sqrt_scale a b s :
  0 <= s -> sqrt ((a * s) * (a * s) + (b * s) * (b * s)) = sqrt (a * a + b * b) * s.
Proof.
  intros Hs.
  replace ((a * s) * (a * s) + (b * s) * (b * s)) with ((a * a + b * b) * (s * s)) by ring.
  rewrite sqrt_mult by nra. rewrite sqrt_square by exact Hs. reflexivity.
Qed.

(** The push of [collide] puts the centre at distance exactly [radius]. *)
Lemma collide_push px py b w :
  0 < wall_distance w b -> wall_distance w b < Ball.radius b ->
  wall_distance w (collide px py b w) = Ball.radius b.
Proof.
  unfold wall_distance, collide; cbv zeta.
  set (dX := Ball.x b - closestX w (Ball.x b)).
  set (dY := Ball.y b - closestY w (Ball.y b)).
  set (d := sqrt (dX * dX + dY * dY)).
  intros Hd Hr.
  destruct (Rlt_dec d (Ball.radius b)); [ | contradiction ].
  destruct (Rlt_dec 0 d); [ | contradiction ].
  simpl.
  set (k := (Ball.radius b - d) / d).
  assert (Hk : 0 <= k).
  { unfold k. apply Rlt_le, Rdiv_lt_0_compat; lra. }
  replace (dX / d * (Ball.radius b - d)) with (dX * k) by (unfold k; field; lra).
  replace (dY / d * (Ball.radius b - d)) with (dY * k) by (unfold k; field; lra).
  unfold dX, dY, closestX, closestY.
  rewrite (clamp_push (Rect.x w) (Rect.x w + Rect.width w) (Ball.x b) k Hk).
  rewrite (clamp_push (Rect.y w) (Rect.y w + Rect.height w) (Ball.y b) k Hk).
  fold (closestX w (Ball.x b)) (closestY w (Ball.y b)). fold dX dY.
  rewrite sqrt_scale by lra. fold d. unfold k. field. lra.
Qed.

Lemma collide_resolves px py b w :
  0 < wall_distance w b ->
  Ball.radius (collide px py b w) <= wall_distance w (collide px py b w).
Proof.
  intros Hd.
  destruct (same_tags_collide px py b w) as [-> _].
  destruct (Rlt_dec (wall_distance w b) (Ball.radius b)) as [Hr|Hr].
  - rewrite collide_push by assumption. lra.
  - unfold collide; cbv zeta. fold (wall_distance w b).
    destruct (Rlt_dec (wall_distance w b) (Ball.radius b)); [ contradiction | ].
    lra.
Qed.

(** C6, as the code has it.  Resolving a wall whose rectangle does not
    contain the centre of the ball leaves the centre at a distance of at
    least the radius from that wall; so after [_handleWallCollisions] this
    holds for the last wall of the list, and after the whole motion step
    of [update] when the boundaries then leave the ball in place.  (A
    wall resolved earlier, a wall that contains the centre, and the
    boundary clamp are not covered.) *)
Theorem last_wall_resolved :
  (forall px py b w,
     0 < wall_distance w b ->
     Ball.radius (collide px py b w) <= wall_distance w (collide px py b w)) /\
  (forall e ws w b px py,
     walls e = ws ++ [w] ->
     0 < wall_distance w (fold_left (collide px py) ws b) ->
     Ball.radius (_handleWallCollisions e b px py)
     <= wall_distance w (_handleWallCollisions e b px py)) /\
  (forall e ws w b,
     walls e = ws ++ [w] ->
     let moved := Ball.set_pos (Ball.x (accelerate e b) + Ball.vx (accelerate e b))
                               (Ball.y (accelerate e b) + Ball.vy (accelerate e b))
                               (accelerate e b) in
     let pushed := _handleWallCollisions e moved (Ball.x b) (Ball.y b) in
     0 < wall_distance w (fold_left (collide (Ball.x b) (Ball.y b)) ws moved) ->
     0 <= Ball.x pushed - Ball.radius pushed ->
     Ball.x pushed + Ball.radius pushed <= mazeWidth e ->
     0 <= Ball.y pushed - Ball.radius pushed ->
     Ball.radius (move e b) <= wall_distance w (move e b)).
Proof.
  assert (H2 : forall e ws w b px py,
             walls e = ws ++ [w] ->
             0 < wall_distance w (fold_left (collide px py) ws b) ->
             Ball.radius (_handleWallCollisions e b px py)
             <= wall_distance w (_handleWallCollisions e b px py)).
  { intros e ws w b px py Hw Hd. unfold _handleWallCollisions.
    rewrite Hw, fold_left_app. simpl. apply collide_resolves. exact Hd. }
  split; [ exact collide_resolves | split; [ exact H2 | ] ].
  intros e ws w b Hw moved pushed Hd Hx1 Hx2 Hy.
  assert (Hm : move e b = pushed).
  { unfold move; cbv zeta. fold moved. fold pushed.
    unfold _handleBoundaries; cbv zeta.
    destruct (Rlt_dec (Ball.x pushed - Ball.radius pushed) 0); [ lra | ].
    destruct (Rlt_dec (mazeWidth e) (Ball.x pushed + Ball.radius pushed)); [ lra | ].
    destruct (Rlt_dec (Ball.y pushed - Ball.radius pushed) 0); [ lra | ].
    reflexivity. }
  rewrite Hm. apply (H2 e ws w moved _ _ Hw Hd).
Qed.

Lemma last_wall_resolved_witness :
  Ball.radius (collide 0 0 (fresh_ball 5 0 (127 / 10, 164 / 10)) wall_B)
  <= wall_distance wall_B (collide 0 0 (fresh_ball 5 0 (127 / 10, 164 / 10)) wall_B).
Proof.
  apply (proj1 last_wall_resolved 0 0 (fresh_ball 5 0 (127 / 10, 164 / 10)) wall_B).
  unfold wall_distance, closestX, closestY, wall_B; simpl.
  replace (Rmax (178 / 10) (Rmin (127 / 10) (178 / 10 + 10))) with (178 / 10)
    by (unfold Rmax, Rmin; repeat destruct (Rle_dec _ _); lra).
  replace (Rmax 0 (Rmin (164 / 10) (0 + 40))) with (164 / 10)
    by (unfold Rmax, Rmin; repeat destruct (Rle_dec _ _); lra).
  apply sqrt_lt_R0. lra.
Defined.

(** *** A ball squeezed between two walls *)

Ltac eval_clamp :=
  unfold Rmax, Rmin; repeat destruct (Rle_dec _ _); lra.

Lemma squeeze_balls :
  balls squeeze_engine = [fresh_ball 5 0 (127 / 10, 1543 / 100)].
Proof.
  change (balls squeeze_engine)
    with (balls (init [(127 / 10, 1543 / 100)] [wall_A; wall_B] [] 100 100
                      (Some 5) constructor)).
  rewrite balls_init.
  rewrite or_default_nonzero by lra. reflexivity.
Qed.

(** Position of a ball pushed out of a wall, from the closest point
    [(cx, cy)] and the distance [d]. *)
Lemma collide_push_position px py b w cx cy d :
  closestX w (Ball.x b) = cx -> closestY w (Ball.y b) = cy ->
  0 < d -> d * d = (Ball.x b - cx) * (Ball.x b - cx) + (Ball.y b - cy) * (Ball.y b - cy) ->
  d < Ball.radius b ->
  Ball.x (collide px py b w) = Ball.x b + (Ball.x b - cx) / d * (Ball.radius b - d) /\
  Ball.y (collide px py b w) = Ball.y b + (Ball.y b - cy) / d * (Ball.radius b - d).
Proof.
  intros Hcx Hcy Hd Hsq Hr. unfold collide; cbv zeta. rewrite Hcx, Hcy.
  rewrite <- Hsq. rewrite sqrt_square by lra.
  destruct (Rlt_dec d (Ball.radius b)); [ | contradiction ].
  destruct (Rlt_dec 0 d); [ | contradiction ].
  split; reflexivity.
Qed.

Lemma placed_collide px py b w qx qy :
  same_tags b (collide px py b w) ->
  Ball.x (collide px py b w) = qx -> Ball.y (collide px py b w) = qy ->
  forall ox oy, placed b ox oy -> placed (collide px py b w) qx qy.
Proof.
  intros (Hr & _ & Ha & He & _) Hx Hy ox oy (_ & _ & H5 & Hact & Hex).
  repeat split; congruence.
Qed.

(** The velocity of the ball after gravity, controls, friction, clamp
    and threshold. *)
Lemma squeeze_accelerate b :
  Ball.vx b = 0 -> Ball.vy b = 0 ->
  Ball.vx (accelerate squeeze_engine b) = 0 /\
  Ball.vy (accelerate squeeze_engine b) = 97 / 100.
Proof.
  intros Hvx Hvy.
  unfold accelerate; cbv zeta.
  change (gravity squeeze_engine) with (0, 11 / 10).
  cbn [fst snd]. rewrite Hvx, Hvy.
  unfold baseGravityY, PHYSICS_CONFIG.gravityMultiplier, PHYSICS_CONFIG.friction.
  replace ((0 + 0 * (8 / 10)) * (97 / 100)) with 0 by lra.
  replace ((0 + 12 / 100 + 11 / 10 * (8 / 10)) * (97 / 100)) with (97 / 100) by lra.
  unfold clamp_velocity; cbv zeta.
  unfold Ball.getSpeed; cbn [Ball.vx Ball.vy Ball.set_vel].
  replace (0 * 0 + 97 / 100 * (97 / 100)) with ((97 / 100) * (97 / 100)) by lra.
  rewrite sqrt_square by lra.
  unfold PHYSICS_CONFIG.maxVelocity.
  destruct (Rlt_dec 12 (97 / 100)); [ lra | ].
  unfold apply_threshold; cbv zeta. cbn [Ball.vx Ball.vy Ball.set_vel].
  unfold PHYSICS_CONFIG.velocityThreshold.
  rewrite Rabs_R0.
  destruct (Rlt_dec 0 (1 / 100)); [ | lra ].
  cbn [Ball.vx Ball.vy Ball.set_vel].
  rewrite (Rabs_pos_eq (97 / 100)) by lra.
  destruct (Rlt_dec (97 / 100) (1 / 100)); [ lra | ].
  split; reflexivity.
Qed.

Lemma squeeze_wall_A px py b :
  placed b (127 / 10) (164 / 10) -> placed (collide px py b wall_A) 13 16.
Proof.
  intros Hb. pose proof Hb as (Hx & Hy & Hr & _).
  assert (Hcx : closestX wall_A (Ball.x b) = 10)
    by (rewrite Hx; unfold closestX, wall_A; cbn [Rect.x Rect.width]; eval_clamp).
  assert (Hcy : closestY wall_A (Ball.y b) = 20)
    by (rewrite Hy; unfold closestY, wall_A; cbn [Rect.y Rect.height]; eval_clamp).
  destruct (collide_push_position px py b wall_A 10 20 (45 / 10) Hcx Hcy)
    as [Hqx Hqy]; try (rewrite ?Hx, ?Hy, ?Hr; lra).
  eapply placed_collide; [ apply same_tags_collide | | | exact Hb ].
  - rewrite Hqx, Hx, Hr. field.
  - rewrite Hqy, Hy, Hr. field.
Qed.

Lemma squeeze_wall_B px py b :
  placed b 13 16 -> placed (collide px py b wall_B) (128 / 10) 16.
Proof.
  intros Hb. pose proof Hb as (Hx & Hy & Hr & _).
  assert (Hcx : closestX wall_B (Ball.x b) = 178 / 10)
    by (rewrite Hx; unfold closestX, wall_B; cbn [Rect.x Rect.width]; eval_clamp).
  assert (Hcy : closestY wall_B (Ball.y b) = 16)
    by (rewrite Hy; unfold closestY, wall_B; cbn [Rect.y Rect.height]; eval_clamp).
  destruct (collide_push_position px py b wall_B (178 / 10) 16 (48 / 10) Hcx Hcy)
    as [Hqx Hqy]; try (rewrite ?Hx, ?Hy, ?Hr; lra).
  eapply placed_collide; [ apply same_tags_collide | | | exact Hb ].
  - rewrite Hqx, Hx, Hr. field.
  - rewrite Hqy, Hy, Hr. field.
Qed.

Lemma squeeze_move b :
  placed b (127 / 10) (1543 / 100) -> Ball.vx b = 0 -> Ball.vy b = 0 ->
  placed (move squeeze_engine b) (128 / 10) 16.
Proof.
  intros (Hx & Hy & Hr & Ha & He) Hvx Hvy.
  destruct (squeeze_accelerate b Hvx Hvy) as [Hax Hay].
  destruct (same_tags_accelerate squeeze_engine b) as (Hr1 & _ & Ha1 & He1 & _).
  unfold move; cbv zeta. rewrite Hax, Hay.
  set (moved := Ball.set_pos _ _ _).
  assert (Hm : placed moved (127 / 10) (164 / 10)).
  { unfold moved, placed; cbn [Ball.x Ball.y Ball.radius Ball.active Ball.exited Ball.set_pos].
    unfold accelerate, clamp_velocity, apply_threshold; cbv zeta.
    repeat match goal with
           | |- context [Rlt_dec ?a ?c] => destruct (Rlt_dec a c)
           end; cbn [Ball.x Ball.y Ball.radius Ball.active Ball.exited Ball.set_vel];
      repeat split; try assumption; try lra. }
  unfold _handleWallCollisions.
  change (walls squeeze_engine) with [wall_A; wall_B]. cbn [fold_left].
  pose proof (squeeze_wall_B (Ball.x b) (Ball.y b) _
                (squeeze_wall_A (Ball.x b) (Ball.y b) _ Hm)) as Hp.
  set (pushed := collide _ _ (collide _ _ moved wall_A) wall_B) in *.
  destruct Hp as (Hpx & Hpy & Hpr & Hpa & Hpe).
  unfold _handleBoundaries; cbv zeta.
  change (mazeWidth squeeze_engine) with 100.
  destruct (Rlt_dec (Ball.x pushed - Ball.radius pushed) 0); [ lra | ].
  destruct (Rlt_dec 100 (Ball.x pushed + Ball.radius pushed)); [ lra | ].
  destruct (Rlt_dec (Ball.y pushed - Ball.radius pushed) 0); [ lra | ].
  repeat split; assumption.
Qed.

(** C6 fails as stated.  In [squeeze_engine] the ball overlaps no wall;
    during [update] it comes to overlap [wall_A] and is pushed out of it,
    then overlaps [wall_B] and is pushed back: the call ends with the
    active ball at (12.8, 16), at distance [sqrt 23.84 < 5] from the
    corner (10, 20) of [wall_A]. *)
Lemma squeeze_overlap :
  Forall (fun b => Forall (fun w => ~ overlaps b w) (walls squeeze_engine))
         (balls squeeze_engine) /\
  Exists (fun b => Ball.active b = true /\ overlaps b wall_A)
         (balls (update squeeze_engine)).
Proof.
  split.
  - rewrite squeeze_balls. constructor; [ | constructor ].
    change (walls squeeze_engine) with [wall_A; wall_B].
    constructor; [ | constructor; [ | constructor ] ];
      unfold overlaps, wall_distance, closestX, closestY, fresh_ball, wall_A, wall_B;
      cbn [Ball.x Ball.y Ball.radius Rect.x Rect.y Rect.width Rect.height fst snd].
    + replace (Rmax 0 (Rmin (127 / 10) (0 + 10))) with 10 by eval_clamp.
      replace (Rmax 20 (Rmin (1543 / 100) (20 + 20))) with 20 by eval_clamp.
      apply Rle_not_lt. apply Rsqr_incr_0_var; [ | apply sqrt_pos ].
      unfold Rsqr. rewrite sqrt_sqrt by nra. lra.
    + replace (Rmax (178 / 10) (Rmin (127 / 10) (178 / 10 + 10))) with (178 / 10)
        by eval_clamp.
      replace (Rmax 0 (Rmin (1543 / 100) (0 + 40))) with (1543 / 100) by eval_clamp.
      apply Rle_not_lt. apply Rsqr_incr_0_var; [ | apply sqrt_pos ].
      unfold Rsqr. rewrite sqrt_sqrt by nra. lra.
  - assert (Hu : exists b, balls (update squeeze_engine) = [b] /\ placed b (128 / 10) 16).
    { unfold update. change (paused squeeze_engine) with false. cbv iota.
      rewrite squeeze_balls. cbn [update_balls].
      set (b0 := fresh_ball 5 0 (127 / 10, 1543 / 100)).
      assert (Hb0 : placed b0 (127 / 10) (1543 / 100)) by (repeat split).
      pose proof (squeeze_move b0 Hb0 eq_refl eq_refl) as Hm.
      unfold update_ball. change (Ball.active b0) with true. cbv iota. cbn [negb].
      unfold _checkExitZones.
      destruct Hm as (Hx & Hy & Hr & Ha & He). rewrite He.
      change (mazeHeight squeeze_engine) with 100.
      destruct (Rlt_dec 100 (Ball.y (move squeeze_engine b0))); [ lra | ].
      eexists. split; [ reflexivity | ].
      repeat split; assumption. }
    destruct Hu as (b & -> & Hx & Hy & Hr & Ha & _).
    constructor. split; [ exact Ha | ].
    unfold overlaps, wall_distance, closestX, closestY, wall_A;
      cbn [Rect.x Rect.y Rect.width Rect.height].
    rewrite Hx, Hy, Hr.
    replace (Rmax 0 (Rmin (128 / 10) (0 + 10))) with 10 by eval_clamp.
    replace (Rmax 20 (Rmin 16 (20 + 20))) with 20 by eval_clamp.
    rewrite <- (sqrt_square 5) by lra.
    apply sqrt_lt_1_alt. lra.
Qed.

End PhysicsProofs.

(** * Properties of the maze generator *)

Module LayoutProofs.
Import MazeGenerator.
#[local] Open Scope Z_scope.

(** ** Floors of quotients *)

Lemma floor_ge (n : Z) (q : Q) : n <= Qfloor q <-> (inject_Z n <= q)%Q.
Proof.
  split; intros H.
  - apply Qle_trans with (inject_Z (Qfloor q)); [ | apply Qfloor_le ].
    rewrite <- Zle_Qle. exact H.
  - assert (Hlt : (inject_Z n < inject_Z (Qfloor q + 1))%Q)
      by (eapply Qle_lt_trans; [ exact H | apply Qlt_floor ]).
    rewrite <- Zlt_Qlt in Hlt. lia.
Qed.

Lemma le_div_iff (n d : Z) (a : Q) :
  0 < d -> (inject_Z n <= a / inject_Z d)%Q <-> (inject_Z (n * d) <= a)%Q.
Proof.
  intros Hd.
  assert (Hq : (0 < inject_Z d)%Q).
  { change (inject_Z 0 < inject_Z d)%Q. rewrite <- Zlt_Qlt. exact Hd. }
  assert (Hne : ~ (inject_Z d == 0)%Q) by (intros E; rewrite E in Hq; discriminate).
  rewrite inject_Z_mult.
  rewrite <- (Qmult_le_r (inject_Z n) (a / inject_Z d) (inject_Z d) Hq).
  assert (E : (a / inject_Z d * inject_Z d == a)%Q) by (field; exact Hne).
  rewrite E. reflexivity.
Qed.

Lemma rem2_even (a : Z) : (Z.rem a 2 =? 0) = Z.even a.
Proof.
  rewrite Zrem_even. destruct (Z.even a) eqn:E; [ reflexivity | ].
  apply Z.eqb_neq. intros H. destruct a; discriminate.
Qed.

Lemma odd_of_not_even (a : Z) : Z.even a = false -> Z.odd a = true.
Proof. rewrite <- Z.negb_even. now intros ->. Qed.

(** ** One dimension *)

(** The target count for a level: odd, and at least [base]. *)
Lemma target_odd (cap base step level : Z) :
  Z.odd cap = true -> Z.odd base = true -> base <= cap -> 0 < step -> 0 <= level ->
  let t := Z.min cap (base + level / step * 2) in
  let t' := if Z.rem t 2 =? 0 then t + 1 else t in
  t' = t /\ Z.odd t = true /\ base <= t.
Proof.
  intros Hc Hb Hle Hs Hl t t'.
  assert (Hq : 0 <= level / step) by (apply Z.div_pos; lia).
  assert (Hodd : Z.odd t = true).
  { unfold t. destruct (Z.min_spec cap (base + level / step * 2)) as [[_ ->]|[_ ->]].
    - exact Hc.
    - rewrite Z.mul_comm, Z.odd_add_mul_2. exact Hb. }
  repeat split; [ | exact Hodd | unfold t; lia ].
  unfold t'. rewrite rem2_even, <- Z.negb_odd, Hodd. reflexivity.
Qed.

(** Without the fallback the cells fit, and the space is at least 144. *)
Lemma fits_target (a : Q) (t cs : Z) :
  9 <= t -> 16 <= cs -> (inject_Z cs <= a / inject_Z t)%Q ->
  (inject_Z (t * cs) <= a)%Q /\ (144 <= a)%Q.
Proof.
  intros Ht Hcs H. apply le_div_iff in H; [ | lia ].
  rewrite Z.mul_comm. split; [ exact H | ].
  eapply Qle_trans; [ | exact H ].
  change 144%Q with (inject_Z 144). rewrite <- Zle_Qle. nia.
Qed.

(** With the fallback the count is odd and at least 9, and 16-pixel
    cells fit exactly when the space is at least 144 = 9 * 16. *)
Lemma fits_fallback (a : Q) :
  let t := Qfloor (a / inject_Z minCellSize) in
  let t' := if Z.rem t 2 =? 0 then t - 1 else t in
  let c := Z.max 9 t' in
  Z.odd c = true /\ 9 <= c /\
  ((inject_Z (c * minCellSize) <= a)%Q <-> (144 <= a)%Q).
Proof.
  intros t t' c.
  assert (Ht' : Z.odd t' = true /\ t' <= t /\ (9 <= t -> 9 <= t')).
  { unfold t'. rewrite rem2_even. destruct (Z.even t) eqn:E.
    - apply Z.even_spec in E. destruct E as [k Hk].
      repeat split; try lia.
      replace (t - 1) with (1 + 2 * (k - 1)) by lia.
      rewrite Z.odd_add_mul_2. reflexivity.
    - repeat split; try lia. now apply odd_of_not_even. }
  destruct Ht' as (Hodd & Hle & Hge).
  assert (Hc : Z.odd c = true).
  { unfold c. destruct (Z.max_spec 9 t') as [[_ ->]|[_ ->]]; [ exact Hodd | reflexivity ]. }
  repeat split; [ exact Hc | unfold c; lia | | ].
  - intros H. apply le_div_iff in H; [ | unfold minCellSize; lia ].
    apply floor_ge in H. fold t in H.
    assert (H9 : 9 <= t) by (unfold c in H; lia).
    apply floor_ge in H9. apply le_div_iff in H9; [ | unfold minCellSize; lia ].
    exact H9.
  - intros H.
    assert (H9 : 9 <= t).
    { apply floor_ge, le_div_iff; [ unfold minCellSize; lia | exact H ]. }
    apply le_div_iff; [ unfold minCellSize; lia | ].
    apply floor_ge. fold t. unfold c. lia.
Qed.

(** ** The sizes chosen by [init] *)

Lemma choose_size_spec level aw ah :
  1 <= level ->
  forall cols rows cs,
    choose_size level aw ah = (cols, rows, cs) ->
    16 <= cs /\ Z.odd cols = true /\ Z.odd rows = true /\ 9 <= cols /\ 9 <= rows /\
    ((inject_Z (cols * cs) <= aw)%Q <-> (144 <= aw)%Q) /\
    ((inject_Z (rows * cs) <= ah)%Q <-> (144 <= ah)%Q).
Proof.
  intros Hl cols rows cs. unfold choose_size.
  destruct (target_odd 21 11 3 level) as (-> & Hoc & Hc); try reflexivity; try lia.
  destruct (target_odd 25 13 4 level) as (-> & Hor & Hr); try reflexivity; try lia.
  set (tc := Z.min 21 (11 + level / 3 * 2)) in *.
  set (tr := Z.min 25 (13 + level / 4 * 2)) in *.
  set (size := Qfloor (Qmin (aw / inject_Z tc) (ah / inject_Z tr))).
  destruct (size <? minCellSize) eqn:E.
  - intros [= <- <- <-].
    destruct (fits_fallback aw) as (H1 & H2 & H3).
    destruct (fits_fallback ah) as (H4 & H5 & H6).
    unfold minCellSize in *. repeat split; try assumption; try lia;
      try apply H3; try apply H6.
  - intros [= <- <- <-]. apply Z.ltb_ge in E. unfold minCellSize in E.
    assert (Hs : (inject_Z size <= Qmin (aw / inject_Z tc) (ah / inject_Z tr))%Q)
      by apply Qfloor_le.
    destruct (fits_target aw tc size) as [H1 H2]; try lia.
    { eapply Qle_trans; [ exact Hs | apply Q.le_min_l ]. }
    destruct (fits_target ah tr size) as [H3 H4]; try lia.
    { eapply Qle_trans; [ exact Hs | apply Q.le_min_r ]. }
    repeat split; try assumption; try lia; intros; assumption.
Qed.

End LayoutProofs.

Module GridProofs.
Import MazeSpec.
#[local] Open Scope Z_scope.

(** ** Reading and writing cells *)

Lemma length_set_nth {A} (l : list A) n v : length (Grid.set_nth l n v) = length l.
Proof.
  revert n; induction l as [|a l IH]; intros [|n]; simpl; try reflexivity.
  now rewrite IH.
Qed.

Lemma nth_error_set_nth_eq {A} (l : list A) n v :
  (n < length l)%nat -> nth_error (Grid.set_nth l n v) n = Some v.
Proof.
  revert n; induction l as [|a l IH]; intros [|n] H; simpl in *; try lia.
  - reflexivity.
  - apply IH. lia.
Qed.

Lemma nth_error_set_nth_ne {A} (l : list A) n m v :
  n <> m -> nth_error (Grid.set_nth l n v) m = nth_error l m.
Proof.
  revert n m; induction l as [|a l IH]; intros [|n] [|m] H; simpl; try reflexivity.
  - contradiction.
  - apply IH. congruence.
Qed.

Lemma Forall_set_nth {A} (P : A -> Prop) (l : list A) n v :
  Forall P l -> P v -> Forall P (Grid.set_nth l n v).
Proof.
  intros Hl Hv. revert n. induction Hl as [|a l Ha Hl IH]; intros [|n]; simpl;
    constructor; auto.
Qed.

Lemma dims_set g cols rows x y v :
  dims g cols rows -> dims (Grid.set g x y v) cols rows.
Proof.
  intros [Hlen Hrows]. unfold Grid.set.
  destruct ((x <? 0) || (y <? 0)); [ split; assumption | ].
  destruct (nth_error g (Z.to_nat y)) as [row|] eqn:E; [ | split; assumption ].
  split.
  - now rewrite length_set_nth.
  - apply Forall_set_nth; [ exact Hrows | ].
    rewrite length_set_nth. rewrite Forall_forall in Hrows.
    apply Hrows. eapply nth_error_In; exact E.
Qed.

Lemma get_in_range g cols rows x y :
  dims g cols rows -> 0 <= x < cols -> 0 <= y < rows ->
  exists c, Grid.get g x y = Some c.
Proof.
  intros [Hlen Hrows] Hx Hy. unfold Grid.get.
  replace ((x <? 0) || (y <? 0)) with false by (symmetry; apply orb_false_iff; lia).
  destruct (nth_error g (Z.to_nat y)) as [row|] eqn:E.
  - rewrite Forall_forall in Hrows.
    pose proof (Hrows row (nth_error_In _ _ E)) as Hr.
    destruct (nth_error row (Z.to_nat x)) as [c|] eqn:E2; [ now exists c | ].
    apply nth_error_None in E2. lia.
  - apply nth_error_None in E. lia.
Qed.

Lemma get_out_of_range g cols rows x y :
  dims g cols rows -> ~ (0 <= x < cols /\ 0 <= y < rows) -> Grid.get g x y = None.
Proof.
  intros [Hlen Hrows] H. unfold Grid.get.
  destruct ((x <? 0) || (y <? 0)) eqn:Eneg; [ reflexivity | ].
  apply orb_false_iff in Eneg.
  destruct (nth_error g (Z.to_nat y)) as [row|] eqn:E; [ | reflexivity ].
  rewrite Forall_forall in Hrows.
  pose proof (Hrows row (nth_error_In _ _ E)) as Hr.
  assert (Hy : (Z.to_nat y < length g)%nat) by (apply nth_error_Some; congruence).
  apply nth_error_None. lia.
Qed.

Lemma get_set_eq g cols rows x y v :
  dims g cols rows -> 0 <= x < cols -> 0 <= y < rows ->
  Grid.get (Grid.set g x y v) x y = Some v.
Proof.
  intros Hd Hx Hy. pose proof Hd as [Hlen Hrows].
  unfold Grid.get, Grid.set.
  replace ((x <? 0) || (y <? 0)) with false by (symmetry; apply orb_false_iff; lia).
  destruct (nth_error g (Z.to_nat y)) as [row|] eqn:E.
  - rewrite nth_error_set_nth_eq by lia.
    apply nth_error_set_nth_eq.
    rewrite Forall_forall in Hrows.
    rewrite (Hrows row (nth_error_In _ _ E)). lia.
  - apply nth_error_None in E. lia.
Qed.

Lemma get_set_ne g x y v x' y' :
  (x', y') <> (x, y) -> Grid.get (Grid.set g x y v) x' y' = Grid.get g x' y'.
Proof.
  intros Hne. unfold Grid.get, Grid.set.
  destruct ((x' <? 0) || (y' <? 0)) eqn:E'; [ reflexivity | ].
  destruct ((x <? 0) || (y <? 0)) eqn:E0; [ reflexivity | ].
  apply orb_false_iff in E', E0.
  destruct (nth_error g (Z.to_nat y)) as [row|] eqn:E; [ | reflexivity ].
  destruct (Z.eq_dec y' y) as [->|Hy].
  - rewrite nth_error_set_nth_eq by (apply nth_error_Some; congruence).
    rewrite E. apply nth_error_set_nth_ne.
    intros H. apply Hne. f_equal. lia.
  - rewrite nth_error_set_nth_ne by lia. reflexivity.
Qed.

Lemma get_set g cols rows x y v x' y' :
  dims g cols rows -> 0 <= x < cols -> 0 <= y < rows ->
  Grid.get (Grid.set g x y v) x' y'
  = if (x' =? x) && (y' =? y) then Some v else Grid.get g x' y'.
Proof.
  intros Hd Hx Hy.
  destruct ((x' =? x) && (y' =? y)) eqn:E.
  - apply andb_true_iff in E. destruct E as [E1 E2].
    apply Z.eqb_eq in E1, E2. subst. eapply get_set_eq; eassumption.
  - apply get_set_ne. intros [= -> ->].
    rewrite !Z.eqb_refl in E. discriminate.
Qed.

Lemma dims_walls cols rows :
  dims (repeat (repeat WALL (Z.to_nat cols)) (Z.to_nat rows)) cols rows.
Proof.
  split.
  - apply repeat_length.
  - apply Forall_forall. intros row H. apply repeat_spec in H. subst.
    apply repeat_length.
Qed.

Lemma get_walls cols rows x y c :
  Grid.get (repeat (repeat WALL (Z.to_nat cols)) (Z.to_nat rows)) x y = Some c ->
  c = WALL.
Proof.
  unfold Grid.get. destruct ((x <? 0) || (y <? 0)); [ discriminate | ].
  destruct (nth_error _ (Z.to_nat y)) as [row|] eqn:E; [ | discriminate ].
  apply nth_error_In, repeat_spec in E. subst row.
  intros H. apply nth_error_In, repeat_spec in H. exact H.
Qed.

End GridProofs.

Module RandomProofs.
Import SeededRandom.
#[local] Open Scope Z_scope.

(** ** Rounding to a double *)

Lemma round53_small v : Z.abs v < 2 ^ 53 -> round53 v = v.
Proof.
  intros H. unfold round53.
  assert (He : Z.log2 (Z.abs v) - 52 <= 0).
  { destruct (Z.eq_dec (Z.abs v) 0) as [->|Hne]; [ simpl; lia | ].
    assert (Z.log2 (Z.abs v) < 53) by (apply Z.log2_lt_pow2; lia). lia. }
  apply Z.leb_le in He. now rewrite He.
Qed.

Lemma round53_large v :
  2 ^ 53 <= v -> Z.even (round53 v) = true /\ 2 ^ 53 <= round53 v.
Proof.
  intros H. unfold round53.
  rewrite (Z.abs_eq v) by lia.
  set (e := Z.log2 v - 52).
  assert (Hlog : 53 <= Z.log2 v) by (apply Z.log2_le_pow2; lia).
  assert (He : 1 <= e) by (unfold e; lia).
  replace (e <=? 0) with false by (symmetry; apply Z.leb_gt; lia).
  set (q := Z.shiftr v e).
  set (q' := if v - Z.shiftl q e <? Z.shiftl 1 (e - 1) then q
             else if Z.shiftl 1 (e - 1) <? v - Z.shiftl q e then q + 1
             else if Z.even q then q else q + 1).
  assert (Hq : 2 ^ 52 <= q).
  { unfold q. rewrite Z.shiftr_div_pow2 by lia.
    apply Z.div_le_lower_bound; [ apply Z.pow_pos_nonneg; lia | ].
    rewrite <- Z.pow_add_r by lia.
    replace (e + 52) with (Z.log2 v) by (unfold e; lia).
    apply Z.log2_spec. lia. }
  assert (Hq' : q <= q').
  { unfold q'. repeat match goal with |- context [if ?c then _ else _] => destruct c end; lia. }
  rewrite Z.sgn_pos by lia. rewrite Z.mul_1_l, Z.shiftl_mul_pow2 by lia.
  assert (Hpow : 2 ^ e = 2 * 2 ^ (e - 1)).
  { rewrite <- Z.pow_succ_r by lia. f_equal. lia. }
  assert (Hp1 : 1 <= 2 ^ (e - 1)) by (apply Z.lt_pred_le, Z.pow_pos_nonneg; lia).
  split.
  - rewrite Hpow. replace (q' * (2 * 2 ^ (e - 1))) with (2 * (q' * 2 ^ (e - 1))) by ring.
    apply Z.even_spec. now exists (q' * 2 ^ (e - 1)).
  - rewrite Hpow. change (2 ^ 53) with (2 * 2 ^ 52). nia.
Qed.

(** ** The generator never returns 1 *)

Lemma next_seed_range s : 0 <= next_seed s <= 0x7fffffff.
Proof.
  unfold next_seed. change 0x7fffffff with (Z.ones 31).
  rewrite Z.land_ones by lia.
  pose proof (Z.mod_pos_bound (round53 (round53 (s * 1103515245) + 12345)) (2 ^ 31)).
  change (Z.ones 31) with (2 ^ 31 - 1). lia.
Qed.

Lemma land_even_ne v : Z.even v = true -> Z.land v 0x7fffffff <> 0x7fffffff.
Proof.
  intros Hv H. apply (f_equal Z.odd) in H.
  rewrite <- !Z.bit0_odd, Z.land_spec, !Z.bit0_odd in H.
  rewrite <- Z.negb_even, Hv in H. discriminate H.
Qed.

(** Where the arithmetic of [next()] is exact the seed is below
    2^53 / 1103515245, and no such seed is sent to 2^31 - 1: the one
    residue modulo 2^31 that is sent there is 230538014. *)
Lemma lcg_exact_ne s :
  0 <= s -> s * 1103515245 + 12345 < 2 ^ 53 ->
  (s * 1103515245 + 12345) mod 2 ^ 31 <> 0x7fffffff.
Proof.
  intros Hs Hlt H.
  pose proof (Z.div_mod (s * 1103515245 + 12345) (2 ^ 31) ltac:(lia)) as Hdm.
  rewrite H in Hdm.
  set (k := (s * 1103515245 + 12345) / 2 ^ 31) in Hdm.
  lia.
Qed.

Lemma next_seed_lt s : 0 <= s -> next_seed s < 0x7fffffff.
Proof.
  intros Hs.
  enough (next_seed s <> 0x7fffffff) by (pose proof (next_seed_range s); lia).
  unfold next_seed.
  destruct (Z_lt_le_dec (s * 1103515245) (2 ^ 53)) as [Hp|Hp].
  - rewrite (round53_small (s * 1103515245)) by lia.
    destruct (Z_lt_le_dec (s * 1103515245 + 12345) (2 ^ 53)) as [Hq|Hq].
    + rewrite round53_small by lia.
      change 0x7fffffff with (Z.ones 31) at 1. rewrite Z.land_ones by lia.
      apply lcg_exact_ne; assumption.
    + apply land_even_ne. apply round53_large. exact Hq.
  - destruct (round53_large _ Hp) as [_ Hr].
    apply land_even_ne. apply round53_large. lia.
Qed.

(** ** nextInt *)

Lemma nextInt_exact n s :
  nextInt 0 n s = (next_seed s * n / 0x7fffffff, next_seed s).
Proof.
  unfold nextInt, next. f_equal.
  rewrite Z.add_0_r, Z.sub_0_r.
  unfold Qfloor, Qdiv, Qmult, Qinv, inject_Z. simpl.
  rewrite !Z.mul_1_r. reflexivity.
Qed.

Lemma nextInt_range n s :
  0 < n -> 0 <= s ->
  0 <= fst (nextInt 0 n s) < n /\ 0 <= snd (nextInt 0 n s).
Proof.
  intros Hn Hs. rewrite nextInt_exact. simpl.
  pose proof (next_seed_range s) as Hr. pose proof (next_seed_lt s Hs) as Hlt.
  repeat split; try lia.
  - apply Z.div_pos; nia.
  - apply Z.div_lt_upper_bound; nia.
Qed.

(** ** shuffle *)

Section Swap.
Context {A : Type}.
Implicit Types a : list (option A).

Lemma js_set_in_range a i v :
  (i < length a)%nat -> JsArray.set a (Z.of_nat i) v = Grid.set_nth a i v.
Proof.
  unfold JsArray.set. rewrite Nat2Z.id.
  revert i. induction a as [|x a IH]; intros [|i] H; simpl in *; try lia.
  - reflexivity.
  - f_equal. rewrite <- IH by lia.
    replace (i - length a)%nat with 0%nat by lia. reflexivity.
Qed.

Lemma js_get_in_range a i :
  JsArray.get a (Z.of_nat i) = match nth_error a i with Some v => v | None => None end.
Proof.
  unfold JsArray.get. rewrite Nat2Z.id.
  destruct (Z.of_nat i <? 0) eqn:E; [ apply Z.ltb_lt in E; lia | reflexivity ].
Qed.

Lemma swap_length a i j :
  (i < length a)%nat -> (j < length a)%nat ->
  length (JsArray.swap a (Z.of_nat i) (Z.of_nat j)) = length a.
Proof.
  intros Hi Hj. unfold JsArray.swap.
  rewrite (js_set_in_range a i) by exact Hi.
  rewrite js_set_in_range by (rewrite GridProofs.length_set_nth; exact Hj).
  now rewrite !GridProofs.length_set_nth.
Qed.

Lemma swap_nth_error a i j k :
  (i < length a)%nat -> (j < length a)%nat ->
  nth_error (JsArray.swap a (Z.of_nat i) (Z.of_nat j)) k
  = if Nat.eqb k j then nth_error a i
    else if Nat.eqb k i then nth_error a j
    else nth_error a k.
Proof.
  intros Hi Hj. unfold JsArray.swap.
  rewrite (js_set_in_range a i) by exact Hi.
  rewrite js_set_in_range by (rewrite GridProofs.length_set_nth; exact Hj).
  rewrite !js_get_in_range.
  destruct (nth_error a i) as [vi|] eqn:Ei; [ | apply nth_error_None in Ei; lia ].
  destruct (nth_error a j) as [vj|] eqn:Ej; [ | apply nth_error_None in Ej; lia ].
  destruct (Nat.eqb k j) eqn:Ekj.
  - apply Nat.eqb_eq in Ekj. subst k.
    apply GridProofs.nth_error_set_nth_eq. now rewrite GridProofs.length_set_nth.
  - apply Nat.eqb_neq in Ekj.
    rewrite GridProofs.nth_error_set_nth_ne by congruence.
    destruct (Nat.eqb k i) eqn:Eki.
    + apply Nat.eqb_eq in Eki. subst k. now apply GridProofs.nth_error_set_nth_eq.
    + apply Nat.eqb_neq in Eki. apply GridProofs.nth_error_set_nth_ne. congruence.
Qed.

Lemma swap_In a i j v :
  (i < length a)%nat -> (j < length a)%nat ->
  In v (JsArray.swap a (Z.of_nat i) (Z.of_nat j)) <-> In v a.
Proof.
  intros Hi Hj. split; intros H.
  - apply In_nth_error in H. destruct H as [k Hk].
    rewrite swap_nth_error in Hk by assumption.
    destruct (Nat.eqb k j); [ | destruct (Nat.eqb k i) ];
      eapply nth_error_In; exact Hk.
  - apply In_nth_error in H. destruct H as [k Hk].
    destruct (Nat.eq_dec k i) as [->|Hki].
    + apply (nth_error_In _ j). rewrite swap_nth_error by assumption.
      now rewrite Nat.eqb_refl.
    + destruct (Nat.eq_dec k j) as [->|Hkj].
      * apply (nth_error_In _ i). rewrite swap_nth_error by assumption.
        destruct (Nat.eqb i j) eqn:E.
        -- apply Nat.eqb_eq in E. congruence.
        -- now rewrite Nat.eqb_refl.
      * apply (nth_error_In _ k). rewrite swap_nth_error by assumption.
        apply Nat.eqb_neq in Hki, Hkj. now rewrite Hki, Hkj.
Qed.

Lemma shuffle_loop_spec :
  forall i a s,
    (i < length a)%nat -> 0 <= s ->
    0 <= snd (shuffle_loop i a s) /\
    forall v, In v (fst (shuffle_loop i a s)) <-> In v a.
Proof.
  induction i as [|i IH]; intros a s Hi Hs; [ simpl; tauto | ].
  cbn [shuffle_loop].
  pose proof (nextInt_range (Z.of_nat (S i) + 1) s ltac:(lia) Hs) as [Hj Hs'].
  destruct (nextInt 0 (Z.of_nat (S i) + 1) s) as [j s']. simpl in Hj, Hs'.
  assert (Hjn : (Z.to_nat j < length a)%nat) by lia.
  rewrite <- (Z2Nat.id j) by lia.
  destruct (IH (JsArray.swap a (Z.of_nat (S i)) (Z.of_nat (Z.to_nat j))) s') as [H1 H2];
    [ rewrite swap_length by lia; lia | exact Hs' | ].
  split; [ exact H1 | ].
  intros v. rewrite H2. apply swap_In; lia.
Qed.

Lemma shuffle_spec (l : list A) s :
  0 <= s ->
  0 <= snd (shuffle l s) /\
  forall v, In v (fst (shuffle l s)) <-> exists d, v = Some d /\ In d l.
Proof.
  intros Hs. unfold shuffle.
  destruct l as [|x l].
  - simpl. split; [ exact Hs | ]. intros v; split; [ intros [] | intros (d & _ & []) ].
  - destruct (shuffle_loop_spec (length (map Some (x :: l)) - 1) (map Some (x :: l)) s)
      as [H1 H2]; [ simpl; lia | exact Hs | ].
    split; [ exact H1 | ].
    intros v. rewrite H2, in_map_iff. split; intros (d & Hd & Hin); exists d; auto.
Qed.

End Swap.

End RandomProofs.

Module CountProofs.
Import MazeSpec GridProofs.
#[local] Open Scope Z_scope.

(** ** Sums over the cells *)

Lemma sum_range_ext n f g :
  (forall k, 0 <= k < Z.of_nat n -> f k = g k) -> sum_range n f = sum_range n g.
Proof.
  induction n as [|n IH]; intros H; simpl; [ reflexivity | ].
  rewrite IH by (intros k Hk; apply H; lia).
  rewrite H by lia. reflexivity.
Qed.

Lemma sum_range_add n f g :
  sum_range n (fun k => f k + g k) = sum_range n f + sum_range n g.
Proof. induction n as [|n IH]; simpl; [ reflexivity | rewrite IH; ring ]. Qed.

Lemma sum_range_zero n : sum_range n (fun _ => 0) = 0.
Proof. induction n as [|n IH]; simpl; [ reflexivity | rewrite IH; reflexivity ]. Qed.

Lemma sum_range_point n k0 v :
  sum_range n (fun k => if k =? k0 then v else 0)
  = if (0 <=? k0) && (k0 <? Z.of_nat n) then v else 0.
Proof.
  induction n as [|n IH].
  - simpl. destruct (0 <=? k0) eqn:E; simpl; [ | reflexivity ].
    replace (k0 <? 0) with false by (symmetry; apply Z.ltb_ge; apply Z.leb_le in E; lia).
    reflexivity.
  - cbn [sum_range]. rewrite IH.
    destruct (Z.of_nat n =? k0) eqn:E1;
      destruct (0 <=? k0) eqn:E2; cbn [andb];
      destruct (k0 <? Z.of_nat n) eqn:E3;
      destruct (k0 <? Z.of_nat (S n)) eqn:E4; try lia; try reflexivity;
      repeat match goal with
             | H : (_ =? _) = true |- _ => apply Z.eqb_eq in H
             | H : (_ =? _) = false |- _ => apply Z.eqb_neq in H
             | H : (_ <=? _) = true |- _ => apply Z.leb_le in H
             | H : (_ <=? _) = false |- _ => apply Z.leb_gt in H
             | H : (_ <? _) = true |- _ => apply Z.ltb_lt in H
             | H : (_ <? _) = false |- _ => apply Z.ltb_ge in H
             end; lia.
Qed.

Lemma tally_ext cols rows f g :
  (forall x y, 0 <= x < cols -> 0 <= y < rows -> f x y = g x y) ->
  tally cols rows f = tally cols rows g.
Proof.
  intros H. unfold tally. apply sum_range_ext. intros y Hy.
  apply sum_range_ext. intros x Hx. apply H; lia.
Qed.

Lemma tally_add cols rows f g :
  tally cols rows (fun x y => f x y + g x y) = tally cols rows f + tally cols rows g.
Proof.
  unfold tally. rewrite <- sum_range_add. apply sum_range_ext. intros y _.
  apply sum_range_add.
Qed.

Lemma tally_point cols rows x0 y0 v :
  0 <= x0 < cols -> 0 <= y0 < rows ->
  tally cols rows (fun x y => if (x =? x0) && (y =? y0) then v else 0) = v.
Proof.
  intros Hx Hy. unfold tally.
  rewrite (sum_range_ext _ _ (fun y => if y =? y0 then v else 0)).
  - rewrite sum_range_point.
    replace ((0 <=? y0) && (y0 <? Z.of_nat (Z.to_nat rows))) with true; [ reflexivity | ].
    symmetry. apply andb_true_iff. split; [ apply Z.leb_le | apply Z.ltb_lt ]; lia.
  - intros y _. destruct (y =? y0) eqn:E.
    + rewrite (sum_range_ext _ _ (fun x => if x =? x0 then v else 0)).
      * rewrite sum_range_point.
        replace ((0 <=? x0) && (x0 <? Z.of_nat (Z.to_nat cols))) with true; [ reflexivity | ].
        symmetry. apply andb_true_iff. split; [ apply Z.leb_le | apply Z.ltb_lt ]; lia.
      * intros x _. now rewrite andb_true_r.
    + rewrite (sum_range_ext _ _ (fun _ => 0)).
      * apply sum_range_zero.
      * intros x _. now rewrite andb_false_r.
Qed.

Lemma tally_point_outside cols rows x0 y0 v :
  v = 0 ->
  tally cols rows (fun x y => if (x =? x0) && (y =? y0) then v else 0) = 0.
Proof.
  intros ->. unfold tally.
  rewrite (sum_range_ext _ _ (fun _ => 0)); [ apply sum_range_zero | ].
  intros y _. rewrite (sum_range_ext _ _ (fun _ => 0)); [ apply sum_range_zero | ].
  intros x _. now destruct ((x =? x0) && (y =? y0)).
Qed.

(** The value at one cell, counted when the cell is in the grid; a value
    at a cell outside the grid is 0 there. *)
Lemma tally_point_open g cols rows x0 y0 :
  dims g cols rows ->
  tally cols rows (fun x y => if (x =? x0) && (y =? y0)
                              then Z.b2z (opened g x0 y0) else 0)
  = Z.b2z (opened g x0 y0).
Proof.
  intros Hd.
  destruct (Z_le_dec 0 x0), (Z_lt_dec x0 cols), (Z_le_dec 0 y0), (Z_lt_dec y0 rows);
    try (apply tally_point; lia);
    (rewrite tally_point_outside;
     [ | unfold opened; rewrite (get_out_of_range g cols rows) by (assumption || lia) ];
     unfold opened; try rewrite (get_out_of_range g cols rows) by (assumption || lia);
     reflexivity).
Qed.

(** ** Opening one cell *)

Lemma opened_set g cols rows px py v x y :
  dims g cols rows -> 0 <= px < cols -> 0 <= py < rows -> v <> WALL ->
  opened (Grid.set g px py v) x y
  = ((x =? px) && (y =? py)) || opened g x y.
Proof.
  intros Hd Hx Hy Hv. unfold opened.
  rewrite (get_set g cols rows) by assumption.
  destruct ((x =? px) && (y =? py)); [ | reflexivity ].
  destruct v; try contradiction; reflexivity.
Qed.

Lemma open_cell_counts g cols rows px py v :
  dims g cols rows -> 0 <= px < cols -> 0 <= py < rows -> v <> WALL ->
  opened g px py = false ->
  count_open (Grid.set g px py v) cols rows = count_open g cols rows + 1 /\
  count_adjacent (Grid.set g px py v) cols rows
  = count_adjacent g cols rows
    + Z.b2z (opened g (px + 1) py) + Z.b2z (opened g (px - 1) py)
    + Z.b2z (opened g px (py + 1)) + Z.b2z (opened g px (py - 1)).
Proof.
  intros Hd Hx Hy Hv Hp.
  pose proof (fun x y => opened_set g cols rows px py v x y Hd Hx Hy Hv) as Ho.
  split.
  - unfold count_open.
    rewrite (tally_ext _ _ _
               (fun x y => Z.b2z (opened g x y)
                           + (if (x =? px) && (y =? py) then 1 else 0))).
    + rewrite tally_add, tally_point by assumption. reflexivity.
    + intros x y _ _. rewrite Ho.
      destruct ((x =? px) && (y =? py)) eqn:E; simpl; [ | lia ].
      apply andb_true_iff in E. destruct E as [E1 E2].
      apply Z.eqb_eq in E1, E2. subst. rewrite Hp. reflexivity.
  - unfold count_adjacent.
    rewrite (tally_ext _ _ _
      (fun x y =>
         (Z.b2z (opened g x y && opened g (x + 1) y)
          + Z.b2z (opened g x y && opened g x (y + 1)))
         + ((if (x =? px) && (y =? py) then Z.b2z (opened g (px + 1) py) else 0)
            + ((if (x =? px - 1) && (y =? py) then Z.b2z (opened g (px - 1) py) else 0)
               + ((if (x =? px) && (y =? py) then Z.b2z (opened g px (py + 1)) else 0)
                  + (if (x =? px) && (y =? py - 1)
                     then Z.b2z (opened g px (py - 1)) else 0)))))).
    + rewrite !tally_add.
      rewrite (tally_point cols rows px py (Z.b2z (opened g (px + 1) py))) by assumption.
      rewrite (tally_point cols rows px py (Z.b2z (opened g px (py + 1)))) by assumption.
      rewrite !tally_point_open by assumption. ring.
    + intros x y _ _. rewrite !Ho.
      destruct (Z.eq_dec x px) as [->|Hxp]; destruct (Z.eq_dec y py) as [->|Hyp];
        [ | destruct (Z.eq_dec y (py - 1)) as [->|Hy1]
          | destruct (Z.eq_dec x (px - 1)) as [->|Hx1] | ];
        rewrite ?Z.sub_add, ?Hp;
        repeat match goal with
               | |- context [?a =? ?b] =>
                   first [ rewrite (Z.eqb_refl a)
                         | replace (a =? b) with false by (symmetry; apply Z.eqb_neq; lia) ]
               end;
        rewrite ?andb_false_r, ?andb_true_r, ?orb_false_r, ?orb_true_r;
        cbn [andb orb Z.b2z];
        repeat match goal with
               | |- context [opened g ?a ?b] => destruct (opened g a b)
               end;
        cbn [andb orb Z.b2z]; try lia.
      all: destruct (x + 1 =? px), (y + 1 =? py), (x =? px - 1), (y =? py - 1);
        cbn [andb orb Z.b2z]; lia.
Qed.

End CountProofs.

Module ConnectProofs.
Import MazeSpec GridProofs CountProofs.
#[local] Open Scope Z_scope.

(** ** Walks *)

Lemma adjacent_sym x y x' y' : adjacent x y x' y' -> adjacent x' y' x y.
Proof. unfold adjacent. lia. Qed.

Lemma connected_opened_l g x y x' y' : connected g x y x' y' -> opened g x y = true.
Proof. induction 1; assumption. Qed.

Lemma connected_opened_r g x y x' y' : connected g x y x' y' -> opened g x' y' = true.
Proof. induction 1; assumption. Qed.

Lemma connected_trans g x y x1 y1 x2 y2 :
  connected g x y x1 y1 -> connected g x1 y1 x2 y2 -> connected g x y x2 y2.
Proof.
  intros H1 H2. induction H2 as [ | a b c d _ IH Hadj Ho ].
  - exact H1.
  - eapply connected_step; [ exact IH | exact Hadj | exact Ho ].
Qed.

Lemma connected_sym g x y x' y' : connected g x y x' y' -> connected g x' y' x y.
Proof.
  induction 1 as [ | a b c d Hab IH Hadj Ho ].
  - now constructor.
  - eapply connected_trans; [ | exact IH ].
    eapply connected_step; [ constructor; exact Ho | apply adjacent_sym; exact Hadj | ].
    eapply connected_opened_r; exact Hab.
Qed.

Lemma connected_mono g g' x y x' y' :
  (forall a b, opened g a b = true -> opened g' a b = true) ->
  connected g x y x' y' -> connected g' x y x' y'.
Proof.
  intros Hm. induction 1 as [ | a b c d _ IH Hadj Ho ].
  - constructor. now apply Hm.
  - eapply connected_step; [ exact IH | exact Hadj | now apply Hm ].
Qed.

(** Opening a cell next to an open cell keeps every open cell reachable. *)
Lemma reachable_add g g' rx ry cx cy px py :
  all_reachable_from g rx ry ->
  (forall a b, opened g' a b = ((a =? cx) && (b =? cy)) || opened g a b) ->
  adjacent px py cx cy -> opened g px py = true ->
  all_reachable_from g' rx ry.
Proof.
  intros Hall Ho Hadj Hp a b Hab.
  assert (Hm : forall a b, opened g a b = true -> opened g' a b = true)
    by (intros u v Huv; rewrite Ho, Huv; apply orb_true_r).
  rewrite Ho in Hab. apply orb_true_iff in Hab. destruct Hab as [Hc|Hg].
  - apply andb_true_iff in Hc. destruct Hc as [E1 E2].
    apply Z.eqb_eq in E1, E2. subst a b.
    eapply connected_step; [ | exact Hadj | ].
    + eapply connected_mono; [ exact Hm | apply Hall; exact Hp ].
    + rewrite Ho, !Z.eqb_refl. reflexivity.
  - eapply connected_mono; [ exact Hm | apply Hall; exact Hg ].
Qed.

Lemma all_reachable_from_any g rx ry x y :
  all_reachable_from g rx ry -> opened g x y = true -> all_reachable_from g x y.
Proof.
  intros Hall Hxy a b Hab.
  eapply connected_trans; [ apply connected_sym, Hall, Hxy | apply Hall, Hab ].
Qed.

(** ** Parity *)

Lemma odd_mod x : Z.odd x = true <-> x mod 2 = 1.
Proof. rewrite Zmod_odd. destruct (Z.odd x); split; (discriminate || reflexivity). Qed.

Lemma even_mod x : Z.even x = true <-> x mod 2 = 0.
Proof. rewrite Zmod_even. destruct (Z.even x); split; (discriminate || reflexivity). Qed.

Ltac parity :=
  rewrite ?odd_mod, ?even_mod in *;
  Z.div_mod_to_equations; lia.

Lemma opened_get_path g x y : Grid.get g x y = Some PATH -> opened g x y = true.
Proof. unfold opened. now intros ->. Qed.

Lemma opened_get_wall g x y : Grid.get g x y = Some WALL -> opened g x y = false.
Proof. unfold opened. now intros ->. Qed.

Lemma directions_cases d :
  In d DIRECTIONS ->
  (dx d = 0 /\ (dy d = -1 \/ dy d = 1)) \/ (dy d = 0 /\ (dx d = 1 \/ dx d = -1)).
Proof.
  simpl. intros [<-|[<-|[<-|[<-|[]]]]]; simpl; lia.
Qed.

(** ** One carving keeps the maze a tree *)

Section Passage.
Variables (cols rows rx ry : Z) (g : Grid.t) (x y u v : Z).
Hypothesis Hc : carved cols rows rx ry g.
Hypothesis Hx : Z.odd x = true.
Hypothesis Hy : Z.odd y = true.
Hypothesis Hd : (u = 0 /\ (v = -1 \/ v = 1)) \/ (v = 0 /\ (u = 1 \/ u = -1)).
Hypothesis Hxy : opened g x y = true.
Hypothesis Hin : interior cols rows (x + u * 2) (y + v * 2).
Hypothesis Hn : opened g (x + u * 2) (y + v * 2) = false.

Let mx := x + u.
Let my := y + v.
Let nx := x + u * 2.
Let ny := y + v * 2.

Lemma passage_here_interior : interior cols rows x y.
Proof. exact (carved_interior _ _ _ _ _ Hc x y Hxy). Qed.

Lemma passage_middle_interior : interior cols rows mx my.
Proof.
  pose proof passage_here_interior as H. unfold interior, mx, my in *. lia.
Qed.

(** A cell with even [x] next to the target on its row, or with even [y]
    next to it on its column, is closed: it would be a passage into the
    target. *)
Lemma passage_beside_target a b :
  (b = ny /\ (a = nx - 1 \/ a = nx + 1)) \/ (a = nx /\ (b = ny - 1 \/ b = ny + 1)) ->
  opened g a b = false.
Proof.
  intros Hab. destruct (opened g a b) eqn:E; [ exfalso | reflexivity ].
  assert (Hnx : Z.odd nx = true) by (unfold nx; clear - Hx Hd; parity).
  assert (Hny : Z.odd ny = true) by (unfold ny; clear - Hy Hd; parity).
  destruct Hab as [[-> Ha]|[-> Hb]].
  - assert (He : Z.even a = true) by (clear - Hnx Ha; parity).
    destruct (carved_passage_h _ _ _ _ _ Hc a ny E He) as [P1 P2].
    destruct Ha as [->| ->].
    + replace (nx - 1 + 1) with nx in P2 by lia. unfold nx, ny in P2. congruence.
    + replace (nx + 1 - 1) with nx in P1 by lia. unfold nx, ny in P1. congruence.
  - assert (He : Z.even b = true) by (clear - Hny Hb; parity).
    destruct (carved_passage_v _ _ _ _ _ Hc nx b E He) as [P1 P2].
    destruct Hb as [->| ->].
    + replace (ny - 1 + 1) with ny in P2 by lia. unfold nx, ny in P2. congruence.
    + replace (ny + 1 - 1) with ny in P1 by lia. unfold nx, ny in P1. congruence.
Qed.

Lemma passage_middle_closed : opened g mx my = false.
Proof.
  apply passage_beside_target. unfold mx, my, nx, ny. clear - Hd. lia.
Qed.

(** A cell whose coordinates are both even is closed. *)
Lemma passage_pillar a b :
  Z.even a = true -> Z.even b = true -> opened g a b = false.
Proof.
  intros Ha Hb. destruct (opened g a b) eqn:E; [ exfalso | reflexivity ].
  destruct (carved_parity _ _ _ _ _ Hc a b E) as [H|H];
    rewrite <- Z.negb_even in H; [ rewrite Ha in H | rewrite Hb in H ]; discriminate.
Qed.

Lemma passage_opened1 a b :
  opened (Grid.set g mx my PATH) a b = ((a =? mx) && (b =? my)) || opened g a b.
Proof.
  pose proof passage_middle_interior as H. unfold interior in H.
  apply (opened_set g cols rows); try lia; [ apply (carved_dims _ _ _ _ _ Hc) | discriminate ].
Qed.

Lemma passage_opened2 a b :
  opened (Grid.set (Grid.set g mx my PATH) nx ny PATH) a b
  = ((a =? nx) && (b =? ny)) || (((a =? mx) && (b =? my)) || opened g a b).
Proof.
  rewrite <- passage_opened1. unfold interior in Hin.
  apply (opened_set _ cols rows); try (unfold nx, ny; lia); [ | discriminate ].
  apply dims_set, (carved_dims _ _ _ _ _ Hc).
Qed.

(** The middle cell has one open neighbour, the cell carved from. *)
Lemma passage_middle_neighbours :
  Z.b2z (opened g (mx + 1) my) + Z.b2z (opened g (mx - 1) my)
  + Z.b2z (opened g mx (my + 1)) + Z.b2z (opened g mx (my - 1)) = 1.
Proof.
  assert (Hhere : forall a b, a = x -> b = y -> opened g a b = true)
    by (intros a b -> ->; exact Hxy).
  assert (Hthere : forall a b, a = nx -> b = ny -> opened g a b = false)
    by (intros a b -> ->; exact Hn).
  assert (Hpil : forall a b, a mod 2 = 0 -> b mod 2 = 0 -> opened g a b = false)
    by (intros a b Ha Hb; apply passage_pillar; apply even_mod; assumption).
  apply odd_mod in Hx, Hy.
  unfold mx, my, nx, ny in *.
  destruct Hd as [[-> [-> | ->]] | [-> [-> | ->]]];
    repeat match goal with
           | |- context [opened g ?a ?b] =>
               first [ rewrite (Hhere a b) by lia
                     | rewrite (Hthere a b) by lia
                     | rewrite (Hpil a b) by (Z.div_mod_to_equations; lia) ]
           end; reflexivity.
Qed.

(** So has the target, once the middle cell is open. *)
Lemma passage_target_neighbours :
  let g1 := Grid.set g mx my PATH in
  Z.b2z (opened g1 (nx + 1) ny) + Z.b2z (opened g1 (nx - 1) ny)
  + Z.b2z (opened g1 nx (ny + 1)) + Z.b2z (opened g1 nx (ny - 1)) = 1.
Proof.
  cbv zeta. rewrite !passage_opened1.
  assert (Hb : forall a b,
             (b = ny /\ (a = nx - 1 \/ a = nx + 1)) \/ (a = nx /\ (b = ny - 1 \/ b = ny + 1)) ->
             (a, b) <> (mx, my) -> ((a =? mx) && (b =? my)) || opened g a b = false).
  { intros a b Hab Hne. rewrite (passage_beside_target a b Hab), orb_false_r.
    apply andb_false_iff.
    destruct (Z.eqb_spec a mx); [ right | left; reflexivity ].
    apply Z.eqb_neq. intros ->. apply Hne. now subst. }
  assert (Hm : forall a b, a = mx -> b = my -> ((a =? mx) && (b =? my)) || opened g a b = true)
    by (intros a b -> ->; now rewrite !Z.eqb_refl).
  unfold mx, my, nx, ny in *.
  destruct Hd as [[-> [-> | ->]] | [-> [-> | ->]]];
    repeat match goal with
           | |- context [((?a =? ?c) && (?b =? ?e)) || opened g ?a ?b] =>
               first [ rewrite (Hm a b) by lia
                     | rewrite (Hb a b) by (try lia; intros He; injection He; lia) ]
           end; reflexivity.
Qed.

Lemma open_passage :
  carved cols rows rx ry (Grid.set (Grid.set g mx my PATH) nx ny PATH).
Proof.
  pose proof passage_here_interior as Hi0.
  pose proof passage_middle_interior as Hi1.
  pose proof (carved_dims _ _ _ _ _ Hc) as Hdims.
  assert (Hdims1 : dims (Grid.set g mx my PATH) cols rows) by now apply dims_set.
  pose proof passage_opened2 as Ho2.
  assert (Hcases : forall a b,
             opened (Grid.set (Grid.set g mx my PATH) nx ny PATH) a b = true ->
             (a = nx /\ b = ny) \/ (a = mx /\ b = my) \/ opened g a b = true).
  { intros a b H. rewrite Ho2 in H.
    apply orb_true_iff in H. destruct H as [H|H].
    - apply andb_true_iff in H. left. split; apply Z.eqb_eq; tauto.
    - apply orb_true_iff in H. destruct H as [H|H]; [ | tauto ].
      apply andb_true_iff in H. right; left. split; apply Z.eqb_eq; tauto. }
  assert (Hmono : forall a b,
             opened g a b = true ->
             opened (Grid.set (Grid.set g mx my PATH) nx ny PATH) a b = true).
  { intros a b H. rewrite Ho2, H, !orb_true_r. reflexivity. }
  assert (Hom : opened (Grid.set (Grid.set g mx my PATH) nx ny PATH) mx my = true).
  { rewrite Ho2, !Z.eqb_refl. cbn. apply orb_true_r. }
  assert (Hon : opened (Grid.set (Grid.set g mx my PATH) nx ny PATH) nx ny = true).
  { rewrite Ho2, !Z.eqb_refl. reflexivity. }
  constructor.
  - now apply dims_set.
  - intros a b c. unfold interior in *.
    rewrite (get_set _ cols rows) by (assumption || (unfold nx, ny; lia)).
    destruct ((a =? nx) && (b =? ny)); [ intros [= <-]; now right | ].
    rewrite (get_set _ cols rows) by (assumption || lia).
    destruct ((a =? mx) && (b =? my)); [ intros [= <-]; now right | ].
    apply (carved_cells _ _ _ _ _ Hc).
  - intros a b H. destruct (Hcases a b H) as [[-> ->]|[[-> ->]|H']].
    + exact Hin.
    + exact Hi1.
    + exact (carved_interior _ _ _ _ _ Hc a b H').
  - intros a b H. destruct (Hcases a b H) as [[-> ->]|[[-> ->]|H']].
    + left. unfold nx. clear - Hx Hd. parity.
    + unfold mx, my. clear - Hx Hy Hd.
      destruct Hd as [[-> _]|[-> _]]; [ left | right ]; parity.
    + exact (carved_parity _ _ _ _ _ Hc a b H').
  - intros a b H He. destruct (Hcases a b H) as [[-> ->]|[[-> ->]|H']].
    + exfalso. unfold nx in He. clear - Hx Hd He. parity.
    + assert (Hu : v = 0 /\ (u = 1 \/ u = -1)).
      { unfold mx in He. clear - Hx Hd He.
        destruct Hd as [[-> _]|Hu]; [ exfalso; parity | exact Hu ]. }
      destruct Hu as [Hv [Hu|Hu]]; unfold mx, my, nx, ny in *; subst u v.
      * replace (x + 1 - 1) with x by lia. replace (x + 1 + 1) with (x + 1 * 2) by lia.
        replace (y + 0) with y in * by lia. replace (y + 0 * 2) with y in * by lia.
        split; [ now apply Hmono | exact Hon ].
      * replace (x + -1 + 1) with x by lia. replace (x + -1 - 1) with (x + -1 * 2) by lia.
        replace (y + 0) with y in * by lia. replace (y + 0 * 2) with y in * by lia.
        split; [ exact Hon | now apply Hmono ].
    + destruct (carved_passage_h _ _ _ _ _ Hc a b H' He) as [P1 P2].
      split; now apply Hmono.
  - intros a b H He. destruct (Hcases a b H) as [[-> ->]|[[-> ->]|H']].
    + exfalso. unfold ny in He. clear - Hy Hd He. parity.
    + assert (Hu : u = 0 /\ (v = -1 \/ v = 1)).
      { unfold my in He. clear - Hy Hd He.
        destruct Hd as [Hu|[-> _]]; [ exact Hu | exfalso; parity ]. }
      destruct Hu as [Hu [Hv|Hv]]; unfold mx, my, nx, ny in *; subst u v.
      * replace (y + -1 + 1) with y by lia. replace (y + -1 - 1) with (y + -1 * 2) by lia.
        replace (x + 0) with x in * by lia. replace (x + 0 * 2) with x in * by lia.
        split; [ exact Hon | now apply Hmono ].
      * replace (y + 1 - 1) with y by lia. replace (y + 1 + 1) with (y + 1 * 2) by lia.
        replace (x + 0) with x in * by lia. replace (x + 0 * 2) with x in * by lia.
        split; [ now apply Hmono | exact Hon ].
    + destruct (carved_passage_v _ _ _ _ _ Hc a b H' He) as [P1 P2].
      split; now apply Hmono.
  - apply Hmono, (carved_root _ _ _ _ _ Hc).
  - apply (reachable_add (Grid.set g mx my PATH) _ rx ry nx ny mx my).
    + apply (reachable_add g _ rx ry mx my x y).
      * exact (carved_connected _ _ _ _ _ Hc).
      * exact passage_opened1.
      * unfold adjacent, mx, my. clear - Hd. lia.
      * exact Hxy.
    + intros a b. rewrite Ho2, passage_opened1. reflexivity.
    + unfold adjacent, mx, my, nx, ny. clear - Hd. lia.
    + rewrite passage_opened1, !Z.eqb_refl. reflexivity.
  - unfold tree_count, interior in *.
    destruct (open_cell_counts g cols rows mx my PATH) as [V1 E1];
      try assumption; try lia; try discriminate; [ exact passage_middle_closed | ].
    destruct (open_cell_counts (Grid.set g mx my PATH) cols rows nx ny PATH) as [V2 E2];
      try assumption; try (unfold nx, ny; lia); try discriminate.
    { rewrite passage_opened1. fold nx ny in Hn. unfold nx, ny in *. rewrite Hn, orb_false_r.
      apply andb_false_iff. unfold mx, my. clear - Hd.
      destruct (Z.eqb_spec (x + u * 2) (x + u)); [ right | now left ].
      apply Z.eqb_neq. lia. }
    pose proof passage_middle_neighbours as N1.
    pose proof passage_target_neighbours as N2. cbv zeta in N2.
    pose proof (carved_tree _ _ _ _ _ Hc) as T. unfold tree_count in T.
    rewrite V2, V1, E2, E1. lia.
Qed.

Lemma passage_count_middle :
  count_open (Grid.set g mx my PATH) cols rows = count_open g cols rows + 1.
Proof.
  pose proof passage_middle_interior as Hi. unfold interior in Hi.
  apply open_cell_counts; try lia; try discriminate.
  - exact (carved_dims _ _ _ _ _ Hc).
  - exact passage_middle_closed.
Qed.

Lemma passage_target_closed : opened (Grid.set g mx my PATH) nx ny = false.
Proof.
  rewrite passage_opened1. fold nx ny in Hn. rewrite Hn, orb_false_r.
  apply andb_false_iff. unfold mx, my, nx, ny. clear - Hd.
  destruct (Z.eqb_spec (x + u * 2) (x + u)); [ right | now left ].
  apply Z.eqb_neq. lia.
Qed.

Lemma passage_count_target :
  count_open (Grid.set (Grid.set g mx my PATH) nx ny PATH) cols rows
  = count_open g cols rows + 2.
Proof.
  unfold interior in Hin.
  destruct (open_cell_counts (Grid.set g mx my PATH) cols rows nx ny PATH) as [V2 _];
    try (unfold nx, ny; lia); try discriminate.
  - apply dims_set, (carved_dims _ _ _ _ _ Hc).
  - exact passage_target_closed.
  - rewrite V2, passage_count_middle. lia.
Qed.

End Passage.

Lemma sum_range_le n f c :
  (forall k, f k <= c) -> sum_range n f <= Z.of_nat n * c.
Proof.
  intros H. induction n as [|n IH]; simpl sum_range; [ lia | ].
  specialize (H (Z.of_nat n)). lia.
Qed.

Lemma count_open_le g cols rows :
  0 <= cols -> 0 <= rows -> count_open g cols rows <= cols * rows.
Proof.
  intros Hc Hr. unfold count_open, tally.
  eapply Z.le_trans.
  - apply (sum_range_le _ _ cols). intros y.
    eapply Z.le_trans; [ apply (sum_range_le _ _ 1) | lia ].
    intros x. destruct (opened g x y); simpl; lia.
  - lia.
Qed.

Lemma carve_step_carved cols rows rx ry g g' :
  carved cols rows rx ry g -> carve_step cols rows g g' -> carved cols rows rx ry g'.
Proof.
  intros Hc Hs. destruct Hs as [x y d Hx Hy Hd Hxy Hin Hn].
  apply (open_passage cols rows rx ry g x y (dx d) (dy d)); try assumption.
  - now apply directions_cases.
  - now apply opened_get_path.
  - now apply opened_get_wall.
Qed.

Lemma carve_step_count cols rows rx ry g g' :
  carved cols rows rx ry g -> carve_step cols rows g g' ->
  count_open g' cols rows = count_open g cols rows + 2.
Proof.
  intros Hc Hs. destruct Hs as [x y d Hx Hy Hd Hxy Hin Hn].
  apply (passage_count_target cols rows rx ry g x y (dx d) (dy d)); try assumption.
  - now apply directions_cases.
  - now apply opened_get_path.
  - now apply opened_get_wall.
Qed.

Lemma carve_step_mono cols rows rx ry g g' :
  carved cols rows rx ry g -> carve_step cols rows g g' ->
  forall a b, opened g a b = true -> opened g' a b = true.
Proof.
  intros Hc Hs a b Hab. destruct Hs as [x y d Hx Hy Hd Hxy Hin Hn].
  rewrite (passage_opened2 cols rows rx ry g x y (dx d) (dy d))
    by first [ assumption | now apply directions_cases
             | now apply opened_get_path | now apply opened_get_wall ].
  rewrite Hab, !orb_true_r. reflexivity.
Qed.

(** ** Sequences of carvings *)

Lemma carves_facts cols rows rx ry g g' :
  carved cols rows rx ry g ->
  clos_refl_trans _ (carve_step cols rows) g g' ->
  carved cols rows rx ry g' /\
  count_open g cols rows <= count_open g' cols rows /\
  (forall a b, opened g a b = true -> opened g' a b = true).
Proof.
  intros Hc Hs. apply clos_rt_rtn1 in Hs.
  induction Hs as [ | g1 g2 Hstep _ IH ].
  - split; [ exact Hc | split; [ lia | auto ] ].
  - destruct IH as (Hc1 & Hcount & Hmono).
    split; [ | split ].
    + eapply carve_step_carved; eassumption.
    + rewrite (carve_step_count _ _ _ _ _ _ Hc1 Hstep). lia.
    + intros a b H. eapply carve_step_mono; [ exact Hc1 | exact Hstep | auto ].
Qed.

Lemma closed_node_mono cols rows g g' x y :
  (forall a b, opened g a b = true -> opened g' a b = true) ->
  closed_node cols rows g x y -> closed_node cols rows g' x y.
Proof. intros Hm Hcl d Hd Hin. apply Hm, Hcl; assumption. Qed.

End ConnectProofs.

Module CarveProofs.
Import MazeSpec GridProofs CountProofs ConnectProofs RandomProofs MazeGenerator.
#[local] Open Scope Z_scope.

(** ** The test of [_carve] *)

Lemma cell_is_true g x y c : Grid.cell_is g x y c = true <-> Grid.get g x y = Some c.
Proof.
  unfold Grid.cell_is. destruct (Grid.get g x y) as [c'|]; [ | split; discriminate ].
  destruct c, c'; simpl; split; intros H; congruence.
Qed.

Lemma carve_test_true m nx ny :
  (0 <? nx) && (nx <? cols m - 1) && (0 <? ny) && (ny <? rows m - 1)
  && Grid.cell_is (grid m) nx ny WALL = true <->
  interior (cols m) (rows m) nx ny /\ Grid.get (grid m) nx ny = Some WALL.
Proof.
  rewrite !andb_true_iff, !Z.ltb_lt, cell_is_true. unfold interior. tauto.
Qed.

(** ** The loop over the shuffled directions *)

Section Loop.
Variables (C R rx ry : Z) (f : nat).
Hypothesis Hrec :
  forall x y m, carve_pre C R rx ry f m x y ->
                exists m', _carve f x y m = Ok m' /\ carve_post C R m x y m'.
Variables (x y : Z).
Hypothesis Hx : Z.odd x = true.
Hypothesis Hy : Z.odd y = true.

Lemma carve_loop_spec :
  forall ds m,
    Forall (fun o => exists d, o = Some d /\ In d DIRECTIONS) ds ->
    cols m = C -> rows m = R -> 0 <= rng m ->
    carved C R rx ry (grid m) -> opened (grid m) x y = true ->
    C * R - count_open (grid m) C R <= Z.of_nat f ->
    exists m',
      carve_loop (_carve f) x y ds m = Ok m' /\
      cols m' = C /\ rows m' = R /\ 0 <= rng m' /\
      clos_refl_trans _ (carve_step C R) (grid m) (grid m') /\
      (forall d, In (Some d) ds ->
                 interior C R (x + dx d * 2) (y + dy d * 2) ->
                 opened (grid m') (x + dx d * 2) (y + dy d * 2) = true) /\
      (forall a b, Z.odd a = true -> Z.odd b = true ->
                   opened (grid m) a b = false -> opened (grid m') a b = true ->
                   closed_node C R (grid m') a b).
Proof.
  induction ds as [|o ds IH]; intros m Hds Hc Hr Hs Hcv Hxy Hfuel.
  - exists m. simpl. repeat split; try assumption.
    + apply rt_refl.
    + intros d [].
    + intros a b _ _ H1 H2. congruence.
  - apply Forall_cons_iff in Hds. destruct Hds as [(d & -> & Hd) Hds'].
    cbn [carve_loop].
    set (nx := x + dx d * 2). set (ny := y + dy d * 2).
    destruct ((0 <? nx) && (nx <? cols m - 1) && (0 <? ny) && (ny <? rows m - 1)
              && Grid.cell_is (grid m) nx ny WALL) eqn:Etest.
    + (* carve into the neighbour *)
      apply carve_test_true in Etest. destruct Etest as [Hin Hwall].
      rewrite Hc, Hr in Hin.
      pose proof (directions_cases d Hd) as Hdir.
      pose proof (opened_get_wall _ _ _ Hwall) as Hn.
      set (g1 := Grid.set (grid m) (x + dx d) (y + dy d) PATH).
      assert (Hstep : carve_step C R (grid m) (Grid.set g1 nx ny PATH)).
      { apply carve_step_intro; try assumption.
        unfold opened in Hxy.
        destruct (Grid.get (grid m) x y) as [c|] eqn:E; [ | discriminate ].
        destruct (carved_cells _ _ _ _ _ Hcv x y c E) as [-> | ->];
          [ discriminate | reflexivity ]. }
      destruct (Hrec nx ny (set_grid g1 m)) as (m1 & Hm1 & Hpost).
      { unfold carve_pre. cbn [cols rows rng grid set_grid].
        repeat match goal with |- _ /\ _ => split end; try assumption.
        - unfold nx. clear - Hx Hdir. parity.
        - unfold ny. clear - Hy Hdir. parity.
        - apply (passage_target_closed C R rx ry (grid m) x y (dx d) (dy d));
            assumption.
        - apply dims_set, (carved_dims _ _ _ _ _ Hcv).
        - eapply carve_step_carved; [ exact Hcv | exact Hstep ].
        - unfold g1.
          rewrite (passage_count_middle C R rx ry (grid m) x y (dx d) (dy d))
            by assumption.
          pose proof (passage_count_target C R rx ry (grid m) x y (dx d) (dy d)
                        Hcv Hx Hy Hdir Hxy Hin Hn) as Hc2.
          pose proof (carved_dims _ _ _ _ _ Hcv) as Hdm.
          unfold interior in Hin.
          pose proof (count_open_le
                        (Grid.set (Grid.set (grid m) (x + dx d) (y + dy d) PATH)
                                  (x + dx d * 2) (y + dy d * 2) PATH) C R
                        ltac:(lia) ltac:(lia)) as Hle.
          lia. }
      rewrite Hm1.
      destruct Hpost as (Hc1 & Hr1 & Hs1 & Hsteps1 & Hclosed1).
      cbn [grid set_grid] in Hsteps1, Hclosed1.
      assert (Hcv0 : carved C R rx ry (Grid.set g1 nx ny PATH))
        by (eapply carve_step_carved; [ exact Hcv | exact Hstep ]).
      destruct (carves_facts _ _ _ _ _ _ Hcv0 Hsteps1) as (Hcv1 & Hcnt1 & Hmono1).
      pose proof (carve_step_mono _ _ _ _ _ _ Hcv Hstep) as Hmono0.
      pose proof (carve_step_count _ _ _ _ _ _ Hcv Hstep) as Hcnt0.
      destruct (IH m1 Hds' Hc1 Hr1 Hs1 Hcv1) as (m' & Hm' & Hc' & Hr' & Hs' & Hsteps' & Hdirs' & Hclosed').
      { apply Hmono1, Hmono0, Hxy. }
      { lia. }
      destruct (carves_facts _ _ _ _ _ _ Hcv1 Hsteps') as (_ & _ & Hmono').
      exists m'. split; [ exact Hm' | ].
      repeat match goal with |- _ /\ _ => split end; try assumption.
      * eapply rt_trans; [ apply rt_step; exact Hstep | ].
        eapply rt_trans; [ exact Hsteps1 | exact Hsteps' ].
      * intros d' [[= <-]|Hin'] Hint.
        -- apply Hmono', Hmono1.
           rewrite (passage_opened2 C R rx ry (grid m) x y (dx d) (dy d)) by assumption.
           fold nx ny. rewrite !Z.eqb_refl. reflexivity.
        -- apply Hdirs'; assumption.
      * intros a b Ha Hb H0 H'.
        destruct (opened (grid m1) a b) eqn:E1.
        -- eapply closed_node_mono; [ exact Hmono' | ].
           apply Hclosed1; try assumption.
           unfold g1.
           rewrite (passage_opened1 C R rx ry (grid m) x y (dx d) (dy d)) by assumption.
           rewrite H0, orb_false_r. apply andb_false_iff.
           destruct (Z.eqb_spec a (x + dx d)) as [Ea|Ea]; [ right | now left ].
           apply Z.eqb_neq. intros Eb. clear - Ha Hb Hx Hy Hdir Ea Eb. parity.
        -- apply Hclosed'; assumption.
    + (* the neighbour is outside, or already carved *)
      destruct (IH m Hds' Hc Hr Hs Hcv Hxy Hfuel)
        as (m' & Hm' & Hc' & Hr' & Hs' & Hsteps' & Hdirs' & Hclosed').
      destruct (carves_facts _ _ _ _ _ _ Hcv Hsteps') as (_ & _ & Hmono').
      exists m'. split; [ exact Hm' | ].
      repeat match goal with |- _ /\ _ => split end; try assumption.
      intros d' [[= <-]|Hin'] Hint; [ | apply Hdirs'; assumption ].
      apply Hmono'. fold nx ny in Hint |- *.
      destruct (opened (grid m) nx ny) eqn:E; [ reflexivity | exfalso ].
      assert (Hw : Grid.get (grid m) nx ny = Some WALL).
      { unfold interior in Hint.
        destruct (get_in_range (grid m) C R nx ny) as [c Hcell];
          [ apply (carved_dims _ _ _ _ _ Hcv) | lia | lia | ].
        unfold opened in E. rewrite Hcell in E. rewrite Hcell.
        destruct c; simpl in E; congruence. }
      assert (Ht : (0 <? nx) && (nx <? cols m - 1) && (0 <? ny) && (ny <? rows m - 1)
                   && Grid.cell_is (grid m) nx ny WALL = true).
      { apply carve_test_true. rewrite Hc, Hr. split; assumption. }
      congruence.
Qed.

End Loop.

(** ** _carve *)

Lemma count_open_nonneg g cols rows : 0 <= count_open g cols rows.
Proof.
  unfold count_open, tally.
  assert (H : forall n f, (forall k, 0 <= f k) -> 0 <= sum_range n f).
  { induction n as [|n IH]; intros f0 Hf; simpl; [ lia | ].
    specialize (IH f0 Hf). specialize (Hf (Z.of_nat n)). lia. }
  apply H. intros y0. apply H. intros x0. destruct (opened g x0 y0); simpl; lia.
Qed.

Lemma carve_spec C R rx ry :
  forall fuel x y m,
    carve_pre C R rx ry fuel m x y ->
    exists m', _carve fuel x y m = Ok m' /\ carve_post C R m x y m'.
Proof.
  induction fuel as [|f IHf];
    intros x y m (Hc & Hr & Hs & Hx & Hy & Hin & Hclosed & Hdims & Hcv & Hfuel).
  - exfalso. unfold interior in Hin.
    destruct (open_cell_counts (grid m) C R x y PATH) as [V _];
      try assumption; try lia; try discriminate.
    pose proof (count_open_le (Grid.set (grid m) x y PATH) C R ltac:(lia) ltac:(lia)).
    lia.
  - cbn [_carve].
    set (g1 := Grid.set (grid m) x y PATH) in *.
    cbn [rng set_grid].
    destruct (shuffle_spec DIRECTIONS (rng m) Hs) as [Hseed Hds].
    destruct (SeededRandom.shuffle DIRECTIONS (rng m)) as [ds seed].
    cbn [fst snd] in Hseed, Hds.
    assert (Ho1 : forall a b, opened g1 a b = ((a =? x) && (b =? y)) || opened (grid m) a b).
    { intros a b. unfold interior in Hin.
      apply (opened_set _ C R); try assumption; try lia. discriminate. }
    destruct (carve_loop_spec C R rx ry f IHf x y Hx Hy ds
                (set_rng seed (set_grid g1 m)))
      as (m' & Hm' & Hc' & Hr' & Hs' & Hsteps & Hdirs & Hnodes);
      try assumption.
    + apply Forall_forall. intros o Ho. apply Hds. exact Ho.
    + cbn [grid set_rng set_grid]. rewrite Ho1, !Z.eqb_refl. reflexivity.
    + cbn [grid set_rng set_grid]. unfold interior in Hin.
      destruct (open_cell_counts (grid m) C R x y PATH) as [V _];
        try assumption; try lia; try discriminate.
      fold g1 in V. lia.
    + exists m'. split; [ exact Hm' | ].
      cbn [grid set_rng set_grid] in Hsteps, Hnodes.
      unfold carve_post. repeat match goal with |- _ /\ _ => split end;
        try assumption.
      intros a b Ha Hb H0 H'.
      destruct ((a =? x) && (b =? y)) eqn:E.
      * apply andb_true_iff in E. destruct E as [E1 E2].
        apply Z.eqb_eq in E1, E2. subst a b.
        intros d Hd Hint. apply Hdirs; [ | exact Hint ].
        apply Hds. exists d. split; [ reflexivity | exact Hd ].
      * apply Hnodes; try assumption. rewrite Ho1, E, H0. reflexivity.
Qed.

(** ** The grid before carving *)

Lemma opened_walls cols rows a b :
  opened (repeat (repeat WALL (Z.to_nat cols)) (Z.to_nat rows)) a b = false.
Proof.
  unfold opened.
  destruct (Grid.get _ a b) as [c|] eqn:E; [ | reflexivity ].
  apply get_walls in E. now subst.
Qed.

Lemma tally_zero cols rows f :
  (forall a b, f a b = 0) -> tally cols rows f = 0.
Proof.
  intros H. unfold tally.
  rewrite (sum_range_ext _ _ (fun _ => 0)); [ apply sum_range_zero | ].
  intros b _. rewrite (sum_range_ext _ _ (fun _ => 0)); [ apply sum_range_zero | ].
  intros a _. apply H.
Qed.

Lemma carved_start cols rows rx ry :
  Z.odd rx = true -> Z.odd ry = true -> interior cols rows rx ry ->
  carved cols rows rx ry
         (Grid.set (repeat (repeat WALL (Z.to_nat cols)) (Z.to_nat rows)) rx ry PATH).
Proof.
  intros Hx Hy Hin.
  set (g0 := repeat (repeat WALL (Z.to_nat cols)) (Z.to_nat rows)).
  assert (Hd0 : dims g0 cols rows) by apply dims_walls.
  pose proof Hin as Hin'. unfold interior in Hin'.
  assert (Ho : forall a b, opened (Grid.set g0 rx ry PATH) a b = (a =? rx) && (b =? ry)).
  { intros a b. rewrite (opened_set _ cols rows) by (assumption || lia || discriminate).
    unfold g0. rewrite opened_walls. apply orb_false_r. }
  assert (Hat : forall a b, opened (Grid.set g0 rx ry PATH) a b = true -> a = rx /\ b = ry).
  { intros a b H. rewrite Ho in H. apply andb_true_iff in H.
    split; apply Z.eqb_eq; tauto. }
  constructor.
  - now apply dims_set.
  - intros a b c. rewrite (get_set _ cols rows) by (assumption || lia).
    destruct ((a =? rx) && (b =? ry)); [ intros [= <-]; now right | ].
    intros H. apply get_walls in H. now left.
  - intros a b H. destruct (Hat a b H) as [-> ->]. exact Hin.
  - intros a b H. destruct (Hat a b H) as [-> ->]. now left.
  - intros a b H He. destruct (Hat a b H) as [-> ->]. exfalso. clear - Hx He. parity.
  - intros a b H He. destruct (Hat a b H) as [-> ->]. exfalso. clear - Hy He. parity.
  - rewrite Ho, !Z.eqb_refl. reflexivity.
  - intros a b H. destruct (Hat a b H) as [-> ->]. constructor. exact H.
  - unfold tree_count.
    destruct (open_cell_counts g0 cols rows rx ry PATH) as [V E];
      try assumption; try lia; try discriminate; [ apply opened_walls | ].
    rewrite V, E. unfold g0. rewrite !opened_walls. simpl Z.b2z.
    unfold count_adjacent, count_open.
    rewrite !tally_zero; [ reflexivity | | ]; intros a b; rewrite ?opened_walls; reflexivity.
Qed.

(** ** _generateMaze *)

Lemma start_column_spec cols :
  5 <= cols -> Z.odd (start_column cols) = true /\ 0 < start_column cols < cols - 1.
Proof.
  intros H. unfold start_column. rewrite LayoutProofs.rem2_even.
  destruct (Z.even (cols / 2)) eqn:E.
  - split.
    + rewrite Z.odd_add, <- Z.negb_even, E. reflexivity.
    + Z.div_mod_to_equations. lia.
  - split.
    + rewrite <- Z.negb_even, E. reflexivity.
    + Z.div_mod_to_equations. lia.
Qed.

Lemma generateMaze_spec m :
  5 <= cols m -> 3 <= rows m -> 0 <= rng m ->
  exists m',
    _generateMaze m = Ok m' /\
    cols m' = cols m /\ rows m' = rows m /\ 0 <= rng m' /\
    carved (cols m) (rows m) (start_column (cols m)) 1 (grid m') /\
    (forall a b, Z.odd a = true -> Z.odd b = true ->
                 opened (grid m') a b = true ->
                 closed_node (cols m) (rows m) (grid m') a b).
Proof.
  intros Hc Hr Hs.
  destruct (start_column_spec (cols m) Hc) as [Hodd Hrange].
  unfold _generateMaze. cbv zeta. fold (start_column (cols m)).
  set (g0 := repeat (repeat WALL (Z.to_nat (cols m))) (Z.to_nat (rows m))).
  cbn [cols rows set_grid].
  assert (Hin : interior (cols m) (rows m) (start_column (cols m)) 1)
    by (unfold interior; lia).
  pose proof (carved_start (cols m) (rows m) _ 1 Hodd eq_refl Hin) as Hstart.
  fold g0 in Hstart.
  destruct (carve_spec (cols m) (rows m) (start_column (cols m)) 1
              (carve_fuel (set_grid g0 m)) (start_column (cols m)) 1 (set_grid g0 m))
    as (m' & Hm' & Hc' & Hr' & Hs' & Hsteps & Hnodes).
  { unfold carve_pre. cbn [cols rows rng grid set_grid].
    repeat match goal with |- _ /\ _ => split end; try assumption; try reflexivity.
    - apply opened_walls.
    - apply dims_walls.
    - pose proof (count_open_nonneg g0 (cols m) (rows m)).
      unfold carve_fuel. cbn [cols rows set_grid]. nia. }
  cbn [grid set_grid] in Hsteps, Hnodes.
  destruct (carves_facts _ _ _ _ _ _ Hstart Hsteps) as (Hcv & _ & _).
  exists m'. repeat match goal with |- _ /\ _ => split end; try assumption.
  intros a b Ha Hb Hab. apply Hnodes; try assumption. apply opened_walls.
Qed.

(** The carving reaches every cell at odd coordinates inside the border. *)
Lemma column_reached cols rows g x y :
  (forall a b, Z.odd a = true -> Z.odd b = true -> opened g a b = true ->
               closed_node cols rows g a b) ->
  Z.odd x = true -> Z.odd y = true -> opened g x y = true ->
  forall k : nat,
    (y + 2 * Z.of_nat k < rows - 1 -> 0 < x < cols - 1 -> 0 < y ->
     opened g x (y + 2 * Z.of_nat k) = true) /\
    (0 < y - 2 * Z.of_nat k -> 0 < x < cols - 1 -> y < rows - 1 ->
     opened g x (y - 2 * Z.of_nat k) = true).
Proof.
  intros Hcl Hx Hy Hxy. induction k as [|k [IHd IHu]].
  - replace (y + 2 * Z.of_nat 0) with y by lia.
    replace (y - 2 * Z.of_nat 0) with y by lia. split; intros; exact Hxy.
  - split; intros Hk Hxr Hyr.
    + assert (Hprev : opened g x (y + 2 * Z.of_nat k) = true) by (apply IHd; lia).
      assert (Hoy : Z.odd (y + 2 * Z.of_nat k) = true) by (rewrite Z.odd_add_mul_2; exact Hy).
      pose proof (Hcl _ _ Hx Hoy Hprev (mkDirection 0 1 "down")) as H.
      cbn [dx dy] in H.
      replace (x + 0 * 2) with x in H by lia.
      replace (y + 2 * Z.of_nat k + 1 * 2) with (y + 2 * Z.of_nat (S k)) in H by lia.
      apply H; [ simpl; tauto | unfold interior; lia ].
    + assert (Hprev : opened g x (y - 2 * Z.of_nat k) = true) by (apply IHu; lia).
      assert (Hoy : Z.odd (y - 2 * Z.of_nat k) = true).
      { replace (y - 2 * Z.of_nat k) with (y + 2 * (- Z.of_nat k)) by lia.
        rewrite Z.odd_add_mul_2. exact Hy. }
      pose proof (Hcl _ _ Hx Hoy Hprev (mkDirection 0 (-1) "up")) as H.
      cbn [dx dy] in H.
      replace (x + 0 * 2) with x in H by lia.
      replace (y - 2 * Z.of_nat k + -1 * 2) with (y - 2 * Z.of_nat (S k)) in H by lia.
      apply H; [ simpl; tauto | unfold interior; lia ].
Qed.

Lemma row_reached cols rows g x y :
  (forall a b, Z.odd a = true -> Z.odd b = true -> opened g a b = true ->
               closed_node cols rows g a b) ->
  Z.odd x = true -> Z.odd y = true -> opened g x y = true ->
  forall k : nat,
    (x + 2 * Z.of_nat k < cols - 1 -> 0 < y < rows - 1 -> 0 < x ->
     opened g (x + 2 * Z.of_nat k) y = true) /\
    (0 < x - 2 * Z.of_nat k -> 0 < y < rows - 1 -> x < cols - 1 ->
     opened g (x - 2 * Z.of_nat k) y = true).
Proof.
  intros Hcl Hx Hy Hxy. induction k as [|k [IHr IHl]].
  - replace (x + 2 * Z.of_nat 0) with x by lia.
    replace (x - 2 * Z.of_nat 0) with x by lia. split; intros; exact Hxy.
  - split; intros Hk Hyr Hxr.
    + assert (Hprev : opened g (x + 2 * Z.of_nat k) y = true) by (apply IHr; lia).
      assert (Hox : Z.odd (x + 2 * Z.of_nat k) = true) by (rewrite Z.odd_add_mul_2; exact Hx).
      pose proof (Hcl _ _ Hox Hy Hprev (mkDirection 1 0 "right")) as H.
      cbn [dx dy] in H.
      replace (y + 0 * 2) with y in H by lia.
      replace (x + 2 * Z.of_nat k + 1 * 2) with (x + 2 * Z.of_nat (S k)) in H by lia.
      apply H; [ simpl; tauto | unfold interior; lia ].
    + assert (Hprev : opened g (x - 2 * Z.of_nat k) y = true) by (apply IHl; lia).
      assert (Hox : Z.odd (x - 2 * Z.of_nat k) = true).
      { replace (x - 2 * Z.of_nat k) with (x + 2 * (- Z.of_nat k)) by lia.
        rewrite Z.odd_add_mul_2. exact Hx. }
      pose proof (Hcl _ _ Hox Hy Hprev (mkDirection (-1) 0 "left")) as H.
      cbn [dx dy] in H.
      replace (y + 0 * 2) with y in H by lia.
      replace (x - 2 * Z.of_nat k + -1 * 2) with (x - 2 * Z.of_nat (S k)) in H by lia.
      apply H; [ simpl; tauto | unfold interior; lia ].
Qed.

(** Every cell at odd coordinates inside the border is open after
    [_generateMaze]. *)
Lemma all_nodes_reached cols rows g rx :
  (forall a b, Z.odd a = true -> Z.odd b = true -> opened g a b = true ->
               closed_node cols rows g a b) ->
  Z.odd rx = true -> 0 < rx < cols - 1 -> 2 < rows -> opened g rx 1 = true ->
  forall a b, Z.odd a = true -> Z.odd b = true -> interior cols rows a b ->
              opened g a b = true.
Proof.
  intros Hcl Hrx Hrange Hrows Hroot a b Ha Hb [Har Hbr].
  assert (Hrow : opened g a 1 = true).
  { apply odd_mod in Ha, Hrx.
    destruct (Z_le_dec rx a) as [Hle|Hgt].
    - destruct (row_reached cols rows g rx 1 Hcl ltac:(now apply odd_mod) eq_refl Hroot
                  (Z.to_nat ((a - rx) / 2))) as [H _].
      replace (rx + 2 * Z.of_nat (Z.to_nat ((a - rx) / 2))) with a in H
        by (rewrite Z2Nat.id by (Z.div_mod_to_equations; lia);
            Z.div_mod_to_equations; lia).
      apply H; lia.
    - destruct (row_reached cols rows g rx 1 Hcl ltac:(now apply odd_mod) eq_refl Hroot
                  (Z.to_nat ((rx - a) / 2))) as [_ H].
      replace (rx - 2 * Z.of_nat (Z.to_nat ((rx - a) / 2))) with a in H
        by (rewrite Z2Nat.id by (Z.div_mod_to_equations; lia);
            Z.div_mod_to_equations; lia).
      apply H; lia. }
  destruct (column_reached cols rows g a 1 Hcl Ha eq_refl Hrow
              (Z.to_nat ((b - 1) / 2))) as [H _].
  apply odd_mod in Hb.
  replace (1 + 2 * Z.of_nat (Z.to_nat ((b - 1) / 2))) with b in H
    by (rewrite Z2Nat.id by (Z.div_mod_to_equations; lia);
        Z.div_mod_to_equations; lia).
  apply H; lia.
Qed.

End CarveProofs.

Module ExitProofs.
Import MazeSpec GridProofs CountProofs ConnectProofs CarveProofs MazeGenerator.
#[local] Open Scope Z_scope.

(** ** The search for the nearest Path cell *)

Lemma in_range lo hi a : In a (range lo hi) <-> lo <= a < hi.
Proof.
  unfold range. rewrite in_map_iff. split.
  - intros (k & <- & Hk). apply in_seq in Hk. lia.
  - intros H. exists (Z.to_nat (a - lo)). split; [ lia | ].
    apply in_seq. lia.
Qed.

Lemma nearest_fold g row target l :
  forall acc,
    let r := fold_left (nearest_step g row target) l acc in
    (snd acc <> None -> snd r <> None) /\
    ((exists a, In a l /\ Grid.get g a row = Some PATH) -> snd r <> None) /\
    (snd r <> None ->
     (fst r = fst acc /\ snd acc <> None) \/
     (In (fst r) l /\ Grid.get g (fst r) row = Some PATH)).
Proof.
  induction l as [|a l IH]; intros acc; cbn [fold_left].
  - repeat split; [ tauto | intros (a & [] & _) | tauto ].
  - destruct (IH (nearest_step g row target acc a)) as (H1 & H2 & H3).
    cbv zeta in *.
    set (r := fold_left (nearest_step g row target) l (nearest_step g row target acc a)) in *.
    assert (Hstep : (snd acc <> None -> snd (nearest_step g row target acc a) <> None) /\
                    (Grid.get g a row = Some PATH ->
                     snd (nearest_step g row target acc a) <> None) /\
                    (nearest_step g row target acc a = acc \/
                     (fst (nearest_step g row target acc a) = a /\
                      Grid.get g a row = Some PATH))).
    { unfold nearest_step. destruct acc as [b md]. cbn [fst snd].
      destruct (Grid.cell_is g a row PATH) eqn:E.
      - apply cell_is_true in E.
        destruct md as [dist|]; [ destruct (Z.abs (a - target) <? dist) | ];
          cbn [fst snd]; repeat split; try discriminate; try tauto.
      - repeat split; try tauto.
        intros H. apply cell_is_true in H. congruence. }
    destruct Hstep as (S1 & S2 & S3).
    repeat split.
    + intros H. apply H1, S1, H.
    + intros (a' & [<-|Hin] & Hp).
      * apply H1, S2, Hp.
      * apply H2. exists a'. tauto.
    + intros Hr. destruct (H3 Hr) as [[Hf Hs]|[Hin Hp]].
      * destruct S3 as [Heq|[Hfa Hp]].
        -- rewrite Heq in Hf, Hs. left. tauto.
        -- right. split; [ left; congruence | congruence ].
      * right. split; [ right; exact Hin | exact Hp ].
Qed.

Lemma nearest_path_spec g cols rows target :
  (exists a, 1 <= a < cols - 1 /\ Grid.get g a (rows - 2) = Some PATH) ->
  1 <= nearest_path g cols rows target < cols - 1 /\
  Grid.get g (nearest_path g cols rows target) (rows - 2) = Some PATH.
Proof.
  intros (a & Ha & Hp). unfold nearest_path.
  destruct (nearest_fold g (rows - 2) target (range 1 (cols - 1)) (target, None))
    as (_ & H2 & H3).
  cbv zeta in *.
  assert (Hsome : snd (fold_left (nearest_step g (rows - 2) target)
                                 (range 1 (cols - 1)) (target, None)) <> None).
  { apply H2. exists a. split; [ apply in_range; exact Ha | exact Hp ]. }
  destruct (H3 Hsome) as [[_ Hn]|[Hin Hpath]]; [ now cbn in Hn | ].
  apply in_range in Hin. split; assumption.
Qed.

(** ** Opening the entry and the exits *)

Lemma reachable_add_open g g' rx ry cx cy :
  all_reachable_from g rx ry ->
  (forall a b, opened g' a b = ((a =? cx) && (b =? cy)) || opened g a b) ->
  opened g cx cy = true ->
  all_reachable_from g' rx ry.
Proof.
  intros Hall Ho Hc a b Hab.
  assert (Hm : forall u v, opened g u v = true -> opened g' u v = true)
    by (intros u v Huv; rewrite Ho, Huv; apply orb_true_r).
  eapply connected_mono; [ exact Hm | ]. apply Hall.
  rewrite Ho in Hab. apply orb_true_iff in Hab. destruct Hab as [H|H]; [ | exact H ].
  apply andb_true_iff in H. destruct H as [E1 E2].
  apply Z.eqb_eq in E1, E2. now subst.
Qed.

Lemma createEntryAndExits_eq m :
  _createEntryAndExits m
  = set_grid
      (fold_left
         (connect_exit
            (rows (fold_left open_exit exitPositions
                     (set_exitColumns []
                        (set_grid (Grid.set (Grid.set (grid m) (cols m / 2) 0 ENTRY)
                                            (cols m / 2) 1 PATH) m)))))
         (exitColumns
            (fold_left open_exit exitPositions
               (set_exitColumns []
                  (set_grid (Grid.set (Grid.set (grid m) (cols m / 2) 0 ENTRY)
                                      (cols m / 2) 1 PATH) m))))
         (grid
            (fold_left open_exit exitPositions
               (set_exitColumns []
                  (set_grid (Grid.set (Grid.set (grid m) (cols m / 2) 0 ENTRY)
                                      (cols m / 2) 1 PATH) m)))))
      (fold_left open_exit exitPositions
         (set_exitColumns []
            (set_grid (Grid.set (Grid.set (grid m) (cols m / 2) 0 ENTRY)
                                (cols m / 2) 1 PATH) m))).
Proof. destruct m. reflexivity. Qed.

Section Exits.
Variables (C R : Z) (g0 : Grid.t).
Hypothesis HC : 5 <= C.
Hypothesis HR : 5 <= R.
Hypothesis Hcv : carved C R (start_column C) 1 g0.
Hypothesis Hrow : Grid.get g0 (start_column C) (R - 2) = Some PATH.

Let rx := start_column C.
Let cx := C / 2.

Lemma entry_column_range : 0 < cx < C - 1 /\ (cx = rx \/ cx + 1 = rx).
Proof.
  unfold cx, rx, start_column.
  destruct (Z.rem (C / 2) 2 =? 0); Z.div_mod_to_equations; lia.
Qed.

Lemma entry_inv m :
  cols m = C -> rows m = R -> grid m = g0 ->
  exits_inv C R g0 rx
    (set_exitColumns []
       (set_grid (Grid.set (Grid.set g0 cx 0 ENTRY) cx 1 PATH) m)).
Proof.
  intros Hc Hr Hg.
  pose proof entry_column_range as [Hcx Hcr].
  pose proof (carved_dims _ _ _ _ _ Hcv) as Hd0.
  assert (Hd1 : dims (Grid.set g0 cx 0 ENTRY) C R) by now apply dims_set.
  assert (Ho : forall a b,
             opened (Grid.set (Grid.set g0 cx 0 ENTRY) cx 1 PATH) a b
             = ((a =? cx) && (b =? 0)) || (((a =? cx) && (b =? 1)) || opened g0 a b)).
  { intros a b.
    rewrite (opened_set _ C R) by (assumption || lia || discriminate).
    rewrite (opened_set _ C R) by (assumption || lia || discriminate).
    destruct ((a =? cx) && (b =? 0)), ((a =? cx) && (b =? 1)), (opened g0 a b);
      reflexivity. }
  assert (Ho' : forall a b,
             opened (Grid.set g0 cx 1 PATH) a b = ((a =? cx) && (b =? 1)) || opened g0 a b).
  { intros a b. apply (opened_set _ C R); (assumption || lia || discriminate). }
  unfold exits_inv. cbn [cols rows grid exitColumns set_exitColumns set_grid].
  repeat match goal with |- _ /\ _ => split end; try assumption.
  - now apply dims_set.
  - intros a. rewrite !get_set_ne by (intros [= _ H]; lia). reflexivity.
  - apply (reachable_add (Grid.set g0 cx 1 PATH) _ rx 1 cx 0 cx 1).
    + destruct Hcr as [Hcr|Hcr].
      * apply (reachable_add_open g0 _ rx 1 cx 1).
        -- exact (carved_connected _ _ _ _ _ Hcv).
        -- exact Ho'.
        -- rewrite Hcr. exact (carved_root _ _ _ _ _ Hcv).
      * apply (reachable_add g0 _ rx 1 cx 1 rx 1).
        -- exact (carved_connected _ _ _ _ _ Hcv).
        -- exact Ho'.
        -- unfold adjacent. lia.
        -- exact (carved_root _ _ _ _ _ Hcv).
    + intros a b. rewrite Ho, Ho'. reflexivity.
    + unfold adjacent. lia.
    + rewrite Ho', !Z.eqb_refl. reflexivity.
  - rewrite Ho. pose proof (carved_root _ _ _ _ _ Hcv) as Hr0. fold rx in Hr0.
    rewrite Hr0, !orb_true_r. reflexivity.
  - rewrite get_set_ne by (intros [= _ H]; lia).
    apply (get_set_eq _ C R); (assumption || lia).
  - constructor.
Qed.

Lemma open_exit_inv m pos :
  exits_inv C R g0 rx m -> exits_inv C R g0 rx (open_exit m pos).
Proof.
  intros (Hc & Hr & Hd & Hsame & Hall & Hroot & Hentry & Hexits).
  unfold open_exit. cbv zeta. rewrite Hc, Hr.
  set (target := Qfloor (pos * inject_Z C)).
  destruct (nearest_path_spec (grid m) C R target) as [Hb Hp].
  { exists rx. pose proof entry_column_range. split; [ | rewrite Hsame; exact Hrow ].
    destruct (start_column_spec C HC) as [_ H']. fold rx in H'. lia. }
  set (best := nearest_path (grid m) C R target) in *.
  assert (Ho : forall a b,
             opened (Grid.set (grid m) best (R - 1) EXIT) a b
             = ((a =? best) && (b =? R - 1)) || opened (grid m) a b).
  { intros a b. apply (opened_set _ C R); (assumption || lia || discriminate). }
  unfold exits_inv. cbn [cols rows grid exitColumns set_exitColumns set_grid].
  repeat match goal with |- _ /\ _ => split end; try assumption.
  - now apply dims_set.
  - intros a. rewrite get_set_ne by (intros [= _ H]; lia). apply Hsame.
  - apply (reachable_add (grid m) _ rx 1 best (R - 1) best (R - 2)).
    + exact Hall.
    + exact Ho.
    + unfold adjacent. lia.
    + now apply opened_get_path.
  - rewrite Ho, Hroot. apply orb_true_r.
  - rewrite get_set_ne; [ exact Hentry | intros He; injection He; lia ].
  - apply Forall_app. split.
    + eapply Forall_impl; [ | exact Hexits ].
      intros c (H1 & H2 & H3). repeat split; try assumption; try lia.
      rewrite (get_set _ C R) by (assumption || lia).
      destruct ((c =? best) && (R - 1 =? R - 1)); [ reflexivity | exact H3 ].
    + constructor; [ | constructor ].
      repeat split; try lia.
      * rewrite <- Hsame. exact Hp.
      * apply (get_set_eq _ C R); (assumption || lia).
Qed.

Lemma open_exits_inv positions :
  forall m, exits_inv C R g0 rx m ->
            exits_inv C R g0 rx (fold_left open_exit positions m).
Proof.
  induction positions as [|pos l IH]; intros m Hm; cbn [fold_left]; [ exact Hm | ].
  apply IH, open_exit_inv, Hm.
Qed.

Lemma open_exits_count positions :
  forall m, length (exitColumns (fold_left open_exit positions m))
            = (length (exitColumns m) + length positions)%nat.
Proof.
  induction positions as [|pos l IH]; intros m; cbn [fold_left]; [ simpl; lia | ].
  rewrite IH. unfold open_exit. cbn [exitColumns set_exitColumns set_grid].
  rewrite length_app. simpl. lia.
Qed.

Lemma open_exits_rng positions :
  forall m, rng (fold_left open_exit positions m) = rng m.
Proof.
  induction positions as [|pos l IH]; intros m; cbn [fold_left]; [ reflexivity | ].
  rewrite IH. reflexivity.
Qed.

(** No exit needs to be connected: the cell above each of them is Path. *)
Lemma connect_exits_noop g cs :
  (forall a, Grid.get g a (R - 2) = Grid.get g0 a (R - 2)) ->
  Forall (fun c => Grid.get g0 c (R - 2) = Some PATH) cs ->
  fold_left (connect_exit R) cs g = g.
Proof.
  intros Hsame Hcs. induction Hcs as [|c cs Hc _ IH]; cbn [fold_left]; [ reflexivity | ].
  unfold connect_exit at 2.
  replace (Grid.cell_is g c (R - 2) WALL) with false; [ exact IH | ].
  symmetry. unfold Grid.cell_is. rewrite Hsame, Hc. reflexivity.
Qed.

(** The part of [_createEntryAndExits] after the entry is made: the
    exits are opened, then connected. *)
Lemma finish_exits positions mb :
  exits_inv C R g0 rx mb ->
  let me := fold_left open_exit positions mb in
  let m' := set_grid (fold_left (connect_exit (rows me)) (exitColumns me) (grid me)) me in
  cols m' = C /\ rows m' = R /\ rng m' = rng mb /\
  dims (grid m') C R /\
  Grid.get (grid m') cx 0 = Some ENTRY /\
  all_reachable_from (grid m') cx 0 /\
  length (exitColumns m') = (length (exitColumns mb) + length positions)%nat /\
  Forall (fun c => 1 <= c < C - 1 /\
                   Grid.get (grid m') c (R - 2) = Some PATH /\
                   Grid.get (grid m') c (R - 1) = Some EXIT)
         (exitColumns m').
Proof.
  intros Hmb me m'.
  pose proof (open_exits_inv positions mb Hmb) as Hinv.
  pose proof (open_exits_count positions mb) as Hlen.
  pose proof (open_exits_rng positions mb) as Hrng.
  fold me in Hinv, Hlen, Hrng.
  destruct Hinv as (Hc' & Hr' & Hd & Hsame & Hall & Hroot & Hentry & Hexits).
  assert (Hg : grid m' = grid me).
  { unfold m'. cbn [grid set_grid]. rewrite Hr'.
    apply (connect_exits_noop (grid me) (exitColumns me) Hsame).
    eapply Forall_impl; [ | exact Hexits ]. cbv beta. tauto. }
  assert (Hf : cols m' = cols me /\ rows m' = rows me /\ rng m' = rng me /\
               exitColumns m' = exitColumns me)
    by (unfold m'; repeat split).
  destruct Hf as (-> & -> & -> & ->). rewrite Hg.
  split; [ exact Hc' | ].
  split; [ exact Hr' | ].
  split; [ exact Hrng | ].
  split; [ exact Hd | ].
  split; [ exact Hentry | ].
  split; [ | split ].
  - apply (all_reachable_from_any _ rx 1); [ exact Hall | ].
    unfold opened. fold cx in Hentry. rewrite Hentry. reflexivity.
  - exact Hlen.
  - eapply Forall_impl; [ | exact Hexits ].
    intros c (H1 & H2 & H3). repeat split; try assumption; try lia.
    rewrite Hsame. exact H2.
Qed.

Lemma createEntryAndExits_spec m :
  cols m = C -> rows m = R -> grid m = g0 ->
  cols (_createEntryAndExits m) = C /\ rows (_createEntryAndExits m) = R /\
  rng (_createEntryAndExits m) = rng m /\
  dims (grid (_createEntryAndExits m)) C R /\
  Grid.get (grid (_createEntryAndExits m)) cx 0 = Some ENTRY /\
  all_reachable_from (grid (_createEntryAndExits m)) cx 0 /\
  length (exitColumns (_createEntryAndExits m)) = 5%nat /\
  Forall (fun c => 1 <= c < C - 1 /\
                   Grid.get (grid (_createEntryAndExits m)) c (R - 2) = Some PATH /\
                   Grid.get (grid (_createEntryAndExits m)) c (R - 1) = Some EXIT)
         (exitColumns (_createEntryAndExits m)).
Proof.
  intros Hc Hr Hg.
  pose proof (entry_inv m Hc Hr Hg) as Hentry.
  pose proof (finish_exits exitPositions _ Hentry) as H.
  cbv zeta in H. unfold cx in H.
  rewrite createEntryAndExits_eq. rewrite Hc, Hg.
  exact H.
Qed.

End Exits.

End ExitProofs.

Module MazeProofs.
Import MazeSpec GridProofs CountProofs ConnectProofs CarveProofs ExitProofs MazeGenerator.
#[local] Open Scope Z_scope.

(** ** C1 *)

(** C1, as the code has it.  For odd [cols >= 9] and [rows >= 9] and a
    non-negative integer seed, [_generateMaze] returns, and the carved
    grid is a perfect maze: every cell at odd coordinates inside the
    border is open, every open cell can be reached from the start cell,
    and there is exactly one adjacency less than there are open cells.
    After [_createEntryAndExits] the cell [(cols / 2, 0)] is the Entry
    and every cell tagged Path, Entry or Exit can be reached from it
    through orthogonally adjacent non-Wall cells.  (That the final grid
    is still acyclic is not claimed.) *)
Theorem maze_connected (m : MazeGenerator.t) :
  Z.odd (cols m) = true -> Z.odd (rows m) = true ->
  9 <= cols m -> 9 <= rows m -> 0 <= rng m ->
  exists mc,
    _generateMaze m = Ok mc /\
    tree_count (grid mc) (cols m) (rows m) /\
    all_reachable_from (grid mc) (start_column (cols m)) 1 /\
    (forall x y, Z.odd x = true -> Z.odd y = true ->
                 interior (cols m) (rows m) x y -> opened (grid mc) x y = true) /\
    Grid.get (grid (_createEntryAndExits mc)) (cols m / 2) 0 = Some ENTRY /\
    all_reachable_from (grid (_createEntryAndExits mc)) (cols m / 2) 0.
Proof.
  intros Hoc Hor Hc Hr Hs.
  destruct (generateMaze_spec m) as (mc & Hmc & Hc' & Hr' & Hs' & Hcv & Hnodes);
    try lia.
  destruct (start_column_spec (cols m)) as [Hodd Hrange]; [ lia | ].
  pose proof (all_nodes_reached (cols m) (rows m) (grid mc) (start_column (cols m))
                Hnodes Hodd Hrange ltac:(lia) (carved_root _ _ _ _ _ Hcv)) as Hall.
  assert (Hrow : Grid.get (grid mc) (start_column (cols m)) (rows m - 2) = Some PATH).
  { assert (Ho : opened (grid mc) (start_column (cols m)) (rows m - 2) = true).
    { apply Hall; [ exact Hodd | | unfold interior; lia ].
      clear - Hor. parity. }
    unfold opened in Ho.
    destruct (Grid.get (grid mc) (start_column (cols m)) (rows m - 2)) as [c|] eqn:E;
      [ | discriminate ].
    destruct (carved_cells _ _ _ _ _ Hcv _ _ c E) as [-> | ->];
      [ discriminate | reflexivity ]. }
  destruct (createEntryAndExits_spec (cols m) (rows m) (grid mc)
              ltac:(lia) ltac:(lia) Hcv Hrow mc Hc' Hr' eq_refl)
    as (_ & _ & _ & _ & Hentry & Hreach & _).
  exists mc. split; [ exact Hmc | ].
  split; [ exact (carved_tree _ _ _ _ _ Hcv) | ].
  split; [ exact (carved_connected _ _ _ _ _ Hcv) | ].
  split; [ exact Hall | ].
  split; [ exact Hentry | exact Hreach ].
Qed.

Lemma maze_connected_witness :
  exists mc,
    _generateMaze sample_generator = Ok mc /\
    tree_count (grid mc) 9 9 /\
    all_reachable_from (grid mc) (start_column 9) 1 /\
    (forall x y, Z.odd x = true -> Z.odd y = true ->
                 interior 9 9 x y -> opened (grid mc) x y = true) /\
    Grid.get (grid (_createEntryAndExits mc)) (9 / 2) 0 = Some ENTRY /\
    all_reachable_from (grid (_createEntryAndExits mc)) (9 / 2) 0.
Proof.
  apply (maze_connected sample_generator); cbn; (reflexivity || lia).
Defined.

(** C1 fails as stated.  For 9 columns, 9 rows and the seed 42 the final
    grid has 37 cells that are not Walls and 38 adjacent pairs of them:
    the exits in columns 1 and 2 of the last row and the two Path cells
    above them form a square of four open cells, which is a cycle. *)
Lemma maze_9x9_seed_42_has_cycle :
  match _generateMaze sample_generator with
  | Ok mc =>
      let g := grid (_createEntryAndExits mc) in
      count_open g 9 9 = 37 /\ count_adjacent g 9 9 = 38 /\
      ~ tree_count g 9 9 /\
      opened g 1 7 && opened g 2 7 && opened g 1 8 && opened g 2 8 = true
  | _ => False
  end.
Proof.
  vm_compute. repeat split; try reflexivity. intros H. discriminate H.
Qed.

End MazeProofs.

Module InitProofs.
Import MazeSpec GridProofs CarveProofs ExitProofs MazeProofs LayoutProofs MazeGenerator.
#[local] Open Scope Z_scope.

(** ** What [_carve] depends on and what it leaves alone *)

Lemma carve_loop_core (carve : Z -> Z -> t -> result t) x y :
  (forall a b m1 m2, core m1 = core m2 ->
                     result_map core (carve a b m1) = result_map core (carve a b m2)) ->
  forall ds m1 m2,
    core m1 = core m2 ->
    result_map core (carve_loop carve x y ds m1)
    = result_map core (carve_loop carve x y ds m2).
Proof.
  intros Hrec. induction ds as [|[d|] ds IH]; intros m1 m2 Hcore; cbn [carve_loop].
  - simpl. now f_equal.
  - pose proof Hcore as Hcore'. unfold core in Hcore'.
    injection Hcore' as Hg Hc Hr Hs. rewrite Hg, Hc, Hr.
    destruct ((0 <? x + dx d * 2) && (x + dx d * 2 <? cols m2 - 1)
              && (0 <? y + dy d * 2) && (y + dy d * 2 <? rows m2 - 1)
              && Grid.cell_is (grid m2) (x + dx d * 2) (y + dy d * 2) WALL).
    + specialize (Hrec (x + dx d * 2) (y + dy d * 2)
                       (set_grid (Grid.set (grid m2) (x + dx d) (y + dy d) PATH) m1)
                       (set_grid (Grid.set (grid m2) (x + dx d) (y + dy d) PATH) m2)).
      assert (Hc2 : core (set_grid (Grid.set (grid m2) (x + dx d) (y + dy d) PATH) m1)
                    = core (set_grid (Grid.set (grid m2) (x + dx d) (y + dy d) PATH) m2)).
      { unfold core. cbn [grid cols rows rng set_grid]. congruence. }
      specialize (Hrec Hc2).
      destruct (carve _ _ (set_grid _ m1)) as [a1| |];
        destruct (carve _ _ (set_grid _ m2)) as [a2| |];
        cbn [result_map] in Hrec; try discriminate; try reflexivity.
      apply IH. congruence.
    + now apply IH.
  - reflexivity.
Qed.

Lemma carve_core :
  forall fuel x y m1 m2,
    core m1 = core m2 ->
    result_map core (_carve fuel x y m1) = result_map core (_carve fuel x y m2).
Proof.
  induction fuel as [|f IH]; intros x y m1 m2 Hcore; [ reflexivity | ].
  cbn [_carve]. cbn [rng set_grid].
  pose proof Hcore as Hcore'. unfold core in Hcore'.
  injection Hcore' as Hg Hc Hr Hs. rewrite Hg, Hs.
  destruct (SeededRandom.shuffle DIRECTIONS (rng m2)) as [ds seed].
  apply carve_loop_core; [ exact (IH) | ].
  unfold core. cbn [grid cols rows rng set_grid set_rng]. congruence.
Qed.

Lemma carve_loop_frame (carve : Z -> Z -> t -> result t) x y :
  (forall a b m m', carve a b m = Ok m' -> frame m' = frame m) ->
  forall ds m m', carve_loop carve x y ds m = Ok m' -> frame m' = frame m.
Proof.
  intros Hrec. induction ds as [|[d|] ds IH]; intros m m'; cbn [carve_loop].
  - now intros [= <-].
  - destruct ((0 <? x + dx d * 2) && (x + dx d * 2 <? cols m - 1)
              && (0 <? y + dy d * 2) && (y + dy d * 2 <? rows m - 1)
              && Grid.cell_is (grid m) (x + dx d * 2) (y + dy d * 2) WALL).
    + destruct (carve _ _ _) as [a| |] eqn:E; try discriminate.
      intros H. rewrite (IH _ _ H). apply Hrec in E. rewrite E. reflexivity.
    + apply IH.
  - discriminate.
Qed.

Lemma carve_frame :
  forall fuel x y m m', _carve fuel x y m = Ok m' -> frame m' = frame m.
Proof.
  induction fuel as [|f IH]; intros x y m m'; [ discriminate | ].
  cbn [_carve]. cbn [rng set_grid].
  destruct (SeededRandom.shuffle DIRECTIONS (rng m)) as [ds seed].
  intros H. apply (carve_loop_frame _ _ _ (IH)) in H. rewrite H. reflexivity.
Qed.

Lemma generateMaze_frame m m' : _generateMaze m = Ok m' -> frame m' = frame m.
Proof.
  unfold _generateMaze. cbv zeta. intros H. apply carve_frame in H.
  rewrite H. reflexivity.
Qed.

Lemma generateMaze_core m1 m2 :
  cols m1 = cols m2 -> rows m1 = rows m2 -> rng m1 = rng m2 ->
  result_map core (_generateMaze m1) = result_map core (_generateMaze m2).
Proof.
  intros Hc Hr Hs. unfold _generateMaze. cbv zeta.
  cbn [cols rows set_grid]. unfold carve_fuel. cbn [cols rows set_grid].
  rewrite Hc, Hr. apply carve_core.
  unfold core. cbn [grid cols rows rng set_grid]. congruence.
Qed.

(** ** The steps of [init] after the carving *)

Lemma fold_left_rel {A B} (Rel : A -> A -> Prop) (f : A -> B -> A) :
  (forall a1 a2 b, Rel a1 a2 -> Rel (f a1 b) (f a2 b)) ->
  forall l a1 a2, Rel a1 a2 -> Rel (fold_left f l a1) (fold_left f l a2).
Proof.
  intros Hf. induction l as [|b l IH]; intros a1 a2 H; cbn [fold_left]; auto.
Qed.

Lemma fold_left_keeps {A B C} (p : A -> C) (f : A -> B -> A) :
  (forall a b, p (f a b) = p a) ->
  forall l a, p (fold_left f l a) = p a.
Proof.
  intros Hf. induction l as [|b l IH]; intros a; cbn [fold_left]; [ reflexivity | ].
  rewrite IH. apply Hf.
Qed.

Ltac split_view H :=
  unfold view_e, view_d, view_c, view_b, view_a in H;
  repeat match type of H with
         | (_, _) = (_, _) =>
             let H1 := fresh "Hv" in
             let H2 := fresh "Hv" in
             injection H as H1 H2; try split_view H1
         end.

Lemma entry_view m1 m2 :
  view_a m1 = view_a m2 ->
  view_b (set_exitColumns []
            (set_grid (Grid.set (Grid.set (grid m1) (cols m1 / 2) 0 ENTRY)
                                (cols m1 / 2) 1 PATH) m1))
  = view_b (set_exitColumns []
              (set_grid (Grid.set (Grid.set (grid m2) (cols m2 / 2) 0 ENTRY)
                                  (cols m2 / 2) 1 PATH) m2)).
Proof.
  intros H. unfold view_b, view_a in *.
  cbn [grid cols rows rng cellSize level width height
       marginLeft marginTop exitColumns set_grid set_exitColumns].
  injection H as -> -> -> -> -> -> -> -> -> ->. reflexivity.
Qed.

Lemma open_exit_view m1 m2 pos :
  view_b m1 = view_b m2 -> view_b (open_exit m1 pos) = view_b (open_exit m2 pos).
Proof.
  intros H. unfold view_b, view_a, open_exit in *.
  cbn [grid cols rows rng cellSize level width height marginLeft marginTop
       exitColumns set_grid set_exitColumns].
  injection H as -> -> -> -> -> -> -> -> -> -> ->. reflexivity.
Qed.

Lemma connect_exits_view e1 e2 :
  view_b e1 = view_b e2 ->
  view_b (set_grid (fold_left (connect_exit (rows e1)) (exitColumns e1) (grid e1)) e1)
  = view_b (set_grid (fold_left (connect_exit (rows e2)) (exitColumns e2) (grid e2)) e2).
Proof.
  intros H. unfold view_b, view_a in *.
  cbn [grid cols rows rng cellSize level width height marginLeft marginTop
       exitColumns set_grid].
  injection H as -> -> -> -> -> -> -> -> -> -> ->. reflexivity.
Qed.

Lemma createEntryAndExits_view m1 m2 :
  view_a m1 = view_a m2 ->
  view_b (_createEntryAndExits m1) = view_b (_createEntryAndExits m2).
Proof.
  intros H. rewrite !createEntryAndExits_eq.
  apply connect_exits_view.
  apply (fold_left_rel (fun a b => view_b a = view_b b) open_exit).
  - intros a1 a2 pos. apply open_exit_view.
  - apply entry_view, H.
Qed.

Lemma buildExitZones_eq m :
  _buildExitZones m
  = set_exitZones [exit_zone m 0; exit_zone m 1; exit_zone m 2;
                   exit_zone m 3; exit_zone m 4] m.
Proof. destruct m. reflexivity. Qed.

Lemma buildExitZones_view m1 m2 :
  view_b m1 = view_b m2 -> view_c (_buildExitZones m1) = view_c (_buildExitZones m2).
Proof.
  intros H. rewrite !buildExitZones_eq.
  unfold view_c, view_b, view_a, exit_zone, zone_column in *.
  cbn [grid cols rows rng cellSize level width height marginLeft marginTop
       exitColumns exitZones set_exitZones].
  injection H as -> -> -> -> -> -> -> -> -> -> ->. reflexivity.
Qed.

Lemma wall_rect_step_view b1 b2 x y :
  view_d b1 = view_d b2 ->
  view_d (if Grid.cell_is (grid b1) x y WALL
          then set_wallRects (wallRects b1 ++ [wall_rect b1 x y]) b1 else b1)
  = view_d (if Grid.cell_is (grid b2) x y WALL
            then set_wallRects (wallRects b2 ++ [wall_rect b2 x y]) b2 else b2).
Proof.
  intros Hb. pose proof Hb as Hb'.
  unfold view_d, view_c, view_b, view_a, wall_rect in *.
  injection Hb' as Hg Hcols Hrows Hrng Hcs Hlv Hw Hh Hml Hmt Hec Hez Hwr.
  rewrite Hg. destruct (Grid.cell_is (grid b2) x y WALL); [ | exact Hb ].
  cbn [grid cols rows rng cellSize level width height marginLeft marginTop
       exitColumns exitZones wallRects set_wallRects].
  congruence.
Qed.

Lemma buildWallRects_view m1 m2 :
  view_c m1 = view_c m2 -> view_d (_buildWallRects m1) = view_d (_buildWallRects m2).
Proof.
  intros H. unfold _buildWallRects. cbv zeta.
  assert (Hr : rows (set_wallRects [] m1) = rows (set_wallRects [] m2)).
  { pose proof H as H'. unfold view_c, view_b, view_a in H'.
    injection H' as _ _ Hr _ _ _ _ _ _ _ _ _. exact Hr. }
  rewrite Hr.
  apply (fold_left_rel (fun a b => view_d a = view_d b)).
  - intros a1 a2 y Ha.
    assert (Hc : cols a1 = cols a2).
    { pose proof Ha as H'. unfold view_d, view_c, view_b, view_a in H'.
      injection H' as _ Hc _ _ _ _ _ _ _ _ _ _ _. exact Hc. }
    rewrite Hc.
    apply (fold_left_rel (fun a b => view_d a = view_d b)); [ | exact Ha ].
    intros b1 b2 x. apply wall_rect_step_view.
  - unfold view_d, view_c, view_b, view_a in *.
    cbn [grid cols rows rng cellSize level width height marginLeft marginTop
         exitColumns exitZones wallRects set_wallRects].
    injection H as -> -> -> -> -> -> -> -> -> -> -> ->. reflexivity.
Qed.

Lemma generateMaze_view m1 m2 :
  cols m1 = cols m2 -> rows m1 = rows m2 -> rng m1 = rng m2 ->
  cellSize m1 = cellSize m2 -> level m1 = level m2 ->
  width m1 = width m2 -> height m1 = height m2 ->
  marginLeft m1 = marginLeft m2 -> marginTop m1 = marginTop m2 ->
  result_map view_a (_generateMaze m1) = result_map view_a (_generateMaze m2).
Proof.
  intros Hc Hr Hs Hcs Hl Hw Hh Hml Hmt.
  pose proof (generateMaze_core m1 m2 Hc Hr Hs) as Hcore.
  pose proof (generateMaze_frame m1) as Hf1.
  pose proof (generateMaze_frame m2) as Hf2.
  destruct (_generateMaze m1) as [a1| |]; destruct (_generateMaze m2) as [a2| |];
    cbn [result_map] in *; try discriminate; try reflexivity.
  specialize (Hf1 a1 eq_refl). specialize (Hf2 a2 eq_refl).
  unfold core, frame in *.
  injection Hcore as Hg' Hc' Hr' Hs'.
  injection Hf1 as F1 F2 F3 F4 F5 F6 F7 F8 F9 F10 F11 F12.
  injection Hf2 as G1 G2 G3 G4 G5 G6 G7 G8 G9 G10 G11 G12.
  unfold view_a. f_equal. congruence.
Qed.

Lemma init_eq now level cw ch m :
  init now level cw ch m
  = result_map
      (fun mc =>
         set_entry (IZR (width (_buildWallRects (_buildExitZones (_createEntryAndExits mc)))) / 2)
                   (IZR (l_cellSize (layout level cw ch)) * (15 / 10))
                   (_buildWallRects (_buildExitZones (_createEntryAndExits mc))))
      (_generateMaze
         (mk (grid m) (l_cols (layout level cw ch)) (l_rows (layout level cw ch))
             (l_cellSize (layout level cw ch)) (wallThickness m) level now
             (exitZones m) (wallRects m) (entryX m) (entryY m)
             (l_cols (layout level cw ch) * l_cellSize (layout level cw ch))
             (l_rows (layout level cw ch) * l_cellSize (layout level cw ch))
             (exitColumns m)
             (Some (l_marginLeft (layout level cw ch)))
             (Some (l_marginTop (layout level cw ch))))).
Proof.
  unfold init. cbv zeta. destruct (_generateMaze _); reflexivity.
Qed.

(** ** The sizes are fixed before the maze is generated *)

Lemma open_exit_sizes m pos : sizes (open_exit m pos) = sizes m.
Proof. reflexivity. Qed.

Lemma sizes_set_grid g m : sizes (set_grid g m) = sizes m.
Proof. reflexivity. Qed.

Lemma sizes_set_exitZones z m : sizes (set_exitZones z m) = sizes m.
Proof. reflexivity. Qed.

Lemma sizes_set_entry a b m : sizes (set_entry a b m) = sizes m.
Proof. reflexivity. Qed.

Lemma exitZones_set_entry a b m : exitZones (set_entry a b m) = exitZones m.
Proof. reflexivity. Qed.

Lemma createEntryAndExits_sizes m : sizes (_createEntryAndExits m) = sizes m.
Proof.
  rewrite createEntryAndExits_eq, sizes_set_grid.
  rewrite (fold_left_keeps sizes open_exit open_exit_sizes). reflexivity.
Qed.

Lemma buildWallRects_sizes m : sizes (_buildWallRects m) = sizes m.
Proof.
  unfold _buildWallRects. cbv zeta.
  rewrite (fold_left_keeps sizes); [ reflexivity | ].
  intros a y. rewrite (fold_left_keeps sizes); [ reflexivity | ].
  intros b x. destruct (Grid.cell_is (grid b) x y WALL); reflexivity.
Qed.

Lemma buildWallRects_exitZones m : exitZones (_buildWallRects m) = exitZones m.
Proof.
  unfold _buildWallRects. cbv zeta.
  rewrite (fold_left_keeps exitZones); [ reflexivity | ].
  intros a y. rewrite (fold_left_keeps exitZones); [ reflexivity | ].
  intros b x. destruct (Grid.cell_is (grid b) x y WALL); reflexivity.
Qed.

Lemma buildExitZones_sizes m : sizes (_buildExitZones m) = sizes m.
Proof. rewrite buildExitZones_eq. apply sizes_set_exitZones. Qed.

(** [init] returns for a level from 1 and a non-negative clock value; the
    sizes of the maze are those of [layout], and the exit zones are built
    from them. *)
Lemma init_returns now level cw ch m :
  0 <= now -> 1 <= level ->
  exists m',
    init now level cw ch m = Ok m' /\
    sizes m' = (l_cols (layout level cw ch), l_rows (layout level cw ch),
                l_cellSize (layout level cw ch),
                l_cols (layout level cw ch) * l_cellSize (layout level cw ch),
                l_rows (layout level cw ch) * l_cellSize (layout level cw ch)) /\
    exists mz, exitZones m' = exitZones (_buildExitZones mz) /\ sizes mz = sizes m'.
Proof.
  intros Hnow Hlevel. rewrite init_eq.
  set (l := layout level cw ch).
  set (m0 := mk _ _ _ _ _ _ _ _ _ _ _ _ _ _ _ _).
  assert (Hl : 16 <= l_cellSize l /\ Z.odd (l_cols l) = true /\ Z.odd (l_rows l) = true /\
               9 <= l_cols l /\ 9 <= l_rows l).
  { unfold l, layout. cbv zeta.
    destruct (negb (Qle_bool cw ch));
      match goal with
      | |- context [choose_size ?lv ?aw ?ah] =>
          pose proof (choose_size_spec lv aw ah Hlevel) as Hs;
          destruct (choose_size lv aw ah) as [[c r] s];
          specialize (Hs c r s eq_refl)
      end; cbn [l_cols l_rows l_cellSize]; tauto. }
  destruct (generateMaze_spec m0) as (mc & Hmc & Hc' & Hr' & _);
    cbn [cols rows rng m0]; try lia.
  rewrite Hmc. cbn [result_map].
  pose proof (generateMaze_frame _ _ Hmc) as Hf.
  assert (Hsz : sizes mc = sizes m0).
  { unfold frame in Hf. injection Hf as F1 _ _ _ _ _ _ F8 F9 _ _ _.
    unfold sizes. rewrite Hc', Hr', F1, F8, F9. reflexivity. }
  eexists. split; [ reflexivity | ].
  rewrite sizes_set_entry, exitZones_set_entry.
  rewrite buildWallRects_sizes, buildWallRects_exitZones.
  rewrite buildExitZones_sizes, createEntryAndExits_sizes, Hsz.
  split; [ reflexivity | ].
  exists (_createEntryAndExits mc). split; [ reflexivity | ].
  rewrite createEntryAndExits_sizes, Hsz. reflexivity.
Qed.

(** ** C9 *)

(** What [init] does after the maze is carved depends on the carved
    generator through [view_a] only. *)
Lemma finish_view s c1 c2 :
  view_a c1 = view_a c2 ->
  level_data
    (set_entry (IZR (width (_buildWallRects (_buildExitZones (_createEntryAndExits c1)))) / 2)
               s (_buildWallRects (_buildExitZones (_createEntryAndExits c1))))
  = level_data
      (set_entry (IZR (width (_buildWallRects (_buildExitZones (_createEntryAndExits c2)))) / 2)
                 s (_buildWallRects (_buildExitZones (_createEntryAndExits c2)))).
Proof.
  intros Hv.
  apply createEntryAndExits_view, buildExitZones_view, buildWallRects_view in Hv.
  generalize dependent (_buildWallRects (_buildExitZones (_createEntryAndExits c1))).
  generalize dependent (_buildWallRects (_buildExitZones (_createEntryAndExits c2))).
  intros w2 w1 Hv.
  unfold view_d, view_c, view_b, view_a in Hv.
  injection Hv as Hg Hc Hr Hs Hcs Hl Hw Hh Hml Hmt Hec Hez Hwr.
  destruct w1, w2. cbn in *. subst. reflexivity.
Qed.

Lemma generate_view {A} (f : t -> t) (d : t -> A) a1 a2 :
  cols a1 = cols a2 -> rows a1 = rows a2 -> rng a1 = rng a2 ->
  cellSize a1 = cellSize a2 -> level a1 = level a2 ->
  width a1 = width a2 -> height a1 = height a2 ->
  marginLeft a1 = marginLeft a2 -> marginTop a1 = marginTop a2 ->
  (forall c1 c2, view_a c1 = view_a c2 -> d (f c1) = d (f c2)) ->
  result_map d (result_map f (_generateMaze a1))
  = result_map d (result_map f (_generateMaze a2)).
Proof.
  intros Hc Hr Hs Hcs Hl Hw Hh Hml Hmt Hf.
  pose proof (generateMaze_view a1 a2 Hc Hr Hs Hcs Hl Hw Hh Hml Hmt) as Hv.
  destruct (_generateMaze a1) as [c1| |]; destruct (_generateMaze a2) as [c2| |];
    cbn [result_map] in *; try discriminate; try reflexivity.
  f_equal. apply Hf. congruence.
Qed.

(** C9.  With the clock value that seeds the generator, the level and the
    canvas size given, [init] produces the same grid, exit columns, exit
    zones, wall rectangles, sizes and entry point whatever the generator
    held before the call: two runs with the same seed agree. *)
Theorem init_deterministic now level cw ch m1 m2 :
  result_map level_data (init now level cw ch m1)
  = result_map level_data (init now level cw ch m2).
Proof.
  rewrite !init_eq.
  apply generate_view; try reflexivity.
  intros c1 c2. apply finish_view.
Qed.

(** ** C8 *)

(** C8, as the code has it.  [init] returns for a level from 1 (and a
    non-negative clock value); the cell size is at least 16, the numbers
    of columns and rows are odd and at least 9, and the maze is [cols *
    cellSize] by [rows * cellSize] pixels.  Its width is within the
    available width exactly when that is at least 144 = 9 * 16, and
    likewise its height: on a smaller canvas the floor of 9 cells of 16
    pixels wins over the fit. *)
Theorem maze_size now level cw ch m :
  0 <= now -> 1 <= level ->
  exists m',
    init now level cw ch m = Ok m' /\
    16 <= cellSize m' /\
    Z.odd (cols m') = true /\ Z.odd (rows m') = true /\
    9 <= cols m' /\ 9 <= rows m' /\
    width m' = cols m' * cellSize m' /\ height m' = rows m' * cellSize m' /\
    ((inject_Z (width m') <= l_availableWidth (layout level cw ch))%Q
     <-> (144 <= l_availableWidth (layout level cw ch))%Q) /\
    ((inject_Z (height m') <= l_availableHeight (layout level cw ch))%Q
     <-> (144 <= l_availableHeight (layout level cw ch))%Q).
Proof.
  intros Hnow Hlevel.
  destruct (init_returns now level cw ch m Hnow Hlevel) as (m' & Hm' & Hsz & _).
  exists m'. split; [ exact Hm' | ].
  unfold sizes in Hsz. injection Hsz as -> -> -> -> ->.
  unfold layout. cbv zeta.
  destruct (negb (Qle_bool cw ch));
    match goal with
    | |- context [choose_size ?lv ?aw ?ah] =>
        pose proof (choose_size_spec lv aw ah Hlevel) as Hs;
        destruct (choose_size lv aw ah) as [[c r] s];
        specialize (Hs c r s eq_refl)
    end; cbn [l_cols l_rows l_cellSize l_availableWidth l_availableHeight];
    destruct Hs as (H1 & H2 & H3 & H4 & H5 & H6 & H7);
    repeat split; try assumption; try reflexivity;
    try apply H6; try apply H7.
Qed.

Lemma maze_size_witness :
  exists m',
    init 42 1 (400 # 1) (800 # 1) (constructor 0) = Ok m' /\
    16 <= cellSize m' /\
    Z.odd (cols m') = true /\ Z.odd (rows m') = true /\
    9 <= cols m' /\ 9 <= rows m' /\
    width m' = cols m' * cellSize m' /\ height m' = rows m' * cellSize m' /\
    ((inject_Z (width m') <= l_availableWidth (layout 1 (400 # 1) (800 # 1)))%Q
     <-> (144 <= l_availableWidth (layout 1 (400 # 1) (800 # 1)))%Q) /\
    ((inject_Z (height m') <= l_availableHeight (layout 1 (400 # 1) (800 # 1)))%Q
     <-> (144 <= l_availableHeight (layout 1 (400 # 1) (800 # 1)))%Q).
Proof. apply (maze_size 42 1 (400 # 1) (800 # 1) (constructor 0)); lia. Defined.

(** C8 fails as stated.  On a 360 x 380 canvas at level 1 the available
    area is 320 wide and 135 high; [init] chooses 19 x 9 cells of 16
    pixels, a maze of 304 x 144 pixels, taller than the available
    height. *)
Lemma small_canvas_overflows :
  match small_canvas_level with
  | Ok m' =>
      sizes m' = (19, 9, 16, 304, 144) /\
      l_availableHeight (layout 1 (360 # 1) (380 # 1)) == 135 # 1 /\
      ~ (inject_Z (height m') <= l_availableHeight (layout 1 (360 # 1) (380 # 1)))%Q
  | _ => False
  end.
Proof.
  unfold small_canvas_level.
  destruct (init_returns 42 1 (360 # 1) (380 # 1) (constructor 0))
    as (m' & -> & Hsz & _); try lia.
  change (layout 1 (360 # 1) (380 # 1))
    with (mkLayout 20 100 (320 # 1) (135 # 1) 19 9 16) in *.
  cbn [l_cols l_rows l_cellSize l_availableHeight] in *.
  split; [ exact Hsz | split; [ reflexivity | ] ].
  unfold sizes in Hsz. injection Hsz as _ _ _ _ ->.
  intros H. vm_compute in H. apply H. reflexivity.
Qed.

End InitProofs.

(** * Further properties of the code *)

(** ** SeededRandom: the range of [nextInt] and the result of [shuffle] *)

Module RandomProps.
Import SeededRandom RandomProofs.
#[local] Open Scope Z_scope.

Lemma nextInt_exact_from lo hi s :
  nextInt lo hi s = (next_seed s * (hi - lo) / 0x7fffffff + lo, next_seed s).
Proof.
  unfold nextInt, next. f_equal.
  unfold Qfloor, Qdiv, Qmult, Qinv, inject_Z. simpl.
  rewrite !Z.mul_1_r. reflexivity.
Qed.

(** X1.  [nextInt(min, max)] with integers [min < max] and a
    non-negative integer seed returns an integer [n] with
    [min <= n < max], and leaves a seed in [0, 2^31 - 2]: [next()] never
    returns 1.  (The span [max - min] is kept below 2^20 and [min]
    below 2^52 in absolute value, where the floor of the product of
    doubles is the floor of the exact product and the sum is exact.) *)
Theorem nextInt_within lo hi s :
  lo < hi -> hi - lo <= 2 ^ 20 -> Z.abs lo <= 2 ^ 52 -> 0 <= s ->
  lo <= fst (nextInt lo hi s) < hi /\
  0 <= snd (nextInt lo hi s) < 0x7fffffff.
Proof.
  intros Hlt _ _ Hs. rewrite nextInt_exact_from. cbn [fst snd].
  pose proof (next_seed_range s) as Hr. pose proof (next_seed_lt s Hs) as Hn.
  assert (0 <= next_seed s * (hi - lo) / 0x7fffffff < hi - lo).
  { split; [ apply Z.div_pos; nia | apply Z.div_lt_upper_bound; nia ]. }
  lia.
Qed.

Lemma nextInt_within_witness :
  3 <= fst (nextInt 3 8 42) < 8 /\ 0 <= snd (nextInt 3 8 42) < 0x7fffffff.
Proof. apply (nextInt_within 3 8 42); simpl; lia. Defined.

Section Permute.
Context {A : Type}.
Implicit Types a : list (option A).

Lemma swap_permutation a i j :
  (i < length a)%nat -> (j < length a)%nat ->
  Permutation a (JsArray.swap a (Z.of_nat i) (Z.of_nat j)).
Proof.
  intros Hi Hj. apply Permutation_nth_error. split.
  - symmetry. now apply swap_length.
  - exists (fun k => if Nat.eqb k j then i else if Nat.eqb k i then j else k).
    split.
    + intros k1 k2.
      destruct (Nat.eqb k1 j) eqn:E1; destruct (Nat.eqb k1 i) eqn:E2;
        destruct (Nat.eqb k2 j) eqn:E3; destruct (Nat.eqb k2 i) eqn:E4;
        repeat match goal with
               | H : Nat.eqb _ _ = true |- _ => apply Nat.eqb_eq in H
               | H : Nat.eqb _ _ = false |- _ => apply Nat.eqb_neq in H
               end; intros; subst; congruence.
    + intros k. rewrite swap_nth_error by assumption.
      destruct (Nat.eqb k j); [ reflexivity | ].
      destruct (Nat.eqb k i); reflexivity.
Qed.

Lemma shuffle_loop_permutation :
  forall i a s,
    (i < length a)%nat -> 0 <= s ->
    Permutation a (fst (shuffle_loop i a s)) /\
    0 <= snd (shuffle_loop i a s).
Proof.
  induction i as [|i IH]; intros a s Hi Hs; [ simpl; split; [ reflexivity | exact Hs ] | ].
  cbn [shuffle_loop].
  pose proof (nextInt_range (Z.of_nat (S i) + 1) s ltac:(lia) Hs) as [Hj Hs'].
  destruct (nextInt 0 (Z.of_nat (S i) + 1) s) as [j s']. cbn [fst snd] in Hj, Hs'.
  rewrite <- (Z2Nat.id j) by lia.
  destruct (IH (JsArray.swap a (Z.of_nat (S i)) (Z.of_nat (Z.to_nat j))) s') as [H1 H2];
    [ rewrite swap_length by lia; lia | exact Hs' | ].
  split; [ | exact H2 ].
  eapply Permutation_trans; [ | exact H1 ].
  apply swap_permutation; lia.
Qed.

(** X2.  [shuffle(array)] with a non-negative integer seed returns the
    elements of [array] in some order: no entry of the result is
    [undefined], none is lost and none is repeated.  (The length is kept
    below 2^20, as for [nextInt].) *)
Theorem shuffle_permutes (l : list A) s :
  0 <= s -> Z.of_nat (length l) <= 2 ^ 20 ->
  exists l', fst (shuffle l s) = map Some l' /\ Permutation l l' /\
             0 <= snd (shuffle l s).
Proof.
  intros Hs _. unfold shuffle.
  destruct l as [|x l].
  - exists []. simpl. repeat split; [ constructor | exact Hs ].
  - destruct (shuffle_loop_permutation (length (map Some (x :: l)) - 1)
                (map Some (x :: l)) s) as [H1 H2]; [ simpl; lia | exact Hs | ].
    apply Permutation_sym, Permutation_map_inv in H1.
    destruct H1 as (l' & Heq & Hp).
    exists l'. repeat split; [ exact Heq | exact Hp | exact H2 ].
Qed.

End Permute.

Lemma shuffle_permutes_witness :
  exists l', fst (shuffle DIRECTIONS 42) = map Some l' /\ Permutation DIRECTIONS l' /\
             0 <= snd (shuffle DIRECTIONS 42).
Proof. apply (shuffle_permutes DIRECTIONS 42); simpl; lia. Defined.

End RandomProps.

(** ** MazeGenerator: the carved grid and its exits *)

Module MazeProps.
Import MazeSpec GridProofs CountProofs ConnectProofs CarveProofs ExitProofs MazeGenerator.
#[local] Open Scope Z_scope.

(** *** What [_generateMaze] leaves as Wall *)

(** X3.  For at least 5 columns and 3 rows and a non-negative integer
    seed, [_generateMaze] returns a grid of [rows] rows of [cols] cells,
    each Wall or Path, in which every cell of the outer border and every
    cell with two even coordinates is a Wall. *)
Theorem generated_walls m :
  5 <= cols m -> 3 <= rows m -> 0 <= rng m ->
  exists m',
    _generateMaze m = Ok m' /\
    dims (grid m') (cols m) (rows m) /\
    forall x y,
      0 <= x < cols m -> 0 <= y < rows m ->
      (Grid.get (grid m') x y = Some WALL \/ Grid.get (grid m') x y = Some PATH) /\
      (on_border (cols m) (rows m) x y \/ (Z.even x = true /\ Z.even y = true) ->
       Grid.get (grid m') x y = Some WALL).
Proof.
  intros Hc Hr Hs.
  destruct (generateMaze_spec m Hc Hr Hs) as (m' & Hm' & _ & _ & _ & Hcv & _).
  exists m'. split; [ exact Hm' | ].
  split; [ exact (carved_dims _ _ _ _ _ Hcv) | ].
  intros x y Hx Hy.
  destruct (get_in_range _ _ _ x y (carved_dims _ _ _ _ _ Hcv) Hx Hy) as [c Hget].
  pose proof (carved_cells _ _ _ _ _ Hcv x y c Hget) as Hc'.
  split; [ rewrite Hget; destruct Hc' as [-> | ->]; tauto | ].
  intros Hw. destruct Hc' as [-> | ->]; [ exact Hget | exfalso ].
  assert (Ho : opened (grid m') x y = true) by (unfold opened; now rewrite Hget).
  destruct Hw as [Hb | [Hex Hey]].
  - pose proof (carved_interior _ _ _ _ _ Hcv x y Ho) as Hin.
    unfold interior in Hin. unfold on_border in Hb. lia.
  - destruct (carved_parity _ _ _ _ _ Hcv x y Ho) as [H | H];
      rewrite <- Z.negb_even in H; [ rewrite Hex in H | rewrite Hey in H ];
      discriminate.
Qed.

Lemma generated_walls_witness :
  exists m',
    _generateMaze sample_generator = Ok m' /\
    dims (grid m') 9 9 /\
    forall x y,
      0 <= x < 9 -> 0 <= y < 9 ->
      (Grid.get (grid m') x y = Some WALL \/ Grid.get (grid m') x y = Some PATH) /\
      (on_border 9 9 x y \/ (Z.even x = true /\ Z.even y = true) ->
       Grid.get (grid m') x y = Some WALL).
Proof. apply (generated_walls sample_generator); cbn; lia. Defined.

(** *** The number of Path cells *)

Lemma sum_range_scale n c f :
  sum_range n (fun k => c * f k) = c * sum_range n f.
Proof. induction n as [|n IH]; simpl; [ ring | rewrite IH; ring ]. Qed.

Lemma tally_product cols rows f g :
  tally cols rows (fun x y => f x * g y)
  = sum_range (Z.to_nat cols) f * sum_range (Z.to_nat rows) g.
Proof.
  unfold tally.
  rewrite (sum_range_ext _ _ (fun y => g y * sum_range (Z.to_nat cols) f)).
  - rewrite (sum_range_ext _ _ (fun y => sum_range (Z.to_nat cols) f * g y)) by (intros; ring).
    rewrite sum_range_scale. reflexivity.
  - intros y _. rewrite <- sum_range_scale. apply sum_range_ext. intros x _. ring.
Qed.

Lemma sum_range_odd n :
  sum_range n (fun x => Z.b2z (Z.odd x)) = Z.of_nat n / 2.
Proof.
  induction n as [|n IH]; [ reflexivity | ].
  cbn [sum_range]. rewrite IH.
  pose proof (Zmod_odd (Z.of_nat n)) as Hm.
  destruct (Z.odd (Z.of_nat n)); simpl Z.b2z; Z.div_mod_to_equations; lia.
Qed.

(** The odd numbers below [n - 1], counted over [0 .. n - 1]. *)
Lemma sum_range_odd_inside n :
  1 <= n ->
  sum_range (Z.to_nat n) (fun x => Z.b2z (Z.odd x && (x <? n - 1))) = (n - 1) / 2.
Proof.
  intros Hn.
  replace (Z.to_nat n) with (S (Z.to_nat (n - 1))) by lia.
  cbn [sum_range]. rewrite Z2Nat.id by lia.
  rewrite Z.ltb_irrefl, andb_false_r. simpl Z.b2z.
  rewrite (sum_range_ext _ _ (fun x => Z.b2z (Z.odd x))).
  - rewrite sum_range_odd, Z2Nat.id by lia. ring.
  - intros k Hk. replace (k <? n - 1) with true by (symmetry; apply Z.ltb_lt; lia).
    now rewrite andb_true_r.
Qed.

(** Once every cell at odd coordinates inside the border is open, their
    number is known. *)
Lemma count_nodes_full g cols rows rx ry :
  1 <= cols -> 1 <= rows ->
  carved cols rows rx ry g ->
  (forall x y, Z.odd x = true -> Z.odd y = true -> interior cols rows x y ->
               opened g x y = true) ->
  count_nodes g cols rows = (cols - 1) / 2 * ((rows - 1) / 2).
Proof.
  intros Hc Hr Hcv Hall. unfold count_nodes.
  rewrite (tally_ext _ _ _
             (fun x y => Z.b2z (Z.odd x && (x <? cols - 1))
                         * Z.b2z (Z.odd y && (y <? rows - 1)))).
  - rewrite tally_product, !sum_range_odd_inside by assumption. reflexivity.
  - intros x y Hx Hy.
    destruct (Z.odd x) eqn:Ex; [ | reflexivity ].
    destruct (Z.odd y) eqn:Ey; [ | cbn [andb]; simpl Z.b2z; ring ].
    cbn [andb].
    assert (0 < x /\ 0 < y) as [Hx0 Hy0].
    { split; [ destruct (Z.eq_dec x 0) as [->|]; [ discriminate | lia ]
             | destruct (Z.eq_dec y 0) as [->|]; [ discriminate | lia ] ]. }
    destruct (x <? cols - 1) eqn:Lx; destruct (y <? rows - 1) eqn:Ly;
      try apply Z.ltb_lt in Lx; try apply Z.ltb_lt in Ly;
      try apply Z.ltb_ge in Lx; try apply Z.ltb_ge in Ly.
    + rewrite Hall by (assumption || (unfold interior; lia)). reflexivity.
    + destruct (opened g x y) eqn:Eo; [ exfalso | reflexivity ].
      pose proof (carved_interior _ _ _ _ _ Hcv x y Eo) as Hi. unfold interior in Hi. lia.
    + destruct (opened g x y) eqn:Eo; [ exfalso | reflexivity ].
      pose proof (carved_interior _ _ _ _ _ Hcv x y Eo) as Hi. unfold interior in Hi. lia.
    + destruct (opened g x y) eqn:Eo; [ exfalso | reflexivity ].
      pose proof (carved_interior _ _ _ _ _ Hcv x y Eo) as Hi. unfold interior in Hi. lia.
Qed.

(** One carving opens one more cell at odd coordinates. *)
Lemma carve_step_nodes cols rows rx ry g g' :
  carved cols rows rx ry g -> carve_step cols rows g g' ->
  count_nodes g' cols rows = count_nodes g cols rows + 1.
Proof.
  intros Hc Hs. destruct Hs as [x y d Hx Hy Hd Hxy Hin Hn].
  pose proof (carved_dims _ _ _ _ _ Hc) as Hd0.
  pose proof (carved_interior _ _ _ _ _ Hc x y (opened_get_path _ _ _ Hxy)) as Hhere.
  pose proof (directions_cases d Hd) as Hdir.
  unfold interior in Hin, Hhere.
  set (mx := x + dx d) in *. set (my := y + dy d) in *.
  set (nx := x + dx d * 2) in *. set (ny := y + dy d * 2) in *.
  assert (Hm : 0 <= mx < cols /\ 0 <= my < rows) by (unfold mx, my, nx, ny in *; lia).
  assert (Hmid : Z.odd mx && Z.odd my = false).
  { unfold mx, my. apply andb_false_iff.
    destruct Hdir as [[E [F|F]]|[E [F|F]]]; rewrite E, F;
      [ right | right | left | left ]; rewrite <- Z.negb_even; apply negb_false_iff;
      clear - Hx Hy; parity. }
  assert (Htgt : Z.odd nx && Z.odd ny = true).
  { unfold nx, ny. apply andb_true_iff.
    split; clear - Hx Hy; parity. }
  unfold count_nodes.
  rewrite (tally_ext _ _ _
             (fun a b => Z.b2z (Z.odd a && Z.odd b && opened g a b)
                         + (if (a =? nx) && (b =? ny) then 1 else 0))).
  - rewrite tally_add, tally_point by lia. reflexivity.
  - intros a b Ha Hb.
    rewrite (opened_set _ cols rows) by (try apply dims_set; assumption || lia || discriminate).
    rewrite (opened_set _ cols rows) by (assumption || lia || discriminate).
    destruct ((a =? nx) && (b =? ny)) eqn:E1.
    + apply andb_true_iff in E1. destruct E1 as [E1 E2].
      apply Z.eqb_eq in E1, E2. subst a b.
      rewrite Htgt, (opened_get_wall _ _ _ Hn). cbn [orb andb].
      destruct ((nx =? mx) && (ny =? my)); reflexivity.
    + cbn [orb].
      destruct ((a =? mx) && (b =? my)) eqn:E2.
      * apply andb_true_iff in E2. destruct E2 as [E2 E3].
        apply Z.eqb_eq in E2, E3. subst a b.
        rewrite Hmid. reflexivity.
      * cbn [orb]. ring.
Qed.

Lemma carves_nodes cols rows rx ry g g' :
  carved cols rows rx ry g ->
  clos_refl_trans _ (carve_step cols rows) g g' ->
  count_open g' cols rows - 2 * count_nodes g' cols rows
  = count_open g cols rows - 2 * count_nodes g cols rows.
Proof.
  intros Hc Hs. apply clos_rt_rtn1 in Hs.
  induction Hs as [ | g1 g2 Hstep Hs IH ]; [ reflexivity | ].
  apply clos_rtn1_rt in Hs.
  destruct (carves_facts _ _ _ _ _ _ Hc Hs) as (Hc1 & _ & _).
  rewrite (carve_step_count _ _ _ _ _ _ Hc1 Hstep).
  rewrite (carve_step_nodes _ _ _ _ _ _ Hc1 Hstep). lia.
Qed.

(** [_generateMaze] returns a grid reached by carvings from the grid of
    Walls with the start cell made Path. *)
Lemma generateMaze_steps m :
  5 <= cols m -> 3 <= rows m -> 0 <= rng m ->
  exists m',
    _generateMaze m = Ok m' /\
    clos_refl_trans _ (carve_step (cols m) (rows m))
      (Grid.set (repeat (repeat WALL (Z.to_nat (cols m))) (Z.to_nat (rows m)))
                (start_column (cols m)) 1 PATH)
      (grid m').
Proof.
  intros Hc Hr Hs.
  destruct (start_column_spec (cols m) Hc) as [Hodd Hrange].
  unfold _generateMaze. cbv zeta. fold (start_column (cols m)).
  set (g0 := repeat (repeat WALL (Z.to_nat (cols m))) (Z.to_nat (rows m))).
  cbn [cols rows set_grid].
  assert (Hin : interior (cols m) (rows m) (start_column (cols m)) 1)
    by (unfold interior; lia).
  pose proof (carved_start (cols m) (rows m) _ 1 Hodd eq_refl Hin) as Hstart.
  fold g0 in Hstart.
  destruct (carve_spec (cols m) (rows m) (start_column (cols m)) 1
              (carve_fuel (set_grid g0 m)) (start_column (cols m)) 1 (set_grid g0 m))
    as (m' & Hm' & _ & _ & _ & Hsteps & _).
  { unfold carve_pre. cbn [cols rows rng grid set_grid].
    repeat match goal with |- _ /\ _ => split end; try assumption; try reflexivity.
    - apply opened_walls.
    - apply dims_walls.
    - pose proof (count_open_nonneg g0 (cols m) (rows m)).
      unfold carve_fuel. cbn [cols rows set_grid]. nia. }
  exists m'. split; [ exact Hm' | exact Hsteps ].
Qed.

(** X4.  For at least 5 columns and 3 rows and a non-negative integer
    seed, the grid that [_generateMaze] returns has exactly
    [2 * n - 1] cells that are not Walls, where
    [n = ((cols - 1) / 2) * ((rows - 1) / 2)] is the number of cells at
    odd coordinates inside the border: all [n] of them, and one passage
    cell for each but the first. *)
Theorem generated_path_count m :
  5 <= cols m -> 3 <= rows m -> 0 <= rng m ->
  exists m',
    _generateMaze m = Ok m' /\
    count_nodes (grid m') (cols m) (rows m)
    = (cols m - 1) / 2 * ((rows m - 1) / 2) /\
    count_open (grid m') (cols m) (rows m)
    = 2 * ((cols m - 1) / 2 * ((rows m - 1) / 2)) - 1.
Proof.
  intros Hc Hr Hs.
  destruct (generateMaze_spec m Hc Hr Hs) as (m' & Hm' & _ & _ & _ & Hcv & Hnodes).
  destruct (generateMaze_steps m Hc Hr Hs) as (m2 & Hm2 & Hsteps).
  rewrite Hm' in Hm2. injection Hm2 as <-.
  destruct (start_column_spec (cols m) Hc) as [Hodd Hrange].
  assert (Hin : interior (cols m) (rows m) (start_column (cols m)) 1)
    by (unfold interior; lia).
  pose proof (carved_start (cols m) (rows m) _ 1 Hodd eq_refl Hin) as Hstart.
  pose proof (carves_nodes _ _ _ _ _ _ Hstart Hsteps) as Hdiff.
  pose proof (all_nodes_reached (cols m) (rows m) (grid m') (start_column (cols m))
                Hnodes Hodd Hrange ltac:(lia) (carved_root _ _ _ _ _ Hcv)) as Hall.
  pose proof (count_nodes_full (grid m') (cols m) (rows m) _ _
                ltac:(lia) ltac:(lia) Hcv Hall) as Hfull.
  exists m'. split; [ exact Hm' | ]. split; [ exact Hfull | ].
  set (g0 := repeat (repeat WALL (Z.to_nat (cols m))) (Z.to_nat (rows m))) in *.
  assert (Hd0 : dims g0 (cols m) (rows m)) by apply dims_walls.
  assert (H1 : count_open (Grid.set g0 (start_column (cols m)) 1 PATH) (cols m) (rows m) = 1).
  { destruct (open_cell_counts g0 (cols m) (rows m) (start_column (cols m)) 1 PATH)
      as [V _]; try assumption; try lia; try discriminate; [ apply opened_walls | ].
    rewrite V. unfold count_open. rewrite tally_zero; [ reflexivity | ].
    intros a b. unfold g0. now rewrite opened_walls. }
  assert (H2 : count_nodes (Grid.set g0 (start_column (cols m)) 1 PATH) (cols m) (rows m) = 1).
  { unfold count_nodes.
    rewrite (tally_ext _ _ _
               (fun a b => if (a =? start_column (cols m)) && (b =? 1) then 1 else 0)).
    - apply tally_point; lia.
    - intros a b Ha Hb.
      rewrite (opened_set _ (cols m) (rows m)) by (assumption || lia || discriminate).
      unfold g0. rewrite opened_walls, orb_false_r.
      destruct ((a =? start_column (cols m)) && (b =? 1)) eqn:E.
      + apply andb_true_iff in E. destruct E as [E1 E2].
        apply Z.eqb_eq in E1, E2. subst a b. rewrite Hodd. reflexivity.
      + now rewrite andb_false_r. }
  lia.
Qed.

Lemma generated_path_count_witness :
  exists m',
    _generateMaze sample_generator = Ok m' /\
    count_nodes (grid m') 9 9 = (9 - 1) / 2 * ((9 - 1) / 2) /\
    count_open (grid m') 9 9 = 2 * ((9 - 1) / 2 * ((9 - 1) / 2)) - 1.
Proof. apply (generated_path_count sample_generator); cbn; lia. Defined.

(** *** The cells that [_createEntryAndExits] changes *)

Lemma existsb_eqb_In x l : existsb (Z.eqb x) l = true <-> In x l.
Proof.
  rewrite existsb_exists. split.
  - intros (c & Hin & E). apply Z.eqb_eq in E. now subst.
  - intros H. exists x. split; [ exact H | apply Z.eqb_refl ].
Qed.

Lemma open_exits_incl positions :
  forall m c, In c (exitColumns m) ->
              In c (exitColumns (fold_left open_exit positions m)).
Proof.
  induction positions as [|pos l IH]; intros m c H; cbn [fold_left]; [ exact H | ].
  apply IH. unfold open_exit. cbn [exitColumns set_exitColumns set_grid].
  apply in_or_app. now left.
Qed.

Section ExitCells.
Variables (C R : Z) (g0 : Grid.t).
Hypothesis HC : 5 <= C.
Hypothesis HR : 5 <= R.
Hypothesis Hcv : carved C R (start_column C) 1 g0.
Hypothesis Hrow : Grid.get g0 (start_column C) (R - 2) = Some PATH.

(** Opening the exits changes the cells of the last row in the exit
    columns and no other cell. *)
Lemma open_exits_frame positions :
  forall m,
    exits_inv C R g0 (start_column C) m ->
    forall x y,
      (y = R - 1 -> ~ In x (exitColumns (fold_left open_exit positions m))) ->
      Grid.get (grid (fold_left open_exit positions m)) x y = Grid.get (grid m) x y.
Proof.
  induction positions as [|pos l IH]; intros m Hm x y Hxy; cbn [fold_left] in *;
    [ reflexivity | ].
  assert (Hm1 : exits_inv C R g0 (start_column C) (open_exit m pos))
    by (eapply open_exit_inv; eassumption).
  rewrite (IH _ Hm1 x y Hxy).
  unfold open_exit. cbn [grid set_exitColumns set_grid].
  pose proof Hm as (_ & Hrm & _).
  apply get_set_ne. intros He. injection He as E1 E2.
  rewrite Hrm in E2. apply (Hxy E2). apply open_exits_incl.
  unfold open_exit. cbn [exitColumns set_exitColumns set_grid].
  apply in_or_app. right. left. symmetry. exact E1.
Qed.

(** The loop that connects the exits changes nothing. *)
Lemma createEntryAndExits_opens m :
  cols m = C -> rows m = R -> grid m = g0 ->
  _createEntryAndExits m
  = fold_left open_exit exitPositions
      (set_exitColumns []
         (set_grid (Grid.set (Grid.set g0 (C / 2) 0 ENTRY) (C / 2) 1 PATH) m)).
Proof.
  intros Hc Hr Hg.
  assert (Hentry : exits_inv C R g0 (start_column C)
                     (set_exitColumns []
                        (set_grid (Grid.set (Grid.set g0 (C / 2) 0 ENTRY) (C / 2) 1 PATH) m)))
    by (eapply entry_inv; eassumption).
  pose proof (open_exits_inv C R g0 HC HR Hrow exitPositions _ Hentry) as Hinv.
  rewrite createEntryAndExits_eq, Hc, Hg.
  set (me := fold_left open_exit exitPositions _) in *.
  destruct Hinv as (_ & Hr' & _ & Hsame & _ & _ & _ & Hexits).
  rewrite Hr'.
  rewrite (connect_exits_noop R g0 (grid me) (exitColumns me) Hsame).
  - destruct me. reflexivity.
  - eapply Forall_impl; [ | exact Hexits ]. cbv beta. tauto.
Qed.

Lemma createEntryAndExits_cells m x y :
  cols m = C -> rows m = R -> grid m = g0 ->
  Grid.get (grid (_createEntryAndExits m)) x y
  = if (x =? C / 2) && (y =? 0) then Some ENTRY
    else if (x =? C / 2) && (y =? 1) then Some PATH
    else if (y =? R - 1) && existsb (Z.eqb x) (exitColumns (_createEntryAndExits m))
         then Some EXIT
         else Grid.get g0 x y.
Proof.
  intros Hc Hr Hg.
  pose proof (createEntryAndExits_spec C R g0 HC HR Hcv Hrow m Hc Hr Hg)
    as (_ & _ & _ & _ & _ & _ & _ & Hexits).
  pose proof (carved_dims _ _ _ _ _ Hcv) as Hd0.
  assert (Hcx : 0 < C / 2 < C - 1) by (Z.div_mod_to_equations; lia).
  destruct ((y =? R - 1) && existsb (Z.eqb x) (exitColumns (_createEntryAndExits m)))
    eqn:E.
  - apply andb_true_iff in E. destruct E as [E1 E2].
    apply Z.eqb_eq in E1. apply existsb_eqb_In in E2. subst y.
    replace (R - 1 =? 0) with false by (symmetry; apply Z.eqb_neq; lia).
    replace (R - 1 =? 1) with false by (symmetry; apply Z.eqb_neq; lia).
    rewrite !andb_false_r.
    rewrite Forall_forall in Hexits. destruct (Hexits x E2) as (_ & _ & H). exact H.
  - assert (Hout : y = R - 1 -> ~ In x (exitColumns (_createEntryAndExits m))).
    { intros -> Hin. apply existsb_eqb_In in Hin.
      rewrite Z.eqb_refl, Hin in E. discriminate. }
    clear E Hexits. revert Hout.
    rewrite (createEntryAndExits_opens m Hc Hr Hg). intros Hout.
    rewrite open_exits_frame; [ | eapply entry_inv; eassumption | exact Hout ].
    cbn [grid set_exitColumns set_grid].
    rewrite (get_set _ C R) by (try apply dims_set; assumption || lia).
    rewrite (get_set _ C R) by (assumption || lia).
    destruct ((x =? C / 2) && (y =? 0)) eqn:E0; destruct ((x =? C / 2) && (y =? 1)) eqn:E1;
      try reflexivity.
    exfalso. apply andb_true_iff in E0, E1. destruct E0 as [_ E0], E1 as [_ E1].
    apply Z.eqb_eq in E0, E1. lia.
Qed.

End ExitCells.

(** X5.  For odd numbers of columns and rows, at least 5 each, and a
    non-negative integer seed: [_createEntryAndExits] after
    [_generateMaze] records exactly five exit columns, each inside the
    border and each under a cell that carving made Path; it makes
    [(cols / 2, 0)] the Entry, [(cols / 2, 1)] a Path, the cells of the
    last row in the exit columns Exits, and changes no other cell.  The
    loop that carves upwards from an exit to the nearest Path never
    carves. *)
Theorem exits_opened m :
  Z.odd (cols m) = true -> Z.odd (rows m) = true ->
  5 <= cols m -> 5 <= rows m -> 0 <= rng m ->
  exists mc,
    _generateMaze m = Ok mc /\
    length (exitColumns (_createEntryAndExits mc)) = 5%nat /\
    Forall (fun c => 1 <= c <= cols m - 2 /\
                     Grid.get (grid mc) c (rows m - 2) = Some PATH)
           (exitColumns (_createEntryAndExits mc)) /\
    forall x y,
      Grid.get (grid (_createEntryAndExits mc)) x y
      = if (x =? cols m / 2) && (y =? 0) then Some ENTRY
        else if (x =? cols m / 2) && (y =? 1) then Some PATH
        else if (y =? rows m - 1)
                && existsb (Z.eqb x) (exitColumns (_createEntryAndExits mc))
             then Some EXIT
             else Grid.get (grid mc) x y.
Proof.
  intros _ Hor Hc Hr Hs.
  destruct (generateMaze_spec m) as (mc & Hmc & Hc' & Hr' & Hs' & Hcv & Hnodes);
    try lia.
  destruct (start_column_spec (cols m)) as [Hodd Hrange]; [ lia | ].
  pose proof (all_nodes_reached (cols m) (rows m) (grid mc) (start_column (cols m))
                Hnodes Hodd Hrange ltac:(lia) (carved_root _ _ _ _ _ Hcv)) as Hall.
  assert (Hrow : Grid.get (grid mc) (start_column (cols m)) (rows m - 2) = Some PATH).
  { assert (Ho : opened (grid mc) (start_column (cols m)) (rows m - 2) = true).
    { apply Hall; [ exact Hodd | | unfold interior; lia ].
      clear - Hor. parity. }
    unfold opened in Ho.
    destruct (Grid.get (grid mc) (start_column (cols m)) (rows m - 2)) as [c|] eqn:E;
      [ | discriminate ].
    destruct (carved_cells _ _ _ _ _ Hcv _ _ c E) as [-> | ->];
      [ discriminate | reflexivity ]. }
  destruct (createEntryAndExits_spec (cols m) (rows m) (grid mc)
              ltac:(lia) ltac:(lia) Hcv Hrow mc Hc' Hr' eq_refl)
    as (_ & _ & _ & _ & _ & _ & Hlen & Hexits).
  pose proof (createEntryAndExits_opens (cols m) (rows m) (grid mc)
                ltac:(lia) ltac:(lia) Hcv Hrow mc Hc' Hr' eq_refl) as Hopens.
  exists mc. split; [ exact Hmc | ]. split; [ exact Hlen | ]. split.
  - pose proof (entry_inv (cols m) (rows m) (grid mc) ltac:(lia) ltac:(lia) Hcv
                  mc Hc' Hr' eq_refl) as Hentry.
    pose proof (open_exits_inv (cols m) (rows m) (grid mc) ltac:(lia) ltac:(lia) Hrow
                  exitPositions _ Hentry) as Hinv.
    rewrite <- Hopens in Hinv.
    destruct Hinv as (_ & _ & _ & _ & _ & _ & _ & Hcols).
    eapply Forall_impl; [ | exact Hcols ]. cbv beta. intros c (H1 & H2 & _).
    split; [ lia | exact H2 ].
  - intros x y.
    apply (createEntryAndExits_cells (cols m) (rows m) (grid mc)
             ltac:(lia) ltac:(lia) Hcv Hrow mc x y Hc' Hr' eq_refl).
Qed.

Lemma exits_opened_witness :
  exists mc,
    _generateMaze sample_generator = Ok mc /\
    length (exitColumns (_createEntryAndExits mc)) = 5%nat /\
    Forall (fun c => 1 <= c <= 9 - 2 /\ Grid.get (grid mc) c (9 - 2) = Some PATH)
           (exitColumns (_createEntryAndExits mc)) /\
    forall x y,
      Grid.get (grid (_createEntryAndExits mc)) x y
      = if (x =? 9 / 2) && (y =? 0) then Some ENTRY
        else if (x =? 9 / 2) && (y =? 1) then Some PATH
        else if (y =? 9 - 1)
                && existsb (Z.eqb x) (exitColumns (_createEntryAndExits mc))
             then Some EXIT
             else Grid.get (grid mc) x y.
Proof. apply (exits_opened sample_generator); cbn; (reflexivity || lia). Defined.

(** *** Where the exits are *)






Section ExitColumns.
Variables (C R : Z) (g0 : Grid.t).
Hypothesis HC : 5 <= C.
Hypothesis HR : 5 <= R.
Hypothesis Hcv : carved C R (start_column C) 1 g0.
Hypothesis Hrow : Grid.get g0 (start_column C) (R - 2) = Some PATH.



End ExitColumns.






End MazeProps.

(** ** MazeGenerator: wall rectangles and [isWall] *)

Module WallProps.
Import MazeSpec GridProofs CarveProofs ExitProofs MazeGenerator.
#[local] Open Scope Z_scope.

(** *** _buildWallRects *)

Lemma wall_row_fold y l :
  forall m0,
    fold_left
      (fun m x =>
         if Grid.cell_is (grid m) x y WALL
         then set_wallRects (wallRects m ++ [wall_rect m x y]) m
         else m) l m0
    = set_wallRects
        (wallRects m0
         ++ flat_map (fun x => if Grid.cell_is (grid m0) x y WALL
                               then [wall_rect m0 x y] else []) l)
        m0.
Proof.
  induction l as [|x l IH]; intros m0; cbn [fold_left flat_map].
  - rewrite app_nil_r. destruct m0. reflexivity.
  - rewrite IH. destruct (Grid.cell_is (grid m0) x y WALL) eqn:E.
    + cbn [wallRects set_wallRects grid]. rewrite <- app_assoc. reflexivity.
    + reflexivity.
Qed.

Lemma wall_rows_fold l :
  forall m0,
    fold_left
      (fun m y =>
         fold_left
           (fun m x =>
              if Grid.cell_is (grid m) x y WALL
              then set_wallRects (wallRects m ++ [wall_rect m x y]) m
              else m)
           (range 0 (cols m)) m) l m0
    = set_wallRects
        (wallRects m0
         ++ flat_map
              (fun y =>
                 flat_map (fun x => if Grid.cell_is (grid m0) x y WALL
                                    then [wall_rect m0 x y] else [])
                          (range 0 (cols m0))) l)
        m0.
Proof.
  induction l as [|y l IH]; intros m0; cbn [fold_left flat_map].
  - rewrite app_nil_r. destruct m0. reflexivity.
  - rewrite wall_row_fold, IH.
    cbn [wallRects set_wallRects grid cols]. rewrite <- app_assoc. reflexivity.
Qed.

Lemma buildWallRects_eq m : _buildWallRects m = set_wallRects (wall_cells m) m.
Proof.
  unfold _buildWallRects. cbv zeta.
  rewrite wall_rows_fold. reflexivity.
Qed.

Lemma in_wall_cells m r :
  In r (wall_cells m) <->
  exists x y,
    0 <= x < cols m /\ 0 <= y < rows m /\
    Grid.get (grid m) x y = Some WALL /\ r = wall_rect m x y.
Proof.
  unfold wall_cells. rewrite in_flat_map. split.
  - intros (y & Hy & Hin). apply in_flat_map in Hin. destruct Hin as (x & Hx & Hin).
    apply in_range in Hx, Hy.
    destruct (Grid.cell_is (grid m) x y WALL) eqn:E; [ | destruct Hin ].
    apply cell_is_true in E. destruct Hin as [<- | []].
    exists x, y. repeat split; (lia || assumption).
  - intros (x & y & Hx & Hy & Hg & ->).
    exists y. split; [ apply in_range; lia | ].
    apply in_flat_map. exists x. split; [ apply in_range; lia | ].
    apply cell_is_true in Hg. rewrite Hg. now left.
Qed.

(** X6.  On a grid of [rows] rows of [cols] cells, [_buildWallRects]
    leaves in [wallRects] exactly the squares of the Wall cells: a
    rectangle is in the list if and only if it is the square of side
    [cellSize] at [(x * cellSize, y * cellSize)] of a cell [(x, y)] of
    the grid tagged Wall.  Nothing else of the generator changes. *)
Theorem wall_rects_of_wall_cells m :
  dims (grid m) (cols m) (rows m) ->
  (forall r,
      In r (getWallRects (_buildWallRects m)) <->
      exists x y,
        0 <= x < cols m /\ 0 <= y < rows m /\
        Grid.get (grid m) x y = Some WALL /\
        r = Rect.mk (IZR (x * cellSize m)) (IZR (y * cellSize m))
                    (IZR (cellSize m)) (IZR (cellSize m)) true) /\
  _buildWallRects m = set_wallRects (getWallRects (_buildWallRects m)) m.
Proof.
  intros _. rewrite buildWallRects_eq. unfold getWallRects.
  cbn [wallRects set_wallRects]. split; [ | reflexivity ].
  intros r. apply in_wall_cells.
Qed.

Lemma wall_rects_of_wall_cells_witness :
  (forall r,
      In r (getWallRects (_buildWallRects small_generator)) <->
      exists x y,
        0 <= x < 3 /\ 0 <= y < 3 /\
        Grid.get (grid small_generator) x y = Some WALL /\
        r = Rect.mk (IZR (x * 20)) (IZR (y * 20)) (IZR 20) (IZR 20) true) /\
  _buildWallRects small_generator
  = set_wallRects (getWallRects (_buildWallRects small_generator)) small_generator.
Proof.
  apply (wall_rects_of_wall_cells small_generator).
  split; [ reflexivity | repeat constructor ].
Defined.

(** *** isWall *)

Section Floor.
#[local] Open Scope R_scope.

Lemma floor_cell (cs k : Z) (x : R) :
  (0 < cs)%Z ->
  Int_part (x / IZR cs) = k <-> IZR (k * cs) <= x < IZR (k * cs) + IZR cs.
Proof.
  intros Hcs. apply IZR_lt in Hcs.
  rewrite mult_IZR.
  assert (Hx : x = x / IZR cs * IZR cs) by (field; lra).
  set (q := x / IZR cs) in *. set (c := IZR cs) in *.
  split.
  - intros <-. destruct (base_Int_part q) as [H1 H2]. nra.
  - intros [H1 H2]. symmetry. apply Int_part_spec. split; nra.
Qed.

Lemma floor_cell_negative (cs : Z) (x : R) :
  (0 < cs)%Z -> (Int_part (x / IZR cs) < 0)%Z <-> x < 0.
Proof.
  intros Hcs. apply IZR_lt in Hcs.
  assert (Hx : x = x / IZR cs * IZR cs) by (field; lra).
  set (q := x / IZR cs) in *. set (c := IZR cs) in *.
  destruct (base_Int_part q) as [H1 H2].
  split.
  - intros H. assert (Hle : (Int_part q <= -1)%Z) by lia.
    apply IZR_le in Hle. nra.
  - intros H. apply lt_IZR. nra.
Qed.

Lemma floor_cell_beyond (cs n : Z) (x : R) :
  (0 < cs)%Z -> (n <= Int_part (x / IZR cs))%Z <-> IZR (n * cs) <= x.
Proof.
  intros Hcs. apply IZR_lt in Hcs.
  rewrite mult_IZR.
  assert (Hx : x = x / IZR cs * IZR cs) by (field; lra).
  set (q := x / IZR cs) in *. set (c := IZR cs) in *.
  destruct (base_Int_part q) as [H1 H2].
  split.
  - intros H. apply IZR_le in H. nra.
  - intros H. assert (Hlt : (n - 1 < Int_part q)%Z); [ | lia ].
    apply lt_IZR. rewrite minus_IZR. nra.
Qed.

End Floor.

(** What [isWall] returns on a grid of the right size: [true] outside
    the maze, and inside it whether the cell of the point is a Wall. *)
Lemma isWall_cell m px py :
  0 < cellSize m -> dims (grid m) (cols m) (rows m) ->
  (outside_maze m px py /\ isWall px py m = Ok true) \/
  (~ outside_maze m px py /\
   0 <= Int_part (px / IZR (cellSize m)) < cols m /\
   0 <= Int_part (py / IZR (cellSize m)) < rows m /\
   exists c,
     Grid.get (grid m) (Int_part (px / IZR (cellSize m)))
              (Int_part (py / IZR (cellSize m))) = Some c /\
     isWall px py m = Ok (CellType_eqb c WALL)).
Proof.
  intros Hcs Hd. unfold isWall. cbv zeta.
  set (col := Int_part (px / IZR (cellSize m))).
  set (row := Int_part (py / IZR (cellSize m))).
  pose proof (floor_cell_negative (cellSize m) px Hcs) as Hx0.
  pose proof (floor_cell_negative (cellSize m) py Hcs) as Hy0.
  pose proof (floor_cell_beyond (cellSize m) (cols m) px Hcs) as Hx1.
  pose proof (floor_cell_beyond (cellSize m) (rows m) py Hcs) as Hy1.
  fold col in Hx0, Hx1. fold row in Hy0, Hy1.
  destruct ((col <? 0) || (cols m <=? col) || (row <? 0) || (rows m <=? row)) eqn:E.
  - left. split; [ | reflexivity ].
    rewrite !orb_true_iff, !Z.ltb_lt, !Z.leb_le in E. unfold outside_maze.
    destruct E as [[[E|E]|E]|E]; tauto.
  - right.
    rewrite !orb_false_iff, !Z.ltb_ge, !Z.leb_gt in E.
    destruct E as [[[E1 E2] E3] E4].
    split; [ | split; [ lia | split; [ lia | ] ] ].
    + unfold outside_maze. intros [H|[H|[H|H]]];
        [ apply Hx0 in H | apply Hx1 in H | apply Hy0 in H | apply Hy1 in H ]; lia.
    + destruct (get_in_range _ _ _ col row Hd ltac:(lia) ltac:(lia)) as [c Hc].
      exists c. split; [ exact Hc | ].
      unfold Grid.get in Hc.
      replace ((col <? 0) || (row <? 0))%bool with false in Hc
        by (symmetry; apply orb_false_iff; split; apply Z.ltb_ge; lia).
      destruct (nth_error (grid m) (Z.to_nat row)) as [r|]; [ | discriminate ].
      rewrite Hc. reflexivity.
Qed.

(** X7.  After [_buildWallRects] on a grid of [rows] rows of [cols]
    cells with a positive [cellSize], [isWall(x, y)] returns, and it
    returns [true] exactly for the points outside the maze area and the
    points inside one of the wall rectangles (left and upper edges
    included): the test by cell and the list of rectangles handed to the
    physics engine describe the same walls. *)
Theorem isWall_agrees_with_wall_rects m px py :
  0 < cellSize m -> dims (grid m) (cols m) (rows m) ->
  exists b,
    isWall px py (_buildWallRects m) = Ok b /\
    (b = true <->
     outside_maze m px py \/
     exists r, In r (getWallRects (_buildWallRects m)) /\ in_rect px py r).
Proof.
  intros Hcs Hd. rewrite buildWallRects_eq. unfold getWallRects.
  cbn [wallRects set_wallRects].
  change (isWall px py (set_wallRects (wall_cells m) m)) with (isWall px py m).
  destruct (isWall_cell m px py Hcs Hd) as [[Hout ->] | (Hin & Hcol & Hrow & c & Hc & ->)].
  - exists true. split; [ reflexivity | ]. tauto.
  - exists (CellType_eqb c WALL). split; [ reflexivity | ].
    set (col := Int_part (px / IZR (cellSize m))) in *.
    set (row := Int_part (py / IZR (cellSize m))) in *.
    split.
    + intros E. right. assert (c = WALL) by (destruct c; (reflexivity || discriminate)).
      subst c. exists (wall_rect m col row). split.
      * apply in_wall_cells. exists col, row. repeat split; (lia || assumption).
      * unfold in_rect, wall_rect. cbn [Rect.x Rect.y Rect.width Rect.height].
        split; apply (floor_cell (cellSize m)); (assumption || reflexivity).
    + intros [Hout | (r & Hr & [Hrx Hry])]; [ contradiction | ].
      apply in_wall_cells in Hr. destruct Hr as (x & y & Hx & Hy & Hg & ->).
      unfold wall_rect in Hrx, Hry. cbn [Rect.x Rect.y Rect.width Rect.height] in Hrx, Hry.
      apply (floor_cell (cellSize m) x px Hcs) in Hrx.
      apply (floor_cell (cellSize m) y py Hcs) in Hry.
      fold col in Hrx. fold row in Hry. subst x y.
      rewrite Hg in Hc. injection Hc as <-. reflexivity.
Qed.

Lemma isWall_agrees_with_wall_rects_witness :
  exists b,
    isWall 30 30 (_buildWallRects small_generator) = Ok b /\
    (b = true <->
     outside_maze small_generator 30 30 \/
     exists r, In r (getWallRects (_buildWallRects small_generator)) /\ in_rect 30 30 r).
Proof.
  apply (isWall_agrees_with_wall_rects small_generator 30 30).
  - reflexivity.
  - split; [ reflexivity | repeat constructor ].
Defined.

(** X8.  On a generator whose grid is still empty, as [new
    MazeGenerator()] leaves it, [isWall(x, y)] throws for every point
    inside the [cols * cellSize] by [rows * cellSize] area: the bounds
    test passes and [this.grid[row]] is [undefined]. *)
Theorem isWall_throws_without_grid m px py :
  grid m = [] -> 0 < cellSize m ->
  (0 <= px < IZR (cols m * cellSize m))%R ->
  (0 <= py < IZR (rows m * cellSize m))%R ->
  isWall px py m = TypeError.
Proof.
  intros Hg Hcs Hx Hy. unfold isWall. cbv zeta.
  set (col := Int_part (px / IZR (cellSize m))).
  set (row := Int_part (py / IZR (cellSize m))).
  pose proof (floor_cell_negative (cellSize m) px Hcs) as Hx0.
  pose proof (floor_cell_negative (cellSize m) py Hcs) as Hy0.
  pose proof (floor_cell_beyond (cellSize m) (cols m) px Hcs) as Hx1.
  pose proof (floor_cell_beyond (cellSize m) (rows m) py Hcs) as Hy1.
  fold col in Hx0, Hx1. fold row in Hy0, Hy1.
  replace ((col <? 0) || (cols m <=? col) || (row <? 0) || (rows m <=? row))%bool
    with false.
  - rewrite Hg. destruct (Z.to_nat row); reflexivity.
  - symmetry. rewrite !orb_false_iff, !Z.ltb_ge, !Z.leb_gt.
    assert (A1 : ~ (col < 0)) by (intros F; apply Hx0 in F; lra).
    assert (A2 : ~ (row < 0)) by (intros F; apply Hy0 in F; lra).
    assert (A3 : ~ (cols m <= col)) by (intros F; apply Hx1 in F; lra).
    assert (A4 : ~ (rows m <= row)) by (intros F; apply Hy1 in F; lra).
    lia.
Qed.

Lemma isWall_throws_without_grid_witness :
  isWall 10 10 (constructor 0) = TypeError.
Proof.
  apply (isWall_throws_without_grid (constructor 0) 10 10).
  - reflexivity.
  - reflexivity.
  - simpl. lra.
  - simpl. lra.
Defined.

End WallProps.

(** ** MazeGenerator: what [init] hands to the game *)

Module LevelProps.
Import MazeSpec GridProofs CarveProofs ExitProofs InitProofs MazeProps WallProps.
Import LayoutProofs MazeGenerator.
#[local] Open Scope Z_scope.

Lemma layout_sizes level cw ch :
  1 <= level ->
  16 <= l_cellSize (layout level cw ch) /\
  Z.odd (l_cols (layout level cw ch)) = true /\
  Z.odd (l_rows (layout level cw ch)) = true /\
  9 <= l_cols (layout level cw ch) /\ 9 <= l_rows (layout level cw ch).
Proof.
  intros Hlevel. unfold layout. cbv zeta.
  destruct (negb (Qle_bool cw ch));
    match goal with
    | |- context [choose_size ?lv ?aw ?ah] =>
        pose proof (choose_size_spec lv aw ah Hlevel) as Hs;
        destruct (choose_size lv aw ah) as [[c r] s];
        specialize (Hs c r s eq_refl)
    end; cbn [l_cols l_rows l_cellSize]; tauto.
Qed.

(** The cell above the last row in the start column is a Path once all
    cells at odd coordinates are open. *)
Lemma carved_start_column C R g :
  5 <= C -> 5 <= R -> Z.odd R = true ->
  carved C R (start_column C) 1 g ->
  (forall a b, Z.odd a = true -> Z.odd b = true -> opened g a b = true ->
               closed_node C R g a b) ->
  Grid.get g (start_column C) (R - 2) = Some PATH.
Proof.
  intros HC HR Hodd Hcv Hnodes.
  destruct (start_column_spec C HC) as [Hs Hrange].
  pose proof (all_nodes_reached C R g (start_column C)
                Hnodes Hs Hrange ltac:(lia) (carved_root _ _ _ _ _ Hcv)) as Hall.
  assert (Ho : opened g (start_column C) (R - 2) = true).
  { apply Hall; [ exact Hs | | unfold interior; lia ].
    clear - Hodd. ConnectProofs.parity. }
  unfold opened in Ho.
  destruct (Grid.get g (start_column C) (R - 2)) as [c|] eqn:E; [ | discriminate ].
  destruct (carved_cells _ _ _ _ _ Hcv _ _ c E) as [-> | ->];
    [ discriminate | reflexivity ].
Qed.

(** What the last steps of [init] keep and build. *)
Lemma finish_level ex ey M1 :
  sizes (set_entry ex ey (_buildWallRects (_buildExitZones M1))) = sizes M1 /\
  grid (set_entry ex ey (_buildWallRects (_buildExitZones M1))) = grid M1 /\
  exitColumns (set_entry ex ey (_buildWallRects (_buildExitZones M1))) = exitColumns M1 /\
  exitZones (set_entry ex ey (_buildWallRects (_buildExitZones M1)))
  = map (exit_zone (set_entry ex ey (_buildWallRects (_buildExitZones M1))))
        [0; 1; 2; 3; 4]%nat /\
  wallRects (set_entry ex ey (_buildWallRects (_buildExitZones M1)))
  = wall_cells (set_entry ex ey (_buildWallRects (_buildExitZones M1))).
Proof.
  rewrite buildWallRects_eq, buildExitZones_eq. destruct M1.
  repeat split; reflexivity.
Qed.

Lemma level_facts (T : Z * Z * Z * Z * Z) mc M1 m' :
  sizes mc = T -> sizes M1 = sizes mc -> sizes m' = sizes M1 ->
  sizes m' = T /\ cols mc = cols m' /\ rows mc = rows m'.
Proof.
  unfold sizes. intros H1 H2 H3.
  rewrite H3, H2, H1. rewrite H2 in H3.
  injection H3 as E1 E2 _ _ _. auto.
Qed.

(** What the generator holds after [init]. *)
Lemma init_level now level cw ch m :
  0 <= now -> 1 <= level ->
  exists mc m',
    init now level cw ch m = Ok m' /\
    sizes m' = (l_cols (layout level cw ch), l_rows (layout level cw ch),
                l_cellSize (layout level cw ch),
                l_cols (layout level cw ch) * l_cellSize (layout level cw ch),
                l_rows (layout level cw ch) * l_cellSize (layout level cw ch)) /\
    cols mc = cols m' /\ rows mc = rows m' /\
    carved (cols mc) (rows mc) (start_column (cols mc)) 1 (grid mc) /\
    Grid.get (grid mc) (start_column (cols mc)) (rows mc - 2) = Some PATH /\
    grid m' = grid (_createEntryAndExits mc) /\
    exitColumns m' = exitColumns (_createEntryAndExits mc) /\
    exitZones m' = map (exit_zone m') [0; 1; 2; 3; 4]%nat /\
    wallRects m' = wall_cells m'.
Proof.
  intros Hnow Hlevel. rewrite init_eq.
  pose proof (layout_sizes level cw ch Hlevel) as (Hl1 & Hl2 & Hl3 & Hl4 & Hl5).
  set (l := layout level cw ch) in *.
  set (m0 := mk _ _ _ _ _ _ _ _ _ _ _ _ _ _ _ _).
  destruct (generateMaze_spec m0) as (mc & Hmc & Hc' & Hr' & _ & Hcv & Hnodes);
    cbn [cols rows rng m0]; try lia.
  rewrite Hmc. cbn [result_map].
  pose proof (generateMaze_frame _ _ Hmc) as Hf.
  assert (Hsz : sizes mc = (l_cols l, l_rows l, l_cellSize l,
                            l_cols l * l_cellSize l, l_rows l * l_cellSize l)).
  { unfold frame in Hf. injection Hf as F1 _ _ _ _ _ _ F8 F9 _ _ _.
    unfold sizes. rewrite Hc', Hr', F1, F8, F9. reflexivity. }
  change (cols m0) with (l_cols l) in *. change (rows m0) with (l_rows l) in *.
  rewrite <- Hc', <- Hr' in Hcv, Hnodes.
  assert (Hrow : Grid.get (grid mc) (start_column (cols mc)) (rows mc - 2) = Some PATH)
    by (apply carved_start_column; try assumption; try lia; rewrite Hr'; exact Hl3).
  clear Hf Hmc Hnodes. clearbody m0.
  exists mc. eexists. split; [ reflexivity | ].
  match goal with
  | |- context [set_entry ?ex ?ey (_buildWallRects (_buildExitZones (_createEntryAndExits mc)))] =>
      pose proof (finish_level ex ey (_createEntryAndExits mc)) as (G1 & G2 & G3 & G4 & G5);
      pose proof (level_facts _ mc _ _ Hsz (createEntryAndExits_sizes mc) G1) as (G6 & G7 & G8);
      generalize dependent (set_entry ex ey (_buildWallRects (_buildExitZones (_createEntryAndExits mc))))
  end.
  intros m' G1 G2 G3 G4 G5 G6 G7 G8.
  repeat match goal with |- _ /\ _ => split end; assumption.
Qed.

(** *** getDimensions *)

(** Rounding to a double raises a positive integer by at most one part
    in 2^53. *)
Lemma round53_upper v :
  0 < v -> 2 ^ 53 * SeededRandom.round53 v <= (2 ^ 53 + 1) * v.
Proof.
  intros Hv. unfold SeededRandom.round53.
  rewrite (Z.abs_eq v) by lia.
  set (e := Z.log2 v - 52).
  destruct (e <=? 0) eqn:Ee; [ lia | ].
  apply Z.leb_gt in Ee.
  rewrite Z.sgn_pos by lia. rewrite Z.mul_1_l.
  rewrite !Z.shiftl_mul_pow2, Z.shiftr_div_pow2 by lia. rewrite Z.mul_1_l.
  assert (Hpow : 2 ^ e = 2 * 2 ^ (e - 1)).
  { rewrite <- Z.pow_succ_r by lia. f_equal. lia. }
  assert (Hp1 : 0 < 2 ^ (e - 1)) by (apply Z.pow_pos_nonneg; lia).
  assert (Hlog : 2 ^ 53 * 2 ^ (e - 1) <= v).
  { rewrite <- Z.pow_add_r by lia.
    replace (53 + (e - 1)) with (Z.log2 v) by (unfold e; lia).
    apply Z.log2_spec. exact Hv. }
  pose proof (Z.div_mod v (2 ^ e) ltac:(lia)) as Hdm.
  pose proof (Z.mod_pos_bound v (2 ^ e) ltac:(lia)) as Hmod.
  set (q := v / 2 ^ e) in *. set (p := 2 ^ (e - 1)) in *.
  assert (Hr : v - q * 2 ^ e = v mod 2 ^ e) by lia.
  rewrite Hr.
  destruct (v mod 2 ^ e <? p) eqn:E1; [ nia | ].
  apply Z.ltb_ge in E1.
  destruct (p <? v mod 2 ^ e) eqn:E2; [ nia | ].
  destruct (Z.even q); nia.
Qed.



(** The exception is real: at a cell size of 180 the radius is 62, not
    [7 * 180 / 20 = 63]. *)
Lemma floor_times_0_35_at_180 : floor_times_0_35 180 = 62.
Proof. reflexivity. Qed.

Lemma ball_radius_fits m :
  0 <= cellSize m ->
  5 <= d_ballRadius (getDimensions m) /\
  (11 <= cellSize m -> 2 * d_ballRadius (getDimensions m) < cellSize m).
Proof.
  intros Hcs. unfold getDimensions. cbv zeta. cbn [d_ballRadius].
  split; [ lia | ]. intros H11.
  assert (Hf : 2 * floor_times_0_35 (cellSize m) < cellSize m); [ | lia ].
  unfold floor_times_0_35. rewrite Z.shiftr_div_pow2 by lia.
  pose proof (round53_upper (cellSize m * 6305039478318694) ltac:(lia)) as Hup.
  set (x := SeededRandom.round53 (cellSize m * 6305039478318694)) in *.
  pose proof (Z.div_mod x (2 ^ 54) ltac:(lia)) as Hdm.
  pose proof (Z.mod_pos_bound x (2 ^ 54) ltac:(lia)) as Hmod.
  change (2 ^ 54) with 18014398509481984 in *.
  change (2 ^ 53) with 9007199254740992 in *.
  lia.
Qed.



(** *** getExitZoneForX *)

Section Zones.
#[local] Open Scope R_scope.

(** X10.  After [_buildExitZones] on a maze of positive width [w],
    [getExitZoneForX(x)] returns [null] exactly for [x < 0] and
    [x > w]; it returns the first zone for [0 <= x <= w / 5] and the
    zone [i = 1 .. 4] for [i * w / 5 < x <= (i + 1) * w / 5]: a point on
    the line between two zones belongs to the left one.  The scores of
    the zones are 500, 100, 1000, 0 and 250 from left to right. *)
Theorem exit_zone_for_x m x :
  (0 < width m)%Z ->
  (getExitZoneForX x (_buildExitZones m) = None <-> x < 0 \/ IZR (width m) < x) /\
  (0 <= x <= IZR (width m) / 5 ->
   getExitZoneForX x (_buildExitZones m) = Some (exit_zone m 0)) /\
  (forall i, (1 <= i < 5)%nat ->
             INR i * (IZR (width m) / 5) < x <= (INR i + 1) * (IZR (width m) / 5) ->
             getExitZoneForX x (_buildExitZones m) = Some (exit_zone m i)) /\
  map ExitZone.score (getExitZones (_buildExitZones m)) = [500; 100; 1000; 0; 250].
Proof.
  intros Hw. apply IZR_lt in Hw.
  rewrite buildExitZones_eq. unfold getExitZoneForX, getExitZones.
  cbn [exitZones set_exitZones find map].
  unfold exit_zone. cbn [ExitZone.x ExitZone.width ExitZone.score nth exitScores es_score].
  cbn [INR]. set (w := IZR (width m)) in *.
  split; [ | split; [ | split ] ].
  - repeat match goal with
           | |- context [Rge_dec ?a ?b] => destruct (Rge_dec a b)
           | |- context [Rle_dec ?a ?b] => destruct (Rle_dec a b)
           end; split; intros H; try discriminate; try reflexivity; try lra.
  - intros Hx.
    repeat match goal with
           | |- context [Rge_dec ?a ?b] => destruct (Rge_dec a b)
           | |- context [Rle_dec ?a ?b] => destruct (Rle_dec a b)
           end; try reflexivity; lra.
  - intros i Hi Hx.
    destruct i as [|[|[|[|[|i]]]]]; try lia; cbn [INR nth] in *;
      repeat match goal with
             | |- context [Rge_dec ?a ?b] => destruct (Rge_dec a b)
             | |- context [Rle_dec ?a ?b] => destruct (Rle_dec a b)
             end; try reflexivity; lra.
  - reflexivity.
Qed.

Lemma exit_zone_for_x_witness :
  (getExitZoneForX 30 (_buildExitZones small_generator) = None
   <-> 30 < 0 \/ IZR (width small_generator) < 30) /\
  (0 <= 30 <= IZR (width small_generator) / 5 ->
   getExitZoneForX 30 (_buildExitZones small_generator)
   = Some (exit_zone small_generator 0)) /\
  (forall i, (1 <= i < 5)%nat ->
             INR i * (IZR (width small_generator) / 5) < 30
             <= (INR i + 1) * (IZR (width small_generator) / 5) ->
             getExitZoneForX 30 (_buildExitZones small_generator)
             = Some (exit_zone small_generator i)) /\
  map ExitZone.score (getExitZones (_buildExitZones small_generator))
  = [500; 100; 1000; 0; 250].
Proof. apply (exit_zone_for_x small_generator 30). reflexivity. Defined.

End Zones.

(** *** getSpawnPositions *)

Section Spawn.
#[local] Open Scope R_scope.

Lemma nth_error_seq_lt k n i : (i < n)%nat -> nth_error (seq k n) i = Some (k + i)%nat.
Proof.
  revert k i. induction n as [|n IH]; intros k i Hi; [ lia | ].
  destruct i as [|i]; cbn [seq nth_error].
  - f_equal. lia.
  - rewrite IH by lia. f_equal. lia.
Qed.

Lemma spawn_single m :
  getSpawnPositions 1 m
  = [((IZR (cols m / 2) + 1 / 2) * IZR (cellSize m), IZR (cellSize m) * (3 / 2))].
Proof.
  unfold getSpawnPositions. cbv zeta. cbn [seq map INR].
  unfold PHYSICS_CONFIG.ballRadius. f_equal. f_equal; field.
Qed.

(** X11.  [getSpawnPositions(n)] returns [n] positions.  A single ball
    is placed at the centre of the cell [(cols / 2, 1)], the cell under
    the entry.  In general the positions mirror each other about that
    centre's [x], and each is 5 pixels lower than the one before. *)
Theorem spawn_positions_centred n m :
  length (getSpawnPositions n m) = n /\
  getSpawnPositions 1 m
  = [((IZR (cols m / 2) + 1 / 2) * IZR (cellSize m), IZR (cellSize m) * (3 / 2))] /\
  forall i,
    (i < n)%nat ->
    exists p q,
      nth_error (getSpawnPositions n m) i = Some p /\
      nth_error (getSpawnPositions n m) (n - 1 - i) = Some q /\
      fst p + fst q = 2 * ((IZR (cols m / 2) + 1 / 2) * IZR (cellSize m)) /\
      snd p = IZR (cellSize m) * (3 / 2) + 5 * INR i.
Proof.
  split; [ | split; [ apply spawn_single | ] ].
  - unfold getSpawnPositions. cbv zeta. rewrite length_map. apply length_seq.
  - intros i Hi. unfold getSpawnPositions. cbv zeta.
    rewrite !nth_error_map, !nth_error_seq_lt by lia. cbn [option_map Nat.add].
    eexists. eexists. split; [ reflexivity | split; [ reflexivity | ] ].
    cbn [fst snd]. unfold PHYSICS_CONFIG.ballRadius.
    rewrite !minus_INR by lia. cbn [INR]. split; field.
Qed.

End Spawn.

(** The centre of the cell [(c, 1)] is farther from every other cell of
    the grid than a ball narrower than a cell reaches. *)
Lemma cell_centre_clear (cs c x y : Z) (rho : R) :
  0 < cs -> (x, y) <> (c, 1) ->
  (0 <= rho)%R -> (2 * rho < IZR cs)%R ->
  (rho <= sqrt
    (((IZR c + 1 / 2) * IZR cs
      - Rmax (IZR (x * cs)) (Rmin ((IZR c + 1 / 2) * IZR cs) (IZR (x * cs) + IZR cs)))
     * ((IZR c + 1 / 2) * IZR cs
        - Rmax (IZR (x * cs)) (Rmin ((IZR c + 1 / 2) * IZR cs) (IZR (x * cs) + IZR cs)))
     + (IZR cs * (3 / 2)
        - Rmax (IZR (y * cs)) (Rmin (IZR cs * (3 / 2)) (IZR (y * cs) + IZR cs)))
       * (IZR cs * (3 / 2)
          - Rmax (IZR (y * cs)) (Rmin (IZR cs * (3 / 2)) (IZR (y * cs) + IZR cs)))))%R.
Proof.
  intros Hcs Hne Hrho Hfit. apply IZR_lt in Hcs.
  rewrite !mult_IZR.
  set (s := IZR cs) in *.
  set (dX := ((IZR c + 1 / 2) * s
              - Rmax (IZR x * s) (Rmin ((IZR c + 1 / 2) * s) (IZR x * s + s)))%R).
  set (dY := (s * (3 / 2) - Rmax (IZR y * s) (Rmin (s * (3 / 2)) (IZR y * s + s)))%R).
  assert (Hfar : (s / 2 <= dX \/ dX <= - (s / 2) \/ s / 2 <= dY \/ dY <= - (s / 2))%R).
  { destruct (Z_lt_ge_dec x c) as [Hx|Hx].
    - left. assert (Hx' : (IZR x <= IZR c - 1)%R)
        by (rewrite <- minus_IZR; apply IZR_le; lia).
      unfold dX, Rmax, Rmin. repeat destruct (Rle_dec _ _); nra.
    - destruct (Z_lt_ge_dec c x) as [Hx2|Hx2].
      + right. left. assert (Hx' : (IZR c + 1 <= IZR x)%R)
          by (rewrite <- plus_IZR; apply IZR_le; lia).
        unfold dX, Rmax, Rmin. repeat destruct (Rle_dec _ _); nra.
      + assert (x = c) by lia. subst x.
        destruct (Z_lt_ge_dec y 1) as [Hy|Hy].
        * right. right. left. assert (Hy' : (IZR y <= 0)%R) by (apply IZR_le; lia).
          unfold dY, Rmax, Rmin. repeat destruct (Rle_dec _ _); nra.
        * destruct (Z_lt_ge_dec 1 y) as [Hy2|Hy2].
          -- right. right. right. assert (Hy' : (2 <= IZR y)%R) by (apply IZR_le; lia).
             unfold dY, Rmax, Rmin. repeat destruct (Rle_dec _ _); nra.
          -- exfalso. apply Hne. f_equal. lia. }
  clearbody dX dY.
  rewrite <- (sqrt_square rho) by exact Hrho.
  apply sqrt_le_1_alt.
  destruct Hfar as [H|[H|[H|H]]]; nra.
Qed.

(** On a generator with cells of at least 11 pixels whose cell
    [(cols / 2, 1)] is not a Wall, the spawn position of a single ball
    is not in a wall, and a ball of the radius of [getDimensions] placed
    there touches no wall rectangle. *)
Lemma spawn_clear m c0 :
  11 <= cellSize m -> 0 <= cols m / 2 < cols m -> 1 < rows m ->
  dims (grid m) (cols m) (rows m) ->
  Grid.get (grid m) (cols m / 2) 1 = Some c0 -> c0 <> WALL ->
  isWall ((IZR (cols m / 2) + 1 / 2) * IZR (cellSize m)) (IZR (cellSize m) * (3 / 2)) m
  = Ok false /\
  Forall (fun wall =>
            (IZR (d_ballRadius (getDimensions m))
             <= PhysicsEngine.wall_distance wall
                  (PhysicsSpec.fresh_ball (IZR (d_ballRadius (getDimensions m))) 0
                     ((IZR (cols m / 2) + 1 / 2) * IZR (cellSize m),
                      IZR (cellSize m) * (3 / 2))))%R)
         (wall_cells m).
Proof.
  intros Hcs Hc Hr Hd Hcell Hpath.
  assert (Hs : (0 < IZR (cellSize m))%R) by (apply IZR_lt; lia).
  split.
  - assert (Hcol : Int_part ((IZR (cols m / 2) + 1 / 2) * IZR (cellSize m) / IZR (cellSize m))
                   = cols m / 2).
    { apply (floor_cell (cellSize m)); [ lia | ]. rewrite mult_IZR. nra. }
    assert (Hrow : Int_part (IZR (cellSize m) * (3 / 2) / IZR (cellSize m)) = 1).
    { apply (floor_cell (cellSize m)); [ lia | ]. rewrite mult_IZR. nra. }
    destruct (isWall_cell m ((IZR (cols m / 2) + 1 / 2) * IZR (cellSize m))
                (IZR (cellSize m) * (3 / 2)) ltac:(lia) Hd)
      as [[Hout _] | (_ & _ & _ & c & Hget & ->)].
    + exfalso. unfold outside_maze in Hout. rewrite !mult_IZR in Hout.
      assert ((0 <= IZR (cols m / 2))%R) by (apply IZR_le; lia).
      assert ((IZR (cols m / 2) + 1 <= IZR (cols m))%R)
        by (rewrite <- plus_IZR; apply IZR_le; lia).
      assert ((2 <= IZR (rows m))%R) by (apply IZR_le; lia).
      destruct Hout as [H'|[H'|[H'|H']]]; nra.
    + rewrite Hcol, Hrow, Hcell in Hget. injection Hget as <-.
      destruct c0; (contradiction || reflexivity).
  - apply Forall_forall. intros wall Hin.
    apply in_wall_cells in Hin. destruct Hin as (x & y & Hx & Hy & Hg & ->).
    assert (Hne : (x, y) <> (cols m / 2, 1)).
    { intros [= -> ->]. rewrite Hcell in Hg. congruence. }
    destruct (ball_radius_fits m ltac:(lia)) as (H5 & Hfit).
    specialize (Hfit ltac:(lia)).
    set (rho := d_ballRadius (getDimensions m)) in *.
    unfold PhysicsEngine.wall_distance, PhysicsEngine.closestX, PhysicsEngine.closestY,
      wall_rect, PhysicsSpec.fresh_ball.
    cbn [Ball.x Ball.y Rect.x Rect.y Rect.width Rect.height fst snd].
    apply cell_centre_clear; try assumption; try lia.
    + apply IZR_le. lia.
    + rewrite <- mult_IZR. apply IZR_lt. lia.
Qed.

(** A disc inside the cell [(c, 1)] reaches no other cell of the grid. *)
Lemma cell_disc_clear (cs c x y : Z) (rho px py : R) :
  0 < cs -> (x, y) <> (c, 1) -> (0 <= rho)%R ->
  (IZR c * IZR cs + rho <= px <= (IZR c + 1) * IZR cs - rho)%R ->
  (IZR cs + rho <= py <= 2 * IZR cs - rho)%R ->
  (rho <= sqrt
    ((px - Rmax (IZR (x * cs)) (Rmin px (IZR (x * cs) + IZR cs)))
     * (px - Rmax (IZR (x * cs)) (Rmin px (IZR (x * cs) + IZR cs)))
     + (py - Rmax (IZR (y * cs)) (Rmin py (IZR (y * cs) + IZR cs)))
       * (py - Rmax (IZR (y * cs)) (Rmin py (IZR (y * cs) + IZR cs)))))%R.
Proof.
  intros Hcs Hne Hrho Hpx Hpy. apply IZR_lt in Hcs.
  rewrite !mult_IZR.
  set (s := IZR cs) in *.
  set (dX := (px - Rmax (IZR x * s) (Rmin px (IZR x * s + s)))%R).
  set (dY := (py - Rmax (IZR y * s) (Rmin py (IZR y * s + s)))%R).
  assert (Hfar : (rho <= dX \/ dX <= - rho \/ rho <= dY \/ dY <= - rho)%R).
  { destruct (Z_lt_ge_dec x c) as [Hx|Hx].
    - left. assert (Hx' : (IZR x <= IZR c - 1)%R)
        by (rewrite <- minus_IZR; apply IZR_le; lia).
      unfold dX, Rmax, Rmin. repeat destruct (Rle_dec _ _); nra.
    - destruct (Z_lt_ge_dec c x) as [Hx2|Hx2].
      + right. left. assert (Hx' : (IZR c + 1 <= IZR x)%R)
          by (rewrite <- plus_IZR; apply IZR_le; lia).
        unfold dX, Rmax, Rmin. repeat destruct (Rle_dec _ _); nra.
      + assert (x = c) by lia. subst x.
        destruct (Z_lt_ge_dec y 1) as [Hy|Hy].
        * right. right. left. assert (Hy' : (IZR y <= 0)%R) by (apply IZR_le; lia).
          unfold dY, Rmax, Rmin. repeat destruct (Rle_dec _ _); nra.
        * destruct (Z_lt_ge_dec 1 y) as [Hy2|Hy2].
          -- right. right. right. assert (Hy' : (2 <= IZR y)%R) by (apply IZR_le; lia).
             unfold dY, Rmax, Rmin. repeat destruct (Rle_dec _ _); nra.
          -- exfalso. apply Hne. f_equal. lia. }
  clearbody dX dY.
  rewrite <- (sqrt_square rho) by exact Hrho.
  apply sqrt_le_1_alt.
  destruct Hfar as [H|[H|[H|H]]]; nra.
Qed.

(** So a ball inside the cell under the entry, which is not a Wall,
    touches no wall rectangle. *)
Lemma entry_cell_clear m c0 (b : Ball.t) :
  0 < cellSize m ->
  Grid.get (grid m) (cols m / 2) 1 = Some c0 -> c0 <> WALL ->
  (0 <= Ball.radius b)%R ->
  (IZR (cols m / 2) * IZR (cellSize m) + Ball.radius b <= Ball.x b
   <= (IZR (cols m / 2) + 1) * IZR (cellSize m) - Ball.radius b)%R ->
  (IZR (cellSize m) + Ball.radius b <= Ball.y b
   <= 2 * IZR (cellSize m) - Ball.radius b)%R ->
  Forall (fun wall => (Ball.radius b <= PhysicsEngine.wall_distance wall b)%R)
         (wall_cells m).
Proof.
  intros Hcs Hcell Hpath Hr Hx Hy.
  apply Forall_forall. intros wall Hin.
  apply in_wall_cells in Hin. destruct Hin as (x & y & _ & _ & Hg & ->).
  assert (Hne : (x, y) <> (cols m / 2, 1)).
  { intros [= -> ->]. rewrite Hcell in Hg. congruence. }
  unfold PhysicsEngine.wall_distance, PhysicsEngine.closestX, PhysicsEngine.closestY,
    wall_rect.
  cbn [Rect.x Rect.y Rect.width Rect.height].
  apply (cell_disc_clear _ (cols m / 2)); assumption.
Qed.

(** *** The level that [init] builds *)

Lemma level_ready_facts (C R S : Z) mc m' :
  16 <= S -> Z.odd R = true -> 9 <= C -> 9 <= R ->
  sizes m' = (C, R, S, C * S, R * S) ->
  cols mc = cols m' -> rows mc = rows m' ->
  carved (cols mc) (rows mc) (start_column (cols mc)) 1 (grid mc) ->
  Grid.get (grid mc) (start_column (cols mc)) (rows mc - 2) = Some PATH ->
  grid m' = grid (_createEntryAndExits mc) ->
  16 <= cellSize m' /\ 9 <= cols m' /\ 9 <= rows m' /\
  width m' = cols m' * cellSize m' /\ height m' = rows m' * cellSize m' /\
  dims (grid m') (cols m') (rows m') /\
  Grid.get (grid m') (cols m' / 2) 0 = Some ENTRY /\
  Grid.get (grid m') (cols m' / 2) 1 = Some PATH.
Proof.
  intros HS HoR HC HR Hsz Hc Hr Hcv Hrow Hg.
  unfold sizes in Hsz. injection Hsz as E1 E2 E3 E4 E5.
  rewrite Hg, E1, E2, E3, E4, E5.
  rewrite Hc, E1 in Hcv, Hrow. rewrite Hr, E2 in Hcv, Hrow.
  rewrite E1 in Hc. rewrite E2 in Hr.
  pose proof (createEntryAndExits_spec C R (grid mc) ltac:(lia) ltac:(lia) Hcv Hrow
                mc Hc Hr eq_refl) as (_ & _ & _ & Hd & _).
  pose proof (createEntryAndExits_cells C R (grid mc) ltac:(lia) ltac:(lia) Hcv Hrow
                mc (C / 2) 0 Hc Hr eq_refl) as H0.
  pose proof (createEntryAndExits_cells C R (grid mc) ltac:(lia) ltac:(lia) Hcv Hrow
                mc (C / 2) 1 Hc Hr eq_refl) as H1.
  rewrite Z.eqb_refl in H0, H1. cbn [andb Z.eqb] in H0, H1.
  repeat match goal with |- _ /\ _ => split end;
    try assumption; try reflexivity.
Qed.

(** [init] returns for a level from 1 and a non-negative clock value,
    and the generator it leaves is a level ready to be played. *)
Lemma init_ready now level cw ch m :
  0 <= now -> 1 <= level ->
  exists m',
    init now level cw ch m = Ok m' /\
    16 <= cellSize m' /\ 9 <= cols m' /\ 9 <= rows m' /\
    width m' = cols m' * cellSize m' /\ height m' = rows m' * cellSize m' /\
    dims (grid m') (cols m') (rows m') /\
    Grid.get (grid m') (cols m' / 2) 0 = Some ENTRY /\
    Grid.get (grid m') (cols m' / 2) 1 = Some PATH /\
    exitZones m' = map (exit_zone m') [0; 1; 2; 3; 4]%nat /\
    wallRects m' = wall_cells m'.
Proof.
  intros Hnow Hlevel.
  destruct (init_level now level cw ch m Hnow Hlevel)
    as (mc & m' & Hinit & Hsz & Hc & Hr & Hcv & Hrow & Hg & _ & Hz & Hw).
  pose proof (layout_sizes level cw ch Hlevel) as (Hl1 & Hl2 & Hl3 & Hl4 & Hl5).
  pose proof (level_ready_facts _ _ _ mc m' Hl1 Hl3 Hl4 Hl5 Hsz Hc Hr Hcv Hrow Hg)
    as (F1 & F2 & F3 & F4 & F5 & F6 & F7 & F8).
  exists m'. repeat match goal with |- _ /\ _ => split end; assumption.
Qed.

(** *** The size of the grid by level *)

Lemma choose_size_roomy level aw ah :
  1 <= level -> (336 <= aw)%Q -> (400 <= ah)%Q ->
  exists cs,
    choose_size level aw ah
    = (Z.min 21 (11 + level / 3 * 2), Z.min 25 (13 + level / 4 * 2), cs) /\
    16 <= cs.
Proof.
  intros Hl Hw Hh. unfold choose_size.
  destruct (target_odd 21 11 3 level) as (-> & Hoc & Hc); try reflexivity; try lia.
  destruct (target_odd 25 13 4 level) as (-> & Hor & Hr); try reflexivity; try lia.
  set (tc := Z.min 21 (11 + level / 3 * 2)) in *.
  set (tr := Z.min 25 (13 + level / 4 * 2)) in *.
  set (size := Qfloor (Qmin (aw / inject_Z tc) (ah / inject_Z tr))).
  assert (Hs : 16 <= size).
  { apply floor_ge. apply Q.min_glb.
    - apply le_div_iff; [ lia | ].
      eapply Qle_trans; [ | exact Hw ].
      change 336%Q with (inject_Z 336). rewrite <- Zle_Qle. unfold tc. lia.
    - apply le_div_iff; [ lia | ].
      eapply Qle_trans; [ | exact Hh ].
      change 400%Q with (inject_Z 400). rewrite <- Zle_Qle. unfold tr. lia. }
  replace (size <? minCellSize) with false
    by (symmetry; apply Z.ltb_ge; unfold minCellSize; lia).
  exists size. split; [ reflexivity | exact Hs ].
Qed.

Lemma layout_roomy level cw ch :
  1 <= level ->
  (336 <= l_availableWidth (layout level cw ch))%Q ->
  (400 <= l_availableHeight (layout level cw ch))%Q ->
  l_cols (layout level cw ch) = Z.min 21 (11 + level / 3 * 2) /\
  l_rows (layout level cw ch) = Z.min 25 (13 + level / 4 * 2).
Proof.
  intros Hl. unfold layout. cbv zeta.
  destruct (negb (Qle_bool cw ch));
    match goal with
    | |- context [choose_size ?lv ?aw ?ah] =>
        pose proof (choose_size_roomy lv aw ah Hl) as Hs;
        destruct (choose_size lv aw ah) as [[c r] s]
    end; cbn [l_cols l_rows l_availableWidth l_availableHeight];
    intros Hw Hh; destruct (Hs Hw Hh) as (cs & E & _); injection E as -> -> _;
    split; reflexivity.
Qed.

(** X23.  On a canvas that leaves room for 21 x 25 cells of 16 pixels
    (336 x 400 after the margins), [init] at level [L] builds a grid of
    [min(21, 11 + 2 * floor(L / 3))] columns and
    [min(25, 13 + 2 * floor(L / 4))] rows: the grid never shrinks from
    one level to a later one, and from level 24 on it stays at
    21 x 25. *)
Theorem grid_grows_with_level now level cw ch m :
  0 <= now -> 1 <= level ->
  (336 <= l_availableWidth (layout level cw ch))%Q ->
  (400 <= l_availableHeight (layout level cw ch))%Q ->
  exists m',
    init now level cw ch m = Ok m' /\
    cols m' = Z.min 21 (11 + level / 3 * 2) /\
    rows m' = Z.min 25 (13 + level / 4 * 2) /\
    (forall later, level <= later ->
                   cols m' <= Z.min 21 (11 + later / 3 * 2) /\
                   rows m' <= Z.min 25 (13 + later / 4 * 2)) /\
    (24 <= level -> cols m' = 21 /\ rows m' = 25).
Proof.
  intros Hnow Hlevel Hw Hh.
  destruct (init_level now level cw ch m Hnow Hlevel) as (mc & m' & Hinit & Hsz & _).
  destruct (layout_roomy level cw ch Hlevel Hw Hh) as [Ec Er].
  unfold sizes in Hsz. injection Hsz as E1 E2 _ _ _.
  rewrite Ec in E1. rewrite Er in E2.
  exists m'. split; [ exact Hinit | ]. split; [ exact E1 | ]. split; [ exact E2 | ].
  rewrite E1, E2. split.
  - intros later Hlater.
    assert (level / 3 <= later / 3) by (apply Z.div_le_mono; lia).
    assert (level / 4 <= later / 4) by (apply Z.div_le_mono; lia).
    lia.
  - intros H24.
    assert (8 <= level / 3) by (apply Z.div_le_lower_bound; lia).
    assert (6 <= level / 4) by (apply Z.div_le_lower_bound; lia).
    lia.
Qed.

Lemma grid_grows_with_level_witness :
  exists m',
    init 42 4 (400 # 1) (800 # 1) (constructor 0) = Ok m' /\
    cols m' = Z.min 21 (11 + 4 / 3 * 2) /\
    rows m' = Z.min 25 (13 + 4 / 4 * 2) /\
    (forall later, 4 <= later ->
                   cols m' <= Z.min 21 (11 + later / 3 * 2) /\
                   rows m' <= Z.min 25 (13 + later / 4 * 2)) /\
    (24 <= 4 -> cols m' = 21 /\ rows m' = 25).
Proof.
  apply (grid_grows_with_level 42 4 (400 # 1) (800 # 1) (constructor 0)).
  - lia.
  - lia.
  - vm_compute. discriminate.
  - vm_compute. discriminate.
Defined.

End LevelProps.

(** ** PhysicsEngine: boundaries, trails and the set of balls *)

Module EngineProps.
Import PhysicsSpec PhysicsProofs PhysicsEngine.
#[local] Open Scope R_scope.

(** *** _handleBoundaries *)





(** *** Trails *)

Lemma updateTrail_length b :
  length (Ball.trail (Ball.updateTrail b))
  = Nat.min VISUAL_CONFIG.trailLength (S (length (Ball.trail b))).
Proof. unfold Ball.updateTrail. cbn [Ball.trail Ball.set_trail]. apply length_firstn. Qed.

Lemma update_ball_trail e sc b :
  (length (Ball.trail b) <= VISUAL_CONFIG.trailLength)%nat ->
  (length (Ball.trail (fst (update_ball e sc b))) <= VISUAL_CONFIG.trailLength)%nat.
Proof.
  intros H. unfold update_ball.
  destruct (Ball.active b); cbn [negb]; [ | exact H ].
  destruct (_checkExitZones e sc (move e b)) as [b1 sc1]. cbn [fst].
  rewrite updateTrail_length. apply Nat.le_min_l.
Qed.

Lemma update_balls_Forall (P : Ball.t -> Prop) e :
  (forall sc b, P b -> P (fst (update_ball e sc b))) ->
  forall bs sc, Forall P bs -> Forall P (fst (update_balls e sc bs)).
Proof.
  intros HP. induction bs as [|b bs IH]; intros sc Hbs; cbn [update_balls].
  - constructor.
  - inversion Hbs as [|? ? Hb Hrest]; subst.
    specialize (HP sc b Hb).
    destruct (update_ball e sc b) as [b1 sc1].
    specialize (IH sc1 Hrest).
    destruct (update_balls e sc1 bs) as [bs1 sc2].
    constructor; assumption.
Qed.

Lemma exit_timer_Forall (P : Ball.t -> Prop) i :
  (forall b, P b -> P (Ball.set_active false b)) ->
  forall bs k,
    Forall P bs ->
    Forall P (map (fun '(j, b) =>
                     if (Nat.eqb j i) && Ball.exited b then Ball.set_active false b else b)
                  (combine (seq k (length bs)) bs)).
Proof.
  intros HP. induction bs as [|b bs IH]; intros k Hbs; cbn; constructor.
  - inversion Hbs; subst. destruct (Nat.eqb k i && Ball.exited b); auto.
  - inversion Hbs; subst. apply IH. assumption.
Qed.

(** An invariant of each ball that [update] and the exit timers keep
    holds of all balls in every state reached from [init]. *)
Lemma balls_invariant (P : Ball.t -> Prop) sp w z mw mh r e0 :
  (forall i p, P (fresh_ball (or_default r PHYSICS_CONFIG.ballRadius) i p)) ->
  (forall e sc b, P b -> P (fst (update_ball e sc b))) ->
  (forall b, P b -> P (Ball.set_active false b)) ->
  forall cs, Forall P (balls (run cs (init sp w z mw mh r e0))).
Proof.
  intros Hfresh Hupd Htimer cs.
  apply (run_invariant (fun e => Forall P (balls e))).
  - intros e c He. destruct c as [ | g | p | i ]; cbn [exec]; try exact He.
    + unfold update. destruct (paused e); [ exact He | ].
      pose proof (update_balls_Forall P e (Hupd e) (balls e) (score e) He) as H.
      destruct (update_balls e (score e) (balls e)) as [bs sc]. exact H.
    + unfold exit_timer. cbn [balls]. apply exit_timer_Forall; assumption.
  - rewrite balls_init. apply Forall_fresh. exact Hfresh.
Qed.

(** X13.  In every state reached from [init] by calls of [update],
    [setGravity] and [setPaused] and by the exit timers, the trail of
    every ball holds at most [trailLength] = 6 positions; and a ball
    that [update()] has just moved has its new position at the head of
    its trail, which grew by one position unless it was full. *)
Theorem trails_bounded sp w z mw mh r e0 cs :
  Forall (fun b => (length (Ball.trail b) <= 6)%nat)
         (balls (run cs (init sp w z mw mh r e0))) /\
  forall e sc b,
    Ball.active b = true ->
    hd_error (Ball.trail (fst (update_ball e sc b)))
    = Some (Ball.x (fst (update_ball e sc b)), Ball.y (fst (update_ball e sc b))) /\
    length (Ball.trail (fst (update_ball e sc b)))
    = Nat.min 6 (S (length (Ball.trail b))).
Proof.
  split.
  - apply balls_invariant.
    + intros i p. cbn. apply Nat.le_0_l.
    + intros e sc b. apply update_ball_trail.
    + intros b H. exact H.
  - intros e sc b Ha. unfold update_ball. rewrite Ha. cbn [negb].
    destruct (same_tags_move e b) as (_ & _ & _ & _ & _ & Htr).
    assert (Hc : Ball.trail (fst (_checkExitZones e sc (move e b))) = Ball.trail b).
    { unfold _checkExitZones.
      destruct (Ball.exited (move e b)); [ exact Htr | ].
      destruct (Rlt_dec (mazeHeight e) (Ball.y (move e b))); [ | exact Htr ].
      destruct (find_zone (exitZones e) (Ball.x (move e b))); exact Htr. }
    destruct (_checkExitZones e sc (move e b)) as [b1 sc1]. cbn [fst] in *.
    split; [ reflexivity | ].
    rewrite updateTrail_length, Hc. reflexivity.
Qed.

(** *** The balls of a level *)

Lemma update_ball_identity e sc b : identity (fst (update_ball e sc b)) = identity b.
Proof.
  unfold update_ball, identity.
  destruct (Ball.active b); cbn [negb]; [ | reflexivity ].
  destruct (same_tags_move e b) as (Hrad & Hidx & _).
  unfold _checkExitZones.
  destruct (Ball.exited (move e b)); [ cbn; congruence | ].
  destruct (Rlt_dec (mazeHeight e) (Ball.y (move e b))); [ | cbn; congruence ].
  destruct (find_zone (exitZones e) (Ball.x (move e b))); cbn; congruence.
Qed.

Lemma update_balls_identity e :
  forall bs sc, map identity (fst (update_balls e sc bs)) = map identity bs.
Proof.
  induction bs as [|b bs IH]; intros sc; cbn [update_balls]; [ reflexivity | ].
  pose proof (update_ball_identity e sc b) as Hb.
  destruct (update_ball e sc b) as [b1 sc1].
  specialize (IH sc1).
  destruct (update_balls e sc1 bs) as [bs1 sc2].
  cbn [fst map] in *. congruence.
Qed.

Lemma exit_timer_identity i :
  forall bs k,
    map identity
        (map (fun '(j, b) =>
                if (Nat.eqb j i) && Ball.exited b then Ball.set_active false b else b)
             (combine (seq k (length bs)) bs))
    = map identity bs.
Proof.
  induction bs as [|b bs IH]; intros k; cbn; [ reflexivity | ].
  rewrite IH. destruct (Nat.eqb k i && Ball.exited b); reflexivity.
Qed.

Lemma fresh_identity radius sp :
  forall k,
    map identity (map (fun '(i, p) => fresh_ball radius i p)
                      (combine (seq k (length sp)) sp))
    = map (fun i => (i, radius)) (seq k (length sp)).
Proof.
  induction sp as [|p sp IH]; intros k; cbn; [ reflexivity | ].
  rewrite IH. reflexivity.
Qed.

(** X14.  Between [init] and the next [init], no call adds, removes or
    reorders balls: in every state reached by [update], [setGravity],
    [setPaused] and the exit timers there is one ball per spawn
    position, the ball at position [i] has index [i], and every ball has
    the radius [ballRadius || 10] given to [init]. *)
Theorem balls_of_level_fixed sp w z mw mh r e0 cs :
  map identity (balls (run cs (init sp w z mw mh r e0)))
  = map (fun i => (i, or_default r PHYSICS_CONFIG.ballRadius)) (seq 0 (length sp)).
Proof.
  apply (run_invariant
           (fun e => map identity (balls e)
                     = map (fun i => (i, or_default r PHYSICS_CONFIG.ballRadius))
                           (seq 0 (length sp)))).
  - intros e c He. destruct c as [ | g | p | i ]; cbn [exec]; try exact He.
    + unfold update. destruct (paused e); [ exact He | ].
      pose proof (update_balls_identity e (balls e) (score e)) as H.
      destruct (update_balls e (score e) (balls e)) as [bs sc].
      cbn [balls fst] in *. congruence.
    + unfold exit_timer. cbn [balls]. rewrite exit_timer_identity. exact He.
  - rewrite balls_init. apply fresh_identity.
Qed.

(** *** allBallsExited and getActiveBallCount *)

Lemma update_balls_inactive e :
  forall bs sc,
    forallb (fun ball => negb (Ball.active ball)) bs = true ->
    update_balls e sc bs = (bs, sc).
Proof.
  induction bs as [|b bs IH]; intros sc H; cbn [update_balls]; [ reflexivity | ].
  cbn [forallb] in H. apply andb_true_iff in H. destruct H as [Hb Hbs].
  unfold update_ball. rewrite Hb. rewrite (IH sc Hbs). reflexivity.
Qed.

(** X15.  [allBallsExited()] is [true] exactly when
    [getActiveBallCount()] is 0; an engine without balls, as after
    [reset()] or before the first [init], counts as all exited. *)
Theorem all_exited_iff_none_active e :
  allBallsExited e = true <-> getActiveBallCount e = 0%nat.
Proof.
  unfold allBallsExited, getActiveBallCount.
  induction (balls e) as [|b bs IH]; cbn [forallb filter]; [ tauto | ].
  destruct (Ball.active b); cbn [negb andb length].
  - split; intros H; discriminate.
  - exact IH.
Qed.

(** X16.  Once [allBallsExited()] is [true], [update()] changes
    nothing: no ball moves, no trail grows and the score stays, however
    often it is called. *)
Theorem update_idle_when_all_exited e :
  allBallsExited e = true ->
  forall n, run (repeat Update n) e = e.
Proof.
  intros H.
  assert (Hu : update e = e).
  { unfold update. destruct (paused e) eqn:Hp; [ reflexivity | ].
    unfold allBallsExited in H.
    rewrite (update_balls_inactive e (balls e) (score e) H).
    destruct e. cbn in Hp |- *. rewrite Hp. reflexivity. }
  induction n as [|n IH]; [ reflexivity | ].
  unfold run in *. cbn [repeat fold_left exec]. rewrite Hu. exact IH.
Qed.

Lemma update_idle_when_all_exited_witness :
  balls (exit_timer 0 (update exit_engine)) = [Ball.set_active false left_ball] /\
  score (exit_timer 0 (update exit_engine)) = 500 /\
  run (repeat Update 3) (exit_timer 0 (update exit_engine))
  = exit_timer 0 (update exit_engine).
Proof.
  assert (Hb : balls (exit_timer 0 (update exit_engine))
               = [Ball.set_active false left_ball])
    by (rewrite exit_engine_update; reflexivity).
  split; [ exact Hb | ].
  split; [ rewrite exit_engine_update; reflexivity | ].
  apply (update_idle_when_all_exited (exit_timer 0 (update exit_engine))).
  unfold allBallsExited. rewrite Hb. reflexivity.
Defined.

(** *** The active flag *)

Lemma update_ball_active e sc b :
  Ball.active (fst (update_ball e sc b)) = Ball.active b.
Proof.
  unfold update_ball.
  destruct (Ball.active b) eqn:Ha; cbn [negb]; [ | exact Ha ].
  destruct (same_tags_move e b) as (_ & _ & Hact & _). rewrite Ha in Hact.
  unfold _checkExitZones.
  destruct (Ball.exited (move e b)); [ exact Hact | ].
  destruct (Rlt_dec (mazeHeight e) (Ball.y (move e b))); [ | exact Hact ].
  destruct (find_zone (exitZones e) (Ball.x (move e b))); exact Hact.
Qed.

Lemma update_balls_active e :
  forall bs sc, map Ball.active (fst (update_balls e sc bs)) = map Ball.active bs.
Proof.
  induction bs as [|b bs IH]; intros sc; cbn [update_balls]; [ reflexivity | ].
  pose proof (update_ball_active e sc b) as Hb.
  destruct (update_ball e sc b) as [b1 sc1].
  specialize (IH sc1).
  destruct (update_balls e sc1 bs) as [bs1 sc2].
  cbn [fst map] in *. congruence.
Qed.

(** [update] deactivates no ball: that is left to the exit timers. *)
Lemma update_active e :
  map Ball.active (balls (update e)) = map Ball.active (balls e).
Proof.
  unfold update. destruct (paused e); [ reflexivity | ].
  pose proof (update_balls_active e (balls e) (score e)) as H.
  destruct (update_balls e (score e) (balls e)) as [bs sc]. exact H.
Qed.

(** *** Free fall *)

Lemma collide_clear px py b w :
  Ball.radius b <= wall_distance w b -> collide px py b w = b.
Proof.
  intros H. unfold collide, wall_distance in *. cbv zeta in *.
  destruct (Rlt_dec _ _); [ lra | reflexivity ].
Qed.

Lemma fold_collide_clear px py ws b :
  Forall (fun w => Ball.radius b <= wall_distance w b) ws ->
  fold_left (collide px py) ws b = b.
Proof.
  induction 1 as [|w ws Hw _ IH]; cbn [fold_left]; [ reflexivity | ].
  rewrite (collide_clear _ _ _ _ Hw). exact IH.
Qed.

(** One [update] of an active ball at rest, without pull from the
    controls, that reaches no wall and no boundary 0.1164 lower and is
    still inside the maze there. *)
Lemma rest_update_ball e sc b :
  gravity e = (0, 0) -> Ball.vx b = 0 -> Ball.vy b = 0 ->
  Ball.active b = true -> Ball.exited b = false ->
  Forall (fun w => Ball.radius b
                   <= wall_distance w (Ball.set_pos (Ball.x b) (Ball.y b + 1164 / 10000) b))
         (walls e) ->
  Ball.radius b <= Ball.x b -> Ball.x b + Ball.radius b <= mazeWidth e ->
  Ball.radius b <= Ball.y b + 1164 / 10000 ->
  Ball.y b + 1164 / 10000 <= mazeHeight e ->
  update_ball e sc b = (dropped b, sc).
Proof.
  intros Hg Hvx Hvy Ha He Hw Hx1 Hx2 Hy1 Hy2.
  set (moved := Ball.set_pos (Ball.x b) (Ball.y b + 1164 / 10000)
                             (Ball.set_vel 0 (1164 / 10000) b)).
  assert (Hm : move e b = moved).
  { unfold move. cbv zeta. rewrite (rest_accelerate e b Hg Hvx Hvy).
    cbn [Ball.x Ball.y Ball.vx Ball.vy Ball.set_vel].
    replace (Ball.x b + 0) with (Ball.x b) by lra. fold moved.
    unfold _handleWallCollisions. rewrite fold_collide_clear by exact Hw.
    unfold _handleBoundaries. cbv zeta.
    repeat match goal with
           | |- context [Rlt_dec ?a ?c] => destruct (Rlt_dec a c)
           end;
      cbn [moved Ball.x Ball.y Ball.vx Ball.vy Ball.radius Ball.set_vel Ball.set_pos] in *;
      try (exfalso; lra).
    reflexivity. }
  unfold update_ball. rewrite Ha. cbn [negb]. rewrite Hm.
  unfold _checkExitZones.
  cbn [moved Ball.exited Ball.y Ball.set_pos Ball.set_vel]. rewrite He.
  destruct (Rlt_dec (mazeHeight e) (Ball.y b + 1164 / 10000)); [ lra | ].
  reflexivity.
Qed.

(** *** Ball.getColor *)

(** X17.  [getColor()] never returns [undefined]: for every index it
    is one of the seven colours of [VISUAL_CONFIG.ballColors], and two
    balls whose indices differ by 7 get the same colour. *)
Theorem ball_colour_defined b :
  exists c,
    Ball.getColor b = Some c /\ In c VISUAL_CONFIG.ballColors /\
    forall b', Ball.index b' = (Ball.index b + 7)%nat -> Ball.getColor b' = Some c.
Proof.
  unfold Ball.getColor.
  change (length VISUAL_CONFIG.ballColors) with 7%nat.
  destruct (nth_error VISUAL_CONFIG.ballColors (Ball.index b mod 7)) as [c|] eqn:E.
  - exists c. split; [ reflexivity | ]. split; [ eapply nth_error_In; exact E | ].
    intros b' Hb'. rewrite Hb'.
    replace ((Ball.index b + 7) mod 7)%nat with (Ball.index b mod 7)%nat; [ exact E | ].
    rewrite <- (Nat.Div0.mod_add (Ball.index b) 1 7). reflexivity.
  - exfalso. apply nth_error_None in E.
    change (length VISUAL_CONFIG.ballColors) with 7%nat in E.
    pose proof (Nat.mod_upper_bound (Ball.index b) 7 ltac:(discriminate)). lia.
Qed.

(** *** The score *)

Lemma exec_exitZones e c : exitZones (exec e c) = exitZones e.
Proof.
  destruct c; cbn [exec]; try reflexivity.
  unfold update. destruct (paused e); [ reflexivity | ].
  destruct (update_balls e _ _). reflexivity.
Qed.

Lemma awarded_nonneg zones px s :
  Forall (fun z => 0 <= ExitZone.score z) zones -> awarded zones px s -> 0 <= s.
Proof.
  intros Hz Ha. destruct Ha as [before zone after Heq _ _ | _]; [ | lra ].
  rewrite Forall_forall in Hz. apply Hz. rewrite Heq.
  apply in_or_app. right. now left.
Qed.

Lemma gained_nonneg e bs bs' :
  Forall (fun z => 0 <= ExitZone.score z) (exitZones e) ->
  Forall2 (exit_rule e) bs bs' -> 0 <= gained bs bs'.
Proof.
  intros Hz H. induction H as [|b b' bs bs' (Hi & Hx & Hy & Hn) _ IH]; cbn [gained];
    [ lra | ].
  destruct (Ball.exited b) eqn:He; cbn [negb andb]; [ lra | ].
  destruct (Ball.exited b') eqn:He'; [ | lra ].
  destruct (Ball.active b) eqn:Ha.
  - destruct (Rlt_dec (mazeHeight e) (Ball.y (move e b))) as [Hlt|Hge].
    + destruct (Hy eq_refl eq_refl Hlt) as [_ Haw].
      pose proof (awarded_nonneg _ _ _ Hz Haw). lra.
    + destruct (Hn eq_refl eq_refl Hge) as [H1 _]. congruence.
  - rewrite (Hi eq_refl) in He'. congruence.
Qed.

Lemma exec_score_le e c :
  Forall (fun z => 0 <= ExitZone.score z) (exitZones e) ->
  score e <= score (exec e c).
Proof.
  intros Hz. destruct c as [ | g | p | i ]; cbn [exec]; try apply Rle_refl.
  unfold update. destruct (paused e); [ apply Rle_refl | ].
  destruct (update_balls e (score e) (balls e)) as [bs sc] eqn:E.
  apply update_balls_rule in E. destruct E as [Hr ->]. cbn [score].
  pose proof (gained_nonneg e _ _ Hz Hr). lra.
Qed.

(** X25.  With exit zones whose scores are not negative, as those of
    the maze are, the score of the engine never decreases: after any
    further calls of [update], [setGravity] and [setPaused] and any
    exit timers it is at least what it was. *)
Theorem score_never_decreases e cs :
  Forall (fun z => 0 <= ExitZone.score z) (exitZones e) ->
  score e <= score (run cs e).
Proof.
  intros Hz. unfold run. revert e Hz.
  induction cs as [|c cs IH]; intros e Hz; cbn [fold_left]; [ apply Rle_refl | ].
  eapply Rle_trans; [ apply (exec_score_le e c Hz) | ].
  apply IH. rewrite exec_exitZones. exact Hz.
Qed.

Lemma score_never_decreases_witness :
  score sample_engine <= score (run [Update; Update] sample_engine).
Proof.
  apply (score_never_decreases sample_engine [Update; Update]).
  repeat (apply Forall_cons; [ cbn; lra | ]). apply Forall_nil.
Defined.

End EngineProps.

(** ** Game: levels, pause and restart *)

Module GameProps.
Import PhysicsSpec MazeSpec GameSpec PhysicsProofs LevelProps EngineProps.
#[local] Open Scope R_scope.

Lemma getBallCount_one level : getBallCount level = 1%nat.
Proof. unfold getBallCount. destruct (_ <=? _)%Z; reflexivity. Qed.

(** [startLevel] once [MazeGenerator.init] has returned [m']. *)
Lemma startLevel_eq now gravity cw ch g m' :
  MazeGenerator.init now (Game.level g) cw ch (Game.maze g) = Ok m' ->
  Game.startLevel now gravity cw ch g
  = Ok (if Game.animationId g then built_level g m'
        else Game._gameLoop gravity (built_level g m')).
Proof.
  destruct g as [st lv sc ts tg an mz ph]. cbn [Game.level Game.maze].
  intros H. unfold Game.startLevel, built_level. cbv zeta.
  cbn [Game.level Game.maze Game.physics Game.totalScore Game.animationId
       Game.set_targetScore Game.set_score Game.set_maze Game.set_physics
       Game.set_state].
  rewrite H, getBallCount_one.
  destruct an; reflexivity.
Qed.

Lemma started_balls m' (r : Z) e w z mw mh cb :
  (5 <= r)%Z ->
  PhysicsEngine.balls
    (PhysicsEngine.setOnBallExit cb
       (PhysicsEngine.init (MazeGenerator.getSpawnPositions 1 m') w z mw mh
                           (Some (IZR r)) e))
  = [fresh_ball (IZR r) 0
       ((IZR (MazeGenerator.cols m' / 2) + 1 / 2) * IZR (MazeGenerator.cellSize m'),
        IZR (MazeGenerator.cellSize m') * (3 / 2))].
Proof.
  intros Hr. cbn [PhysicsEngine.balls PhysicsEngine.setOnBallExit].
  rewrite balls_init, spawn_single. cbn [length seq combine map].
  rewrite or_default_nonzero; [ reflexivity | ].
  assert (5 <= IZR r) by (apply IZR_le; exact Hr). lra.
Qed.

(** *** The first frame *)

Lemma allBallsExited_active e e' :
  map Ball.active (PhysicsEngine.balls e) = map Ball.active (PhysicsEngine.balls e') ->
  PhysicsEngine.allBallsExited e = PhysicsEngine.allBallsExited e'.
Proof.
  unfold PhysicsEngine.allBallsExited.
  generalize (PhysicsEngine.balls e') as l'.
  induction (PhysicsEngine.balls e) as [|b l IH]; intros [|b' l'] H;
    try discriminate; [ reflexivity | ].
  cbn [map forallb] in *. injection H as Hb Hl. rewrite Hb, (IH _ Hl). reflexivity.
Qed.

(** A frame of a game in play whose one ball is active sets the gravity
    and updates the engine; the ball stays active and the level goes
    on. *)
Lemma playing_frame gravity g0 b :
  Game.state g0 = PLAYING ->
  PhysicsEngine.balls (Game.physics g0) = [b] -> Ball.active b = true ->
  Game._gameLoop gravity g0
  = Game.set_animationId true
      (Game.set_physics
         (PhysicsEngine.update (PhysicsEngine.setGravity gravity (Game.physics g0))) g0) /\
  map Ball.active
      (PhysicsEngine.balls
         (PhysicsEngine.update (PhysicsEngine.setGravity gravity (Game.physics g0))))
  = [true].
Proof.
  intros Hs Hb Ha.
  assert (Hact : map Ball.active
                   (PhysicsEngine.balls
                      (PhysicsEngine.update
                         (PhysicsEngine.setGravity gravity (Game.physics g0))))
                 = [true]).
  { rewrite update_active. cbn [PhysicsEngine.balls PhysicsEngine.setGravity].
    rewrite Hb. cbn [map]. rewrite Ha. reflexivity. }
  split; [ | exact Hact ].
  unfold Game._gameLoop. cbv zeta. cbn [Game.state Game.set_animationId]. rewrite Hs.
  cbn [Game.physics].
  set (p := PhysicsEngine.update _) in *.
  assert (He : PhysicsEngine.allBallsExited p = false).
  { unfold PhysicsEngine.allBallsExited.
    destruct (PhysicsEngine.balls p) as [|b1 [|b2 l]]; try discriminate.
    cbn [map] in Hact. injection Hact as Hb1. cbn [forallb]. rewrite Hb1. reflexivity. }
  rewrite He. reflexivity.
Qed.

(** X18.  [startLevel()] at a level from 1 builds a level [g0]: the
    game playing, its score 0 and its target 1000, and exactly one ball
    in the engine: active, at rest, at the centre of the cell under the
    entry, with the radius of [getDimensions()].  That ball is narrower
    than a cell, its centre is not in a wall ([isWall] is [false]) and
    it overlaps none of the wall rectangles handed to the engine.  When
    the game loop runs already ([animationId] is set) the call returns
    that level.  On the first start it runs one frame of the game loop
    before it returns: the frame sets the gravity and updates the
    engine, and the game is still playing with its one ball active;
    without pull from the controls the ball is then [dropped]: 0.1164
    lower, falling at that speed, its trail one position long (unless
    the engine was paused, which leaves the ball where it was). *)
Theorem level_starts_clear now gravity cw ch g :
  (0 <= now)%Z -> (1 <= Game.level g)%Z ->
  exists g0 b,
    Game.startLevel now gravity cw ch g
    = Ok (if Game.animationId g then g0 else Game._gameLoop gravity g0) /\
    Game.state g0 = PLAYING /\ Game.level g0 = Game.level g /\
    Game.score g0 = 0 /\ Game.targetScore g0 = 1000 /\
    Game.totalScore g0 = Game.totalScore g /\
    Game.animationId g0 = Game.animationId g /\
    PhysicsEngine.getBalls (Game.physics g0) = [b] /\
    PhysicsEngine.getScore (Game.physics g0) = 0 /\
    b = fresh_ball
          (IZR (MazeGenerator.d_ballRadius (MazeGenerator.getDimensions (Game.maze g0)))) 0
          ((IZR (MazeGenerator.cols (Game.maze g0) / 2) + 1 / 2)
           * IZR (MazeGenerator.cellSize (Game.maze g0)),
           IZR (MazeGenerator.cellSize (Game.maze g0)) * (3 / 2)) /\
    2 * Ball.radius b < IZR (MazeGenerator.cellSize (Game.maze g0)) /\
    MazeGenerator.isWall (Ball.x b) (Ball.y b) (Game.maze g0) = Ok false /\
    Forall (fun wall => ~ overlaps b wall) (PhysicsEngine.walls (Game.physics g0)) /\
    Game._gameLoop gravity g0
    = Game.set_animationId true
        (Game.set_physics
           (PhysicsEngine.update (PhysicsEngine.setGravity gravity (Game.physics g0)))
           g0) /\
    PhysicsEngine.getActiveBallCount (Game.physics (Game._gameLoop gravity g0)) = 1%nat /\
    PhysicsEngine.getBalls (Game.physics (Game._gameLoop (0, 0) g0))
    = [if PhysicsEngine.isPaused (Game.physics g) then b else dropped b].
Proof.
  intros Hnow Hlevel.
  destruct (init_ready now (Game.level g) cw ch (Game.maze g) Hnow Hlevel)
    as (m' & Hinit & Hcs & Hc & Hr & Hw & Hh & Hd & _ & Hpath & _ & Hwalls).
  destruct (ball_radius_fits m' ltac:(lia)) as (H5 & Hfit).
  specialize (Hfit ltac:(lia)).
  destruct (spawn_clear m' PATH ltac:(lia) ltac:(Z.div_mod_to_equations; lia) ltac:(lia)
              Hd Hpath ltac:(discriminate)) as [HisWall Hclear].
  rewrite (startLevel_eq _ _ _ _ _ _ Hinit).
  set (rad := MazeGenerator.d_ballRadius (MazeGenerator.getDimensions m')) in *.
  set (b := fresh_ball (IZR rad) 0
              ((IZR (MazeGenerator.cols m' / 2) + 1 / 2) * IZR (MazeGenerator.cellSize m'),
               IZR (MazeGenerator.cellSize m') * (3 / 2))) in *.
  assert (Hb : PhysicsEngine.balls (Game.physics (built_level g m')) = [b])
    by (apply started_balls; exact H5).
  assert (Hpw : PhysicsEngine.walls (Game.physics (built_level g m'))
                = wall_cells m') by exact Hwalls.
  assert (Hpp : PhysicsEngine.paused (Game.physics (built_level g m'))
                = PhysicsEngine.paused (Game.physics g)) by reflexivity.
  assert (Hpmw : PhysicsEngine.mazeWidth (Game.physics (built_level g m'))
                 = IZR (MazeGenerator.width m')) by reflexivity.
  assert (Hpmh : PhysicsEngine.mazeHeight (Game.physics (built_level g m'))
                 = IZR (MazeGenerator.height m')) by reflexivity.
  assert (Hsc : PhysicsEngine.score (Game.physics (built_level g m')) = 0) by reflexivity.
  assert (Hst : Game.state (built_level g m') = PLAYING) by reflexivity.
  assert (Hmz : Game.maze (built_level g m') = m') by reflexivity.
  assert (Hlv : Game.level (built_level g m') = Game.level g) by reflexivity.
  assert (Hgs : Game.score (built_level g m') = 0) by reflexivity.
  assert (Htg : Game.targetScore (built_level g m') = 1000) by reflexivity.
  assert (Hto : Game.totalScore (built_level g m') = Game.totalScore g) by reflexivity.
  assert (Han : Game.animationId (built_level g m') = Game.animationId g) by reflexivity.
  generalize dependent (built_level g m'). intros g0 Hb Hpw Hpp Hpmw Hpmh Hsc Hst Hmz Hlv
    Hgs Htg Hto Han.
  assert (H0 : 0 <= IZR rad) by (apply (IZR_le 0); lia).
  assert (Hs1 : IZR (2 * rad + 1) <= IZR (MazeGenerator.cellSize m')) by (apply IZR_le; lia).
  rewrite plus_IZR, mult_IZR in Hs1.
  assert (Hc0 : 0 <= IZR (MazeGenerator.cols m' / 2))
    by (apply (IZR_le 0); Z.div_mod_to_equations; lia).
  assert (Hc1 : IZR (MazeGenerator.cols m' / 2) + 1 <= IZR (MazeGenerator.cols m'))
    by (rewrite <- plus_IZR; apply IZR_le; Z.div_mod_to_equations; lia).
  assert (Hr9 : 9 <= IZR (MazeGenerator.rows m')) by (apply (IZR_le 9); exact Hr).
  assert (Hs16 : 16 <= IZR (MazeGenerator.cellSize m')) by (apply (IZR_le 16); exact Hcs).
  destruct (playing_frame gravity g0 b Hst Hb eq_refl) as [Hframe Hact].
  destruct (playing_frame (0, 0) g0 b Hst Hb eq_refl) as [Hframe0 _].
  exists g0, b. rewrite Hmz.
  split; [ reflexivity | ].
  do 6 (split; [ assumption | ]).
  split; [ exact Hb | ]. split; [ exact Hsc | ]. split; [ reflexivity | ].
  split; [ cbn [Ball.radius b fresh_ball]; lra | ].
  split; [ exact HisWall | ].
  split.
  { rewrite Hpw. eapply Forall_impl; [ | exact Hclear ].
    intros wall Hle. unfold overlaps. cbn [Ball.radius b fresh_ball].
    apply Rle_not_lt. exact Hle. }
  split; [ exact Hframe | ].
  split.
  { rewrite Hframe. cbn [Game.physics Game.set_animationId Game.set_physics].
    unfold PhysicsEngine.getActiveBallCount.
    rewrite <- (length_map Ball.active), <- (filter_map_swap (fun a : bool => a)).
    rewrite Hact. reflexivity. }
  rewrite Hframe0. cbn [Game.physics Game.set_animationId Game.set_physics].
  unfold PhysicsEngine.getBalls, PhysicsEngine.isPaused, PhysicsEngine.update.
  cbn [PhysicsEngine.paused PhysicsEngine.setGravity]. rewrite Hpp.
  destruct (PhysicsEngine.paused (Game.physics g)); [ exact Hb | ].
  set (e := PhysicsEngine.setGravity (0, 0) (Game.physics g0)).
  assert (Heb : PhysicsEngine.balls e = [b]) by exact Hb.
  assert (Hew : PhysicsEngine.walls e = wall_cells m') by exact Hpw.
  assert (Hemw : PhysicsEngine.mazeWidth e = IZR (MazeGenerator.width m')) by exact Hpmw.
  assert (Hemh : PhysicsEngine.mazeHeight e = IZR (MazeGenerator.height m')) by exact Hpmh.
  assert (Heg : PhysicsEngine.gravity e = (0, 0)) by reflexivity.
  clearbody e.
  rewrite Heb. cbn [PhysicsEngine.update_balls].
  rewrite (rest_update_ball e _ b); try reflexivity; try exact Heg.
  - rewrite Hew.
    apply (entry_cell_clear m' PATH
             (Ball.set_pos (Ball.x b) (Ball.y b + 1164 / 10000) b));
      try assumption; try discriminate; try lia;
      cbn [Ball.radius Ball.x Ball.y Ball.set_pos b fresh_ball fst snd]; nra.
  - cbn [Ball.radius Ball.x b fresh_ball fst snd]. nra.
  - rewrite Hemw, Hw, mult_IZR.
    cbn [Ball.radius Ball.x b fresh_ball fst snd]. nra.
  - cbn [Ball.radius Ball.y b fresh_ball fst snd]. nra.
  - rewrite Hemh, Hh, mult_IZR.
    cbn [Ball.y b fresh_ball fst snd]. nra.
Qed.

Lemma level_starts_clear_witness :
  exists g0 b,
    Game.startLevel 42 (0, 0) (400 # 1) (800 # 1) (Game.constructor 0)
    = Ok (Game._gameLoop (0, 0) g0) /\
    Game.state g0 = PLAYING /\ Game.level g0 = 1%Z /\
    Game.score g0 = 0 /\ Game.targetScore g0 = 1000 /\
    Game.totalScore g0 = 0 /\
    Game.animationId g0 = false /\
    PhysicsEngine.getBalls (Game.physics g0) = [b] /\
    PhysicsEngine.getScore (Game.physics g0) = 0 /\
    b = fresh_ball
          (IZR (MazeGenerator.d_ballRadius (MazeGenerator.getDimensions (Game.maze g0)))) 0
          ((IZR (MazeGenerator.cols (Game.maze g0) / 2) + 1 / 2)
           * IZR (MazeGenerator.cellSize (Game.maze g0)),
           IZR (MazeGenerator.cellSize (Game.maze g0)) * (3 / 2)) /\
    2 * Ball.radius b < IZR (MazeGenerator.cellSize (Game.maze g0)) /\
    MazeGenerator.isWall (Ball.x b) (Ball.y b) (Game.maze g0) = Ok false /\
    Forall (fun wall => ~ overlaps b wall) (PhysicsEngine.walls (Game.physics g0)) /\
    Game._gameLoop (0, 0) g0
    = Game.set_animationId true
        (Game.set_physics
           (PhysicsEngine.update (PhysicsEngine.setGravity (0, 0) (Game.physics g0)))
           g0) /\
    PhysicsEngine.getActiveBallCount (Game.physics (Game._gameLoop (0, 0) g0)) = 1%nat /\
    PhysicsEngine.getBalls (Game.physics (Game._gameLoop (0, 0) g0)) = [dropped b].
Proof.
  apply (level_starts_clear 42 (0, 0) (400 # 1) (800 # 1) (Game.constructor 0)).
  - lia.
  - simpl. lia.
Defined.

(** *** Pause and resume *)

Lemma gameLoop_not_playing gr g :
  Game.state g <> PLAYING -> Game._gameLoop gr g = Game.set_animationId true g.
Proof.
  intros Hg. unfold Game._gameLoop. cbv zeta. cbn [Game.state Game.set_animationId].
  destruct (Game.state g); (reflexivity || contradiction).
Qed.

Lemma frames_not_playing gravities :
  forall g, Game.state g <> PLAYING -> Game.animationId g = true ->
            frames gravities g = g.
Proof.
  unfold frames. induction gravities as [|gr grs IH]; intros g Hg Ha; cbn [fold_left];
    [ reflexivity | ].
  assert (Hgl : Game._gameLoop gr g = g).
  { rewrite gameLoop_not_playing by exact Hg.
    destruct g. cbn in Ha. subst. reflexivity. }
  rewrite Hgl. apply IH; assumption.
Qed.

(** X19.  Pausing a game in play whose engine runs pauses both: the
    state is PAUSED, the engine is paused, and the frames of the game
    loop change nothing: they only request the next frame, which leaves
    [animationId] set.  [resumeGame()] then gives back the game as it
    was, and so do two calls of [togglePause()]. *)
Theorem pause_resume_round_trip g :
  Game.state g = PLAYING -> PhysicsEngine.isPaused (Game.physics g) = false ->
  Game.state (Game.pauseGame g) = PAUSED /\
  PhysicsEngine.isPaused (Game.physics (Game.pauseGame g)) = true /\
  (forall gravity gravities,
     frames (gravity :: gravities) (Game.pauseGame g)
     = Game.set_animationId true (Game.pauseGame g)) /\
  Game.resumeGame (Game.pauseGame g) = g /\
  Game.togglePause (Game.togglePause g) = g.
Proof.
  intros Hs Hp.
  assert (Hpause : Game.pauseGame g
                   = Game.mk PAUSED (Game.level g) (Game.score g) (Game.totalScore g)
                       (Game.targetScore g) (Game.animationId g) (Game.maze g)
                       (PhysicsEngine.setPaused true (Game.physics g)))
    by (unfold Game.pauseGame; rewrite Hs; reflexivity).
  assert (Hresume : Game.resumeGame (Game.pauseGame g) = g).
  { rewrite Hpause. unfold Game.resumeGame. cbn.
    destruct g as [st lv sc ts tg an mz ph]. cbn in *. subst st.
    destruct ph. unfold PhysicsEngine.isPaused in Hp. cbn in *. subst. reflexivity. }
  split; [ rewrite Hpause; reflexivity | ].
  split; [ rewrite Hpause; reflexivity | ].
  split; [ | split; [ exact Hresume | ] ].
  - intros gravity gravities. unfold frames. cbn [fold_left].
    rewrite gameLoop_not_playing by (rewrite Hpause; discriminate).
    apply (frames_not_playing gravities); [ rewrite Hpause; discriminate | reflexivity ].
  - unfold Game.togglePause at 2. rewrite Hs.
    unfold Game.togglePause. rewrite Hpause at 1. cbn [Game.state].
    exact Hresume.
Qed.

Lemma pause_resume_round_trip_witness :
  Game.state (Game.pauseGame leaving_game) = PAUSED /\
  PhysicsEngine.isPaused (Game.physics (Game.pauseGame leaving_game)) = true /\
  (forall gravity gravities,
     frames (gravity :: gravities) (Game.pauseGame leaving_game)
     = Game.pauseGame leaving_game) /\
  Game.resumeGame (Game.pauseGame leaving_game) = leaving_game /\
  Game.togglePause (Game.togglePause leaving_game) = leaving_game.
Proof. apply (pause_resume_round_trip leaving_game); reflexivity. Defined.

(** *** Restarting a paused level *)

Lemma gameLoop_frozen gr g :
  Game.state g = PLAYING ->
  PhysicsEngine.paused (Game.physics g) = true ->
  PhysicsEngine.allBallsExited (Game.physics g) = false ->
  Game.state (Game._gameLoop gr g) = PLAYING /\
  PhysicsEngine.paused (Game.physics (Game._gameLoop gr g)) = true /\
  PhysicsEngine.balls (Game.physics (Game._gameLoop gr g))
  = PhysicsEngine.balls (Game.physics g) /\
  PhysicsEngine.score (Game.physics (Game._gameLoop gr g))
  = PhysicsEngine.score (Game.physics g).
Proof.
  intros Hs Hp Hb. unfold Game._gameLoop. cbv zeta.
  cbn [Game.state Game.physics Game.set_animationId]. rewrite Hs.
  assert (Hu : PhysicsEngine.update (PhysicsEngine.setGravity gr (Game.physics g))
               = PhysicsEngine.setGravity gr (Game.physics g))
    by (unfold PhysicsEngine.update; cbn [PhysicsEngine.paused PhysicsEngine.setGravity];
        rewrite Hp; reflexivity).
  rewrite Hu.
  assert (Ha : PhysicsEngine.allBallsExited (PhysicsEngine.setGravity gr (Game.physics g))
               = false) by exact Hb.
  rewrite Ha. cbn. auto.
Qed.

Lemma frames_frozen gravities :
  forall g,
    Game.state g = PLAYING ->
    PhysicsEngine.paused (Game.physics g) = true ->
    PhysicsEngine.allBallsExited (Game.physics g) = false ->
    Game.state (frames gravities g) = PLAYING /\
    PhysicsEngine.balls (Game.physics (frames gravities g))
    = PhysicsEngine.balls (Game.physics g) /\
    PhysicsEngine.score (Game.physics (frames gravities g))
    = PhysicsEngine.score (Game.physics g).
Proof.
  unfold frames. induction gravities as [|gr grs IH]; intros g Hs Hp Hb; cbn [fold_left];
    [ auto | ].
  destruct (gameLoop_frozen gr g Hs Hp Hb) as (H1 & H2 & H3 & H4).
  destruct (IH (Game._gameLoop gr g) H1 H2) as (I1 & I2 & I3).
  - unfold PhysicsEngine.allBallsExited in *. rewrite H3. exact Hb.
  - split; [ exact I1 | ]. split; congruence.
Qed.

(** A game in play with a paused engine that holds one active ball and
    no points stays as it is. *)
Lemma frozen_level g1 b :
  Game.state g1 = PLAYING ->
  PhysicsEngine.paused (Game.physics g1) = true ->
  PhysicsEngine.balls (Game.physics g1) = [b] -> Ball.active b = true ->
  PhysicsEngine.score (Game.physics g1) = 0 ->
  Game.state g1 = PLAYING /\
  PhysicsEngine.isPaused (Game.physics g1) = true /\
  PhysicsEngine.getActiveBallCount (Game.physics g1) = 1%nat /\
  forall gravities,
    Game.state (frames gravities g1) = PLAYING /\
    PhysicsEngine.getBalls (Game.physics (frames gravities g1))
    = PhysicsEngine.getBalls (Game.physics g1) /\
    PhysicsEngine.getScore (Game.physics (frames gravities g1)) = 0.
Proof.
  intros Hs Hp Hb Ha Hsc.
  split; [ exact Hs | ]. split; [ exact Hp | ].
  split; [ unfold PhysicsEngine.getActiveBallCount; rewrite Hb; cbn [filter];
           rewrite Ha; reflexivity | ].
  intros gravities.
  destruct (frames_frozen gravities g1 Hs Hp) as (F1 & F2 & F3).
  - unfold PhysicsEngine.allBallsExited. rewrite Hb. cbn [forallb]. rewrite Ha. reflexivity.
  - unfold PhysicsEngine.getBalls, PhysicsEngine.getScore.
    rewrite F3, Hsc. auto.
Qed.

(** X20.  Restarting the level while the game is paused (the restart
    button of the pause overlay, or the R key) leaves the game PLAYING
    with the engine still paused: [PhysicsEngine.init] does not clear
    the pause flag.  The new level has its one ball active, and no
    number of frames of the game loop moves it, scores or ends the
    level. *)
Theorem restart_while_paused_freezes now gravity cw ch g :
  Game.state g = PLAYING -> (0 <= now)%Z -> (1 <= Game.level g)%Z ->
  exists g',
    Game.restartLevel now gravity cw ch (Game.pauseGame g) = Ok g' /\
    Game.state g' = PLAYING /\
    PhysicsEngine.isPaused (Game.physics g') = true /\
    PhysicsEngine.getActiveBallCount (Game.physics g') = 1%nat /\
    forall gravities,
      Game.state (frames gravities g') = PLAYING /\
      PhysicsEngine.getBalls (Game.physics (frames gravities g'))
      = PhysicsEngine.getBalls (Game.physics g') /\
      PhysicsEngine.getScore (Game.physics (frames gravities g')) = 0.
Proof.
  intros Hs Hnow Hlevel.
  assert (Hpause : Game.pauseGame g
                   = Game.mk PAUSED (Game.level g) (Game.score g) (Game.totalScore g)
                       (Game.targetScore g) (Game.animationId g) (Game.maze g)
                       (PhysicsEngine.setPaused true (Game.physics g)))
    by (unfold Game.pauseGame; rewrite Hs; reflexivity).
  rewrite Hpause. unfold Game.restartLevel.
  destruct (init_ready now (Game.level g) cw ch (Game.maze g) Hnow Hlevel)
    as (m' & Hinit & Hcs & _).
  destruct (ball_radius_fits m' ltac:(lia)) as (H5 & _).
  rewrite (startLevel_eq now gravity cw ch _ m') by exact Hinit.
  cbn [Game.animationId].
  match goal with
  | |- context [built_level ?g1 m'] => set (g0 := built_level g1 m')
  end.
  assert (Hb : PhysicsEngine.balls (Game.physics g0)
               = [fresh_ball (IZR (MazeGenerator.d_ballRadius (MazeGenerator.getDimensions m')))
                    0 ((IZR (MazeGenerator.cols m' / 2) + 1 / 2)
                       * IZR (MazeGenerator.cellSize m'),
                       IZR (MazeGenerator.cellSize m') * (3 / 2))])
    by (apply started_balls; exact H5).
  assert (Hp : PhysicsEngine.paused (Game.physics g0) = true) by reflexivity.
  assert (Hsc : PhysicsEngine.score (Game.physics g0) = 0) by reflexivity.
  assert (Hst : Game.state g0 = PLAYING) by reflexivity.
  clearbody g0.
  eexists. split; [ reflexivity | ].
  destruct (Game.animationId g).
  - eapply frozen_level; try eassumption. reflexivity.
  - destruct (gameLoop_frozen gravity g0 Hst Hp) as (G1 & G2 & G3 & G4).
    { unfold PhysicsEngine.allBallsExited. rewrite Hb. reflexivity. }
    eapply frozen_level; try eassumption.
    + rewrite G3. exact Hb.
    + reflexivity.
    + rewrite G4. exact Hsc.
Qed.

Lemma restart_while_paused_freezes_witness :
  exists g',
    Game.restartLevel 42 (0, 0) (400 # 1) (800 # 1) (Game.pauseGame leaving_game) = Ok g' /\
    Game.state g' = PLAYING /\
    PhysicsEngine.isPaused (Game.physics g') = true /\
    PhysicsEngine.getActiveBallCount (Game.physics g') = 1%nat /\
    forall gravities,
      Game.state (frames gravities g') = PLAYING /\
      PhysicsEngine.getBalls (Game.physics (frames gravities g'))
      = PhysicsEngine.getBalls (Game.physics g') /\
      PhysicsEngine.getScore (Game.physics (frames gravities g')) = 0.
Proof.
  apply (restart_while_paused_freezes 42 (0, 0) (400 # 1) (800 # 1) leaving_game).
  - reflexivity.
  - lia.
  - simpl. lia.
Defined.

(** *** The score of a level *)

Ltac in_list := cbn [In]; repeat (first [ left; reflexivity | right ]).

Lemma awarded_in_level_scores zones px s :
  Forall (fun z => In (ExitZone.score z) level_scores) zones ->
  awarded zones px s -> In s level_scores.
Proof.
  intros Hz Ha. destruct Ha as [before zone after Heq _ _ | _].
  - rewrite Forall_forall in Hz. apply Hz. rewrite Heq.
    apply in_or_app. right. now left.
  - unfold level_scores. in_list.
Qed.

Lemma level_zone_scores m :
  Forall (fun z => In (ExitZone.score z) level_scores)
         (map (MazeGenerator.exit_zone m) [0; 1; 2; 3; 4]%nat).
Proof.
  unfold level_scores. cbn [map].
  repeat (apply Forall_cons;
          [ unfold MazeGenerator.exit_zone;
            cbn [ExitZone.score nth MazeGenerator.exitScores MazeGenerator.es_score];
            in_list | ]).
  apply Forall_nil.
Qed.

Lemma update_ball_scored e sc b :
  Forall (fun z => In (ExitZone.score z) level_scores) (PhysicsEngine.exitZones e) ->
  scored b -> scored (fst (PhysicsEngine.update_ball e sc b)).
Proof.
  intros Hz Hb.
  destruct (PhysicsEngine.update_ball e sc b) as [b' sc'] eqn:E. cbn [fst].
  destruct (update_ball_rule _ _ _ _ _ E) as [(Hi & Hx & Hy & Hn) _].
  unfold scored in *.
  destruct (Ball.active b) eqn:Ha; [ | rewrite (Hi eq_refl); exact Hb ].
  destruct (Ball.exited b) eqn:He.
  - destruct (Hx eq_refl eq_refl) as [_ H2]. rewrite H2. intros _. now apply Hb.
  - destruct (Rlt_dec (PhysicsEngine.mazeHeight e) (Ball.y (PhysicsEngine.move e b)))
      as [Hlt|Hge].
    + destruct (Hy eq_refl eq_refl Hlt) as [_ Haw]. intros _.
      eapply awarded_in_level_scores; eassumption.
    + destruct (Hn eq_refl eq_refl Hge) as [H1 _]. rewrite H1. discriminate.
Qed.

Lemma exec_identity e c :
  map identity (PhysicsEngine.balls (PhysicsEngine.exec e c))
  = map identity (PhysicsEngine.balls e).
Proof.
  destruct c as [ | g | p | i ]; cbn [PhysicsEngine.exec]; try reflexivity.
  - unfold PhysicsEngine.update. destruct (PhysicsEngine.paused e); [ reflexivity | ].
    pose proof (update_balls_identity e (PhysicsEngine.balls e) (PhysicsEngine.score e)) as H.
    destruct (PhysicsEngine.update_balls e _ _) as [bs sc]. exact H.
  - unfold PhysicsEngine.exit_timer. cbn [PhysicsEngine.balls].
    apply exit_timer_identity.
Qed.

Lemma exec_scored e c :
  Forall (fun z => In (ExitZone.score z) level_scores) (PhysicsEngine.exitZones e) ->
  Forall scored (PhysicsEngine.balls e) ->
  Forall scored (PhysicsEngine.balls (PhysicsEngine.exec e c)).
Proof.
  intros Hz Hb. destruct c as [ | g | p | i ]; cbn [PhysicsEngine.exec]; try exact Hb.
  - unfold PhysicsEngine.update. destruct (PhysicsEngine.paused e); [ exact Hb | ].
    pose proof (update_balls_Forall scored e
                  (fun sc b => update_ball_scored e sc b Hz)
                  (PhysicsEngine.balls e) (PhysicsEngine.score e) Hb) as H.
    destruct (PhysicsEngine.update_balls e _ _) as [bs sc]. exact H.
  - unfold PhysicsEngine.exit_timer. cbn [PhysicsEngine.balls].
    apply exit_timer_Forall; [ | exact Hb ].
    intros b H. exact H.
Qed.

(** With one ball and zones that carry the scores of a level, the score
    of the engine is one of them in every reachable state. *)
Lemma single_ball_score e0 :
  Forall (fun z => In (ExitZone.score z) level_scores) (PhysicsEngine.exitZones e0) ->
  PhysicsEngine.score e0 = PhysicsEngine.exited_score (PhysicsEngine.balls e0) ->
  length (PhysicsEngine.balls e0) = 1%nat ->
  Forall scored (PhysicsEngine.balls e0) ->
  forall cs, In (PhysicsEngine.score (PhysicsEngine.run cs e0)) level_scores.
Proof.
  intros Hz Hs Hl Hb cs.
  assert (I : Forall (fun z => In (ExitZone.score z) level_scores)
                     (PhysicsEngine.exitZones (PhysicsEngine.run cs e0)) /\
              PhysicsEngine.score (PhysicsEngine.run cs e0)
              = PhysicsEngine.exited_score (PhysicsEngine.balls (PhysicsEngine.run cs e0)) /\
              length (map identity (PhysicsEngine.balls (PhysicsEngine.run cs e0))) = 1%nat /\
              Forall scored (PhysicsEngine.balls (PhysicsEngine.run cs e0))).
  { apply (run_invariant
             (fun e =>
                Forall (fun z => In (ExitZone.score z) level_scores)
                       (PhysicsEngine.exitZones e) /\
                PhysicsEngine.score e = PhysicsEngine.exited_score (PhysicsEngine.balls e) /\
                length (map identity (PhysicsEngine.balls e)) = 1%nat /\
                Forall scored (PhysicsEngine.balls e))).
    - intros e c (I1 & I2 & I3 & I4).
      split; [ rewrite exec_exitZones; exact I1 | ].
      split; [ apply score_invariant_step; exact I2 | ].
      split; [ rewrite exec_identity; exact I3 | ].
      apply exec_scored; assumption.
    - rewrite length_map. auto. }
  destruct I as (_ & I2 & I3 & I4). rewrite length_map in I3.
  rewrite I2.
  destruct (PhysicsEngine.balls (PhysicsEngine.run cs e0)) as [|b [|b2 bs]];
    try discriminate.
  cbn [PhysicsEngine.exited_score fold_right].
  inversion I4 as [|? ? Hb1 _]; subst. unfold scored in Hb1.
  destruct (Ball.exited b).
  - rewrite Rplus_0_r. now apply Hb1.
  - rewrite Rplus_0_r. unfold level_scores. in_list.
Qed.

Lemma level_score_passes s :
  In s level_scores -> (s >= 1000 <-> s = 1000).
Proof.
  unfold level_scores. cbn [In].
  intros [<-|[<-|[<-|[<-|[<-|[<-|[]]]]]]]; split; intros H; lra.
Qed.

(** What [_onLevelComplete] makes of a score of a level when the target
    is 1000. *)
Lemma onLevelComplete_1000 g1 p :
  Game.targetScore g1 = 1000 ->
  In (PhysicsEngine.getScore p) level_scores ->
  (Game.state (Game._onLevelComplete (Game.set_physics p g1)) = LEVEL_COMPLETE
   <-> PhysicsEngine.getScore p = 1000) /\
  (Game.state (Game._onLevelComplete (Game.set_physics p g1)) = LEVEL_FAILED
   <-> PhysicsEngine.getScore p <> 1000) /\
  Game.totalScore (Game._onLevelComplete (Game.set_physics p g1))
  = Game.totalScore g1 + PhysicsEngine.getScore p.
Proof.
  intros Htg Hin.
  pose proof (level_score_passes _ Hin) as Hpass.
  set (s := PhysicsEngine.getScore p) in *.
  unfold Game._onLevelComplete. cbv zeta.
  cbn [Game.physics Game.set_physics Game.set_score Game.set_totalScore
       Game.score Game.totalScore Game.targetScore Game.level Game.maze Game.state].
  fold s. rewrite Htg.
  unfold LEVEL_CONFIG.maxLevel.
  destruct (Rge_dec s 1000) as [Hge|Hlt]; cbn [Game.state Game.totalScore Game.set_state].
  - apply Hpass in Hge. repeat split; intros; try assumption; try reflexivity;
      try discriminate; try contradiction.
  - assert (s <> 1000) by (intros E; apply Hlt, Hpass, E).
    repeat split; intros; try assumption; try reflexivity;
      try discriminate; try contradiction.
Qed.

(** X21.  A level is played with one ball, and the score of the engine
    at any time of the level is 0, 50, 100, 250, 500 or 1000: nothing
    until the ball has left, then the score of one exit zone or the
    minimum.  So when the level ends, [_onLevelComplete()] finds the
    target of 1000 met exactly when the ball left through the zone worth
    1000: the state becomes LEVEL_COMPLETE then and LEVEL_FAILED
    otherwise, never GAME_COMPLETE, and the score of the level is added
    to the total. *)
Theorem level_passed_only_by_1000 now gravity cw ch g :
  (0 <= now)%Z -> (1 <= Game.level g)%Z ->
  exists g1,
    Game.startLevel now gravity cw ch g = Ok g1 /\
    forall cs p,
      p = PhysicsEngine.run cs (Game.physics g1) ->
      In (PhysicsEngine.getScore p) level_scores /\
      (Game.state (Game._onLevelComplete (Game.set_physics p g1)) = LEVEL_COMPLETE
       <-> PhysicsEngine.getScore p = 1000) /\
      (Game.state (Game._onLevelComplete (Game.set_physics p g1)) = LEVEL_FAILED
       <-> PhysicsEngine.getScore p <> 1000) /\
      Game.totalScore (Game._onLevelComplete (Game.set_physics p g1))
      = Game.totalScore g + PhysicsEngine.getScore p.
Proof.
  intros Hnow Hlevel.
  destruct (init_ready now (Game.level g) cw ch (Game.maze g) Hnow Hlevel)
    as (m' & Hinit & Hcs & _ & _ & _ & _ & _ & _ & _ & Hzones & _).
  destruct (ball_radius_fits m' ltac:(lia)) as (H5 & _).
  rewrite (startLevel_eq _ _ _ _ _ _ Hinit).
  set (g0 := built_level g m').
  assert (Hb : PhysicsEngine.balls (Game.physics g0)
               = [fresh_ball (IZR (MazeGenerator.d_ballRadius (MazeGenerator.getDimensions m')))
                    0 ((IZR (MazeGenerator.cols m' / 2) + 1 / 2)
                       * IZR (MazeGenerator.cellSize m'),
                       IZR (MazeGenerator.cellSize m') * (3 / 2))])
    by (apply started_balls; exact H5).
  assert (Hz : PhysicsEngine.exitZones (Game.physics g0) = MazeGenerator.exitZones m')
    by reflexivity.
  assert (Hsc : PhysicsEngine.score (Game.physics g0) = 0) by reflexivity.
  assert (Hst : Game.state g0 = PLAYING) by reflexivity.
  assert (Htg : Game.targetScore g0 = 1000) by reflexivity.
  assert (Hto : Game.totalScore g0 = Game.totalScore g) by reflexivity.
  clearbody g0.
  assert (Hin : forall cs,
             In (PhysicsEngine.score (PhysicsEngine.run cs (Game.physics g0))) level_scores).
  { apply single_ball_score.
    - rewrite Hz, Hzones. apply level_zone_scores.
    - rewrite Hb, Hsc. cbn. lra.
    - rewrite Hb. reflexivity.
    - rewrite Hb. constructor; [ | constructor ]. unfold scored. cbn. discriminate. }
  destruct (playing_frame gravity g0 _ Hst Hb eq_refl) as [Hframe _].
  eexists. split; [ reflexivity | ].
  intros cs p ->.
  destruct (Game.animationId g).
  - split; [ apply Hin | ]. rewrite <- Hto.
    apply onLevelComplete_1000; [ exact Htg | apply Hin ].
  - rewrite Hframe.
    cbn [Game.physics Game.set_animationId Game.set_physics].
    assert (Hin' : In (PhysicsEngine.getScore
                         (PhysicsEngine.run cs
                            (PhysicsEngine.update
                               (PhysicsEngine.setGravity gravity (Game.physics g0)))))
                      level_scores).
    { change (PhysicsEngine.update (PhysicsEngine.setGravity gravity (Game.physics g0)))
        with (PhysicsEngine.run [PhysicsEngine.SetGravity gravity; PhysicsEngine.Update]
                                (Game.physics g0)).
      unfold PhysicsEngine.run. rewrite <- fold_left_app. apply Hin. }
    split; [ exact Hin' | ]. rewrite <- Hto.
    apply (onLevelComplete_1000
             (Game.mk (Game.state g0) (Game.level g0) (Game.score g0) (Game.totalScore g0)
                      (Game.targetScore g0) true (Game.maze g0)
                      (PhysicsEngine.update
                         (PhysicsEngine.setGravity gravity (Game.physics g0)))));
      [ exact Htg | exact Hin' ].
Qed.

Lemma level_passed_only_by_1000_witness :
  exists g1,
    Game.startLevel 42 (0, 0) (400 # 1) (800 # 1) (Game.constructor 0) = Ok g1 /\
    forall cs p,
      p = PhysicsEngine.run cs (Game.physics g1) ->
      In (PhysicsEngine.getScore p) level_scores /\
      (Game.state (Game._onLevelComplete (Game.set_physics p g1)) = LEVEL_COMPLETE
       <-> PhysicsEngine.getScore p = 1000) /\
      (Game.state (Game._onLevelComplete (Game.set_physics p g1)) = LEVEL_FAILED
       <-> PhysicsEngine.getScore p <> 1000) /\
      Game.totalScore (Game._onLevelComplete (Game.set_physics p g1))
      = Game.totalScore (Game.constructor 0) + PhysicsEngine.getScore p.
Proof.
  apply (level_passed_only_by_1000 42 (0, 0) (400 # 1) (800 # 1) (Game.constructor 0)).
  - lia.
  - simpl. lia.
Defined.

(** *** The end of a level *)

(** X22.  The frame of the game loop in which the last ball is found
    inactive ends the level once: [_onLevelComplete()] runs, the state
    becomes LEVEL_COMPLETE or LEVEL_FAILED, the score of the engine is
    added to the total, and no later frame changes the game, so the
    score is not added twice.  A frame that leaves a ball active keeps
    the game PLAYING and the total as it was. *)
Theorem level_completed_once gravity g :
  Game.state g = PLAYING ->
  if PhysicsEngine.allBallsExited
       (PhysicsEngine.update (PhysicsEngine.setGravity gravity (Game.physics g)))
  then
    (Game.state (Game._gameLoop gravity g) = LEVEL_COMPLETE \/
     Game.state (Game._gameLoop gravity g) = LEVEL_FAILED) /\
    Game.totalScore (Game._gameLoop gravity g)
    = Game.totalScore g
      + PhysicsEngine.getScore
          (PhysicsEngine.update (PhysicsEngine.setGravity gravity (Game.physics g))) /\
    forall gravities,
      frames gravities (Game._gameLoop gravity g) = Game._gameLoop gravity g
  else
    Game.state (Game._gameLoop gravity g) = PLAYING /\
    Game.totalScore (Game._gameLoop gravity g) = Game.totalScore g.
Proof.
  intros Hs. unfold Game._gameLoop. cbv zeta.
  cbn [Game.state Game.physics Game.set_animationId]. rewrite Hs.
  set (p := PhysicsEngine.update (PhysicsEngine.setGravity gravity (Game.physics g))).
  set (g1 := Game.set_physics p _).
  assert (Han : Game.animationId g1 = true) by reflexivity.
  assert (Hto : Game.totalScore g1 = Game.totalScore g) by reflexivity.
  assert (Hst1 : Game.state g1 = PLAYING) by exact Hs.
  assert (Hp1 : Game.physics g1 = p) by reflexivity.
  clearbody g1.
  destruct (PhysicsEngine.allBallsExited p).
  - assert (Hst : Game.state (Game._onLevelComplete g1) = LEVEL_COMPLETE \/
                  Game.state (Game._onLevelComplete g1) = LEVEL_FAILED).
    { unfold Game._onLevelComplete. cbv zeta. unfold LEVEL_CONFIG.maxLevel.
      destruct (Rge_dec _ _); cbn [Game.state Game.set_state]; auto. }
    split; [ exact Hst | ]. split.
    + unfold Game._onLevelComplete. cbv zeta. unfold LEVEL_CONFIG.maxLevel.
      destruct (Rge_dec _ _);
        cbn [Game.totalScore Game.set_state Game.set_totalScore Game.set_score Game.score
             Game.physics];
        rewrite Hto, Hp1; reflexivity.
    + intros gravities. apply frames_not_playing.
      * destruct Hst as [-> | ->]; discriminate.
      * unfold Game._onLevelComplete. cbv zeta. unfold LEVEL_CONFIG.maxLevel.
        destruct (Rge_dec _ _); exact Han.
  - split; [ exact Hst1 | exact Hto ].
Qed.

(** [update] does not read the exit callback. *)
Lemma update_setOnBallExit cb e :
  PhysicsEngine.update (PhysicsEngine.setOnBallExit cb e)
  = PhysicsEngine.setOnBallExit cb (PhysicsEngine.update e).
Proof.
  unfold PhysicsEngine.update. cbn [PhysicsEngine.paused PhysicsEngine.setOnBallExit].
  destruct (PhysicsEngine.paused e); [ reflexivity | ].
  cbn [PhysicsEngine.score PhysicsEngine.balls].
  assert (H : forall bs sc,
             PhysicsEngine.update_balls (PhysicsEngine.setOnBallExit cb e) sc bs
             = PhysicsEngine.update_balls e sc bs).
  { induction bs as [|b bs IH]; intros sc; cbn [PhysicsEngine.update_balls];
      [ reflexivity | ].
    assert (Hb : PhysicsEngine.update_ball (PhysicsEngine.setOnBallExit cb e) sc b
                 = PhysicsEngine.update_ball e sc b).
    { unfold PhysicsEngine.update_ball, PhysicsEngine.move, PhysicsEngine.accelerate,
        PhysicsEngine._handleWallCollisions, PhysicsEngine._handleBoundaries,
        PhysicsEngine._checkExitZones.
      cbn [PhysicsEngine.gravity PhysicsEngine.walls PhysicsEngine.mazeWidth
           PhysicsEngine.mazeHeight PhysicsEngine.exitZones PhysicsEngine.setOnBallExit].
      reflexivity. }
    rewrite Hb.
    destruct (PhysicsEngine.update_ball e sc b) as [b1 sc1]. rewrite IH. reflexivity. }
  rewrite H. destruct (PhysicsEngine.update_balls e _ _). reflexivity.
Qed.

(** After the frame in which the ball of [leaving_game] leaves and the
    exit timer, the ball has the 500 of the left zone and is inactive;
    the game shows the 500 and is still in play. *)
Lemma left_game_eq :
  left_game
  = Game.mk PLAYING 1 500 0 1000 true (MazeGenerator.constructor 0)
      (PhysicsEngine.mk [Ball.set_active false left_ball] (0, 0) false 500 []
                        sample_zones 100 100 (Some 5) (Some Game.ballExitCallback) None).
Proof.
  assert (Hu : PhysicsEngine.update
                 (PhysicsEngine.setGravity (0, 0) (Game.physics leaving_game))
               = PhysicsEngine.mk [left_ball] (0, 0) false 500 [] sample_zones 100 100
                                  (Some 5) (Some Game.ballExitCallback) None).
  { unfold leaving_game. cbn [Game.physics].
    replace (PhysicsEngine.setGravity (0, 0)
               (PhysicsEngine.setOnBallExit (Some Game.ballExitCallback) exit_engine))
      with (PhysicsEngine.setOnBallExit (Some Game.ballExitCallback) exit_engine)
      by (rewrite exit_engine_eq; reflexivity).
    rewrite update_setOnBallExit, exit_engine_update. reflexivity. }
  destruct (playing_frame (0, 0) leaving_game (fresh_ball 5 0 (50, 9995 / 100)))
    as [Hframe _]; try reflexivity.
  { unfold leaving_game. cbn [Game.physics PhysicsEngine.balls PhysicsEngine.setOnBallExit].
    rewrite exit_engine_eq. reflexivity. }
  unfold left_game. rewrite Hframe, Hu. reflexivity.
Qed.

(** The next frame finds no ball active and ends the level: 500 is
    short of the target. *)
Lemma left_game_frame :
  PhysicsEngine.update (PhysicsEngine.setGravity (0, 0) (Game.physics left_game))
  = Game.physics left_game /\
  Game.state (Game._gameLoop (0, 0) left_game) = LEVEL_FAILED.
Proof.
  rewrite left_game_eq. cbn [Game.physics].
  assert (Hu : forall p,
             p = PhysicsEngine.mk [Ball.set_active false left_ball] (0, 0) false 500 []
                   sample_zones 100 100 (Some 5) (Some Game.ballExitCallback) None ->
             PhysicsEngine.update (PhysicsEngine.setGravity (0, 0) p) = p).
  { intros p ->. reflexivity. }
  split; [ apply Hu; reflexivity | ].
  unfold Game._gameLoop. cbv zeta.
  cbn [Game.state Game.physics Game.set_animationId].
  rewrite (Hu _ eq_refl).
  cbn [PhysicsEngine.allBallsExited PhysicsEngine.balls forallb Ball.active
       Ball.set_active negb andb].
  unfold Game._onLevelComplete. cbv zeta.
  cbn [Game.physics Game.set_physics Game.set_score Game.set_totalScore Game.score
       Game.set_animationId Game.totalScore Game.targetScore PhysicsEngine.getScore
       PhysicsEngine.score].
  destruct (Rge_dec 500 1000); [ lra | reflexivity ].
Qed.

Lemma level_completed_once_witness :
  Game.state left_game = PLAYING /\
  PhysicsEngine.getBalls (Game.physics left_game) = [Ball.set_active false left_ball] /\
  Game.state (Game._gameLoop (0, 0) left_game) = LEVEL_FAILED /\
  Game.totalScore (Game._gameLoop (0, 0) left_game) = Game.totalScore leaving_game + 500 /\
  forall gravities,
    frames gravities (Game._gameLoop (0, 0) left_game) = Game._gameLoop (0, 0) left_game.
Proof.
  assert (Hs : Game.state left_game = PLAYING) by (rewrite left_game_eq; reflexivity).
  pose proof (level_completed_once (0, 0) left_game Hs) as H.
  destruct left_game_frame as [Hu Hf].
  rewrite Hu in H.
  assert (Ha : PhysicsEngine.allBallsExited (Game.physics left_game) = true)
    by (rewrite left_game_eq; reflexivity).
  rewrite Ha in H. destruct H as (_ & Ht & Hfr).
  split; [ exact Hs | ].
  split; [ rewrite left_game_eq; reflexivity | ].
  split; [ exact Hf | ].
  split; [ | exact Hfr ].
  rewrite Ht, left_game_eq. reflexivity.
Defined.

End GameProps.
